(** * A write-ahead journal over a block image: model of [journal.c]

    The development embeds the two operations of [journal.c] --
    [create_journal] (append one file-creation transaction to the journal)
    and [install_journal] (replay committed transactions, then truncate) --
    together with the helpers they call, and proves or refutes the
    properties stated about them.

    Conventions of the embedding.
    - The image file is a length and a byte at every offset; a byte is a
      [Z] in [0, 256).  [pread] fails on a short transfer (the code calls
      [die]); [pwrite] extends the file, holes reading as zero, and always
      transfers all its bytes: a full device or a file-size limit is not
      modelled, so the calls of [die] after [pwrite] are never reached.
    - In-memory buffers ([uint8_t buf[4096]], the structs) are byte lists in
      the layout the compiler gives the structs: packed, little-endian.
    - [uint32_t] arithmetic wraps modulo [2^32]; file offsets are [off_t]
      (64 bits) and do not wrap.
    - Each I/O call is recorded in a log, so that the order and extent of
      the reads and writes of an operation can be stated.
    - The [while] loops of [install_journal] take fuel; running out of it
      is the outcome [OutOfFuel], distinct from every outcome of the code. *)

From Stdlib Require Import ZArith List Lia Bool String Ascii.
Import ListNotations.
Local Open Scope Z_scope.

(** ** Layout constants (the [#define]s) *)

Definition JOURNAL_MAGIC : Z := 1246907980. (* 0x4A524E4C *)
Definition BLOCK_SIZE : Z := 4096.
Definition INODE_SIZE : Z := 128.
Definition JOURNAL_BLOCK_IDX : Z := 1.
Definition JOURNAL_BLOCKS : Z := 16.
Definition INODE_BLOCKS : Z := 2.
Definition DATA_BLOCKS : Z := 64.
Definition INODE_BMAP_IDX : Z := JOURNAL_BLOCK_IDX + JOURNAL_BLOCKS.
Definition DATA_BMAP_IDX : Z := INODE_BMAP_IDX + 1.
Definition INODE_START_IDX : Z := DATA_BMAP_IDX + 1.
Definition DATA_START_IDX : Z := INODE_START_IDX + INODE_BLOCKS.
Definition TOTAL_BLOCKS : Z := DATA_START_IDX + DATA_BLOCKS.
Definition REC_DATA : Z := 1.
Definition REC_COMMIT : Z := 2.

(** [sizeof] of the structs. *)
Definition sizeof_inode : Z := 128.
Definition sizeof_dirent : Z := 32.
Definition sizeof_journal_header : Z := 8.
Definition sizeof_rec_header : Z := 4.
Definition sizeof_data_record : Z := 4104.
Definition sizeof_commit_record : Z := 4.

(** Field offsets inside the structs. *)
Definition dirent_inode : Z := 0.
Definition dirent_name : Z := 4.
Definition inode_type : Z := 0.
Definition inode_links : Z := 2.
Definition inode_size : Z := 4.
Definition inode_ctime : Z := 40.
Definition inode_mtime : Z := 44.

Definition u32 (x : Z) : Z := x mod 4294967296.
Definition u16 (x : Z) : Z := x mod 65536.
Definition u8 (x : Z) : Z := x mod 256.

(** [(int)x] for a [uint32_t] x. *)
Definition to_int (x : Z) : Z :=
  if x <? 2147483648 then x else x - 4294967296.

(** ** Byte buffers *)

Definition bytes := list Z.

Definition get (b : bytes) (i : Z) : Z := nth (Z.to_nat i) b 0.

Fixpoint upd (b : bytes) (n : nat) (v : Z) : bytes :=
  match b, n with
  | [], _ => []
  | _ :: t, O => v :: t
  | x :: t, S n' => x :: upd t n' v
  end.

Definition set (b : bytes) (i : Z) (v : Z) : bytes := upd b (Z.to_nat i) v.

(** Store the bytes [src] into [b] from index [i] on ([memcpy] into an
    array that is long enough). *)
Fixpoint blit (b : bytes) (i : Z) (src : bytes) : bytes :=
  match src with
  | [] => b
  | x :: rest => blit (set b i x) (i + 1) rest
  end.

Definition le16 (v : Z) : bytes := [v mod 256; (v / 256) mod 256].
Definition le32 (v : Z) : bytes :=
  [v mod 256; (v / 256) mod 256; (v / 65536) mod 256; (v / 16777216) mod 256].

Definition rd16 (b : bytes) (i : Z) : Z := get b i + 256 * get b (i + 1).
Definition rd32 (b : bytes) (i : Z) : Z :=
  get b i + 256 * get b (i + 1) + 65536 * get b (i + 2)
  + 16777216 * get b (i + 3).

Definition put16 (b : bytes) (i v : Z) : bytes := blit b i (le16 v).
Definition put32 (b : bytes) (i v : Z) : bytes := blit b i (le32 v).

(** [memset(b + i, c, n)]. *)
Definition memset (b : bytes) (i c : Z) (n : nat) : bytes :=
  blit b i (repeat c n).

(** The bytes of a C string: the characters before the first NUL. *)
Definition char_code (c : ascii) : Z := Z.of_N (N_of_ascii c).

Fixpoint c_str (s : string) : bytes :=
  match s with
  | EmptyString => []
  | String c rest => if char_code c =? 0 then [] else char_code c :: c_str rest
  end.

(** [strncpy(dst + i, src, n)]: copies the characters of [src], at most [n]
    of them, and when [src] is shorter fills with NUL up to [n] bytes. *)
Fixpoint strncpy (dst : bytes) (i : Z) (src : bytes) (n : nat) : bytes :=
  match n with
  | O => dst
  | S n' =>
      match src with
      | [] => strncpy (set dst i 0) (i + 1) [] n'
      | c :: rest => strncpy (set dst i c) (i + 1) rest n'
      end
  end.

(** ** The image file and the I/O monad *)

Record file := mkfile { len : Z; byte_at : Z -> Z }.

Inductive event :=
| Pread (off size : Z)
| Pwrite (off : Z) (data : bytes).

Record state := mkstate { disk : file; log : list event }.

Inductive result (A : Type) :=
| Ok (a : A) (s : state)   (* the call returned *)
| Die                      (* die(): perror and exit *)
| Undef                    (* access outside an object's initialised bytes *)
| OutOfFuel.               (* the model's loop budget ran out *)
Arguments Ok {A} a s.
Arguments Die {A}.
Arguments Undef {A}.
Arguments OutOfFuel {A}.

Definition M (A : Type) := state -> result A.

Definition ret {A} (a : A) : M A := fun s => Ok a s.

Definition bind {A B} (m : M A) (k : A -> M B) : M B :=
  fun s => match m s with
           | Ok a s' => k a s'
           | Die => Die
           | Undef => Undef
           | OutOfFuel => OutOfFuel
           end.

Definition undef {A} : M A := fun _ => Undef.
Definition timeout {A} : M A := fun _ => OutOfFuel.

Declare Scope io_scope.
Delimit Scope io_scope with io.
Notation "x <- m ;; k" := (bind m (fun x => k))
  (at level 100, m at next level, right associativity) : io_scope.
Notation "m ;;; k" := (bind m (fun _ => k))
  (at level 100, right associativity) : io_scope.
Local Open Scope io_scope.

Definition file_read (f : file) (off : Z) (size : Z) : bytes :=
  map (fun i => byte_at f (off + Z.of_nat i)) (seq 0 (Z.to_nat size)).

Definition file_write (f : file) (off : Z) (buf : bytes) : file :=
  let n := Z.of_nat (List.length buf) in
  {| len := Z.max (len f) (off + n);
     byte_at := fun a =>
       if (off <=? a) && (a <? off + n) then get buf (a - off)
       else if a <? len f then byte_at f a else 0 |}.

(** [pread(fd, buf, size, off) != size] makes the caller [die]; the model
    returns the bytes read. *)
Definition pread (size off : Z) : M bytes := fun s =>
  if off + size <=? len (disk s)
  then Ok (file_read (disk s) off size)
          {| disk := disk s; log := log s ++ [Pread off size] |}
  else Die.

(** [pwrite(fd, buf, size, off)], [buf] being the [size] bytes written. *)
Definition pwrite (buf : bytes) (off : Z) : M unit := fun s =>
  Ok tt {| disk := file_write (disk s) off buf;
           log := log s ++ [Pwrite off buf] |}.

(** ** Block store and journal access *)

Definition write_block (block_no : Z) (buf : bytes) : M unit :=
  pwrite (firstn (Z.to_nat BLOCK_SIZE) buf) (block_no * BLOCK_SIZE).

Definition read_block (block_no : Z) : M bytes :=
  pread BLOCK_SIZE (block_no * BLOCK_SIZE).

Definition journal_write (offset : Z) (buf : bytes) : M unit :=
  pwrite buf (JOURNAL_BLOCK_IDX * BLOCK_SIZE + offset).

Definition journal_read (offset size : Z) : M bytes :=
  pread size (JOURNAL_BLOCK_IDX * BLOCK_SIZE + offset).

(** ** Allocators *)

Definition set_bitmap (bitmap : bytes) (index : Z) : bytes :=
  set bitmap (index / 8)
      (Z.lor (get bitmap (index / 8)) (u8 (Z.shiftl 1 (index mod 8)))).

Definition max_inodes : Z := INODE_BLOCKS * (BLOCK_SIZE / INODE_SIZE).

(** The [for] loop of [free_inode], [n] iterations left, at index [i]. *)
Fixpoint free_inode_from (bmap : bytes) (n : nat) (i : Z) : Z :=
  match n with
  | O => -1
  | S n' =>
      if Z.land (get bmap (i / 8)) (Z.shiftl 1 (i mod 8)) =? 0 then i
      else free_inode_from bmap n' (i + 1)
  end.

Definition free_inode (bmap : bytes) : Z :=
  free_inode_from bmap (Z.to_nat max_inodes) 0.

Definition dirent_slots : Z := BLOCK_SIZE / sizeof_dirent.

Definition name0 (d : bytes) (i : Z) : Z :=
  get d (i * sizeof_dirent + dirent_name).

Fixpoint free_dirent_from (d : bytes) (n : nat) (i : Z) : Z :=
  match n with
  | O => -1
  | S n' =>
      if name0 d i =? 0 then i else free_dirent_from d n' (i + 1)
  end.

Definition free_dirent (d : bytes) : Z :=
  free_dirent_from d (Z.to_nat dirent_slots) 0.

(** ** Journal records *)

Record journal_header := mkjh { magic : Z; nbytes_used : Z }.

Definition decode_jh (b : bytes) : journal_header :=
  {| magic := rd32 b 0; nbytes_used := rd32 b 4 |}.
Definition encode_jh (jh : journal_header) : bytes :=
  le32 (magic jh) ++ le32 (nbytes_used jh).

Record rec_header := mkrh { type : Z; size : Z }.

Definition decode_rh (b : bytes) : rec_header :=
  {| type := rd16 b 0; size := rd16 b 2 |}.
Definition encode_rh (rh : rec_header) : bytes :=
  le16 (type rh) ++ le16 (size rh).

(** [struct data_record] as it lies in memory. *)
Definition data_record (block_no : Z) (data : bytes) : bytes :=
  encode_rh {| type := REC_DATA; size := sizeof_data_record |}
  ++ le32 block_no ++ firstn (Z.to_nat BLOCK_SIZE) data.

Definition commit_record : bytes :=
  encode_rh {| type := REC_COMMIT; size := sizeof_commit_record |}.

Definition dr_block_no (dr : bytes) : Z := rd32 dr 4.
Definition dr_data (dr : bytes) : bytes := skipn 8 dr.

(** ** Transaction builder: [create_journal] *)

(** The body of the [for] loop over [targets] and [bufs]: one Data record
    per entry, written at [off], which advances by the record size. *)
Fixpoint log_blocks (recs : list (Z * bytes)) (off : Z) : M Z :=
  match recs with
  | [] => ret off
  | (target, buf) :: rest =>
      let dr := data_record target buf in
      journal_write off dr ;;;
      log_blocks rest (u32 (off + sizeof_data_record))
  end.

(** Lines 136-137: the new directory entry in slot [slot]. *)
Definition add_dirent (root_data : bytes) (slot inode_idx : Z)
           (file_name : string) : bytes :=
  let root_data :=
    put32 root_data (slot * sizeof_dirent + dirent_inode) inode_idx in
  strncpy root_data (slot * sizeof_dirent + dirent_name) (c_str file_name) 27.

(** Lines 142-145: the new inode, in the table block that holds it. *)
Definition init_inode (ino_blk : bytes) (inode_idx now : Z) : bytes :=
  let new_ino := (inode_idx mod (BLOCK_SIZE / INODE_SIZE)) * sizeof_inode in
  let ino_blk := memset ino_blk new_ino 0 (Z.to_nat sizeof_inode) in
  let ino_blk := put16 ino_blk (new_ino + inode_type) 1 in
  let ino_blk := put16 ino_blk (new_ino + inode_links) 1 in
  let ino_blk := put32 ino_blk (new_ino + inode_mtime) (u32 now) in
  put32 ino_blk (new_ino + inode_ctime) (u32 now).

(** Lines 147-149: [root_ino] is entry 0 of the block in [ino_blk]. *)
Definition grow_root (ino_blk : bytes) (slot : Z) : bytes :=
  let root_ino := 0 * sizeof_inode in
  let needed := u32 ((slot + 1) * sizeof_dirent) in
  if rd32 ino_blk (root_ino + inode_size) <? needed
  then put32 ino_blk (root_ino + inode_size) needed
  else ino_blk.

(** Line 153: a header without the magic stands for an empty journal. *)
Definition init_jh (jh : journal_header) : journal_header :=
  if negb (magic jh =? JOURNAL_MAGIC)
  then {| magic := JOURNAL_MAGIC; nbytes_used := sizeof_journal_header |}
  else jh.

(** [now] is the value of [time(NULL)].  The result is [true] when the
    creation was logged and [false] on the silent return of line 133. *)
Definition create_journal (file_name : string) (now : Z) : M bool :=
  ibmap <- read_block INODE_BMAP_IDX ;;
  dbmap <- read_block DATA_BMAP_IDX ;;
  root_data <- read_block DATA_START_IDX ;;
  let inode_idx := free_inode ibmap in
  let slot := free_dirent root_data in
  if (inode_idx <? 0) || (slot <? 0) then ret false
  else
    let ibmap := set_bitmap ibmap inode_idx in
    let root_data := add_dirent root_data slot inode_idx file_name in
    let iblk_no := INODE_START_IDX + inode_idx / (BLOCK_SIZE / INODE_SIZE) in
    ino_blk <- read_block iblk_no ;;
    let ino_blk := init_inode ino_blk inode_idx now in
    let ino_blk := grow_root ino_blk slot in
    jhb <- journal_read 0 sizeof_journal_header ;;
    let jh := init_jh (decode_jh jhb) in
    let off := nbytes_used jh in
    off <- log_blocks [(INODE_BMAP_IDX, ibmap); (DATA_BMAP_IDX, dbmap);
                       (DATA_START_IDX, root_data); (iblk_no, ino_blk)] off ;;
    journal_write off commit_record ;;;
    let off := u32 (off + sizeof_commit_record) in
    journal_write 0 (encode_jh {| magic := magic jh; nbytes_used := off |}) ;;;
    ret true.

(** ** Journal installer: [install_journal] *)

(** The scanning loop (lines 191-196): walks record headers from [tx_off]
    and returns [has_commit] and the offset it stopped at. *)
Fixpoint scan_tx (fuel : nat) (used tx_off : Z) : M (bool * Z) :=
  match fuel with
  | O => timeout
  | S fuel' =>
      if tx_off <? used then
        rhb <- journal_read tx_off sizeof_rec_header ;;
        let rh := decode_rh rhb in
        let tx_off := u32 (tx_off + size rh) in
        if type rh =? REC_COMMIT then ret (true, tx_off)
        else scan_tx fuel' used tx_off
      else ret (false, tx_off)
  end.

(** The applying loop (lines 199-208).  The code reads [rh.size] bytes into
    a [struct data_record]: more than its size overruns the object, fewer
    leave part of it uninitialised; both are the outcome [Undef]. *)
Fixpoint apply_tx (fuel : nat) (tx_off apply_off : Z) : M unit :=
  match fuel with
  | O => timeout
  | S fuel' =>
      if apply_off <? tx_off then
        rhb <- journal_read apply_off sizeof_rec_header ;;
        let rh := decode_rh rhb in
        (if type rh =? REC_DATA then
           if size rh =? sizeof_data_record then
             dr <- journal_read apply_off (size rh) ;;
             write_block (dr_block_no dr) (dr_data dr)
           else undef
         else ret tt) ;;;
        apply_tx fuel' tx_off (u32 (apply_off + size rh))
      else ret tt
  end.

(** The outer loop (lines 188-211); the result is [committed]. *)
Fixpoint install_loop (fuel : nat) (max_commits used off committed : Z)
  : M Z :=
  match fuel with
  | O => timeout
  | S fuel' =>
      if (off <? used)
         && ((max_commits <? 0) || (to_int committed <? max_commits))
      then
        r <- scan_tx fuel used off ;;
        let '(has_commit, tx_off) := r in
        if negb has_commit then ret committed
        else
          apply_tx fuel tx_off off ;;;
          install_loop fuel' max_commits used tx_off (u32 (committed + 1))
      else ret committed
  end.

(** The result is the number of transactions installed (what the final
    [printf] reports), 0 on the early return of line 185. *)
Definition install_journal (fuel : nat) (max_commits : Z) : M Z :=
  jhb <- journal_read 0 sizeof_journal_header ;;
  let jh := decode_jh jhb in
  if negb (magic jh =? JOURNAL_MAGIC)
     || (nbytes_used jh <=? sizeof_journal_header)
  then ret 0
  else
    committed <-
      install_loop fuel max_commits (nbytes_used jh) sizeof_journal_header 0 ;;
    journal_write 0
      (encode_jh {| magic := magic jh;
                    nbytes_used := sizeof_journal_header |}) ;;;
    ret committed.

(** ** Observations on a state *)

Definition boot (f : file) : state := {| disk := f; log := [] |}.

Definition block (f : file) (block_no : Z) : bytes :=
  file_read f (block_no * BLOCK_SIZE) BLOCK_SIZE.

Definition header (f : file) : journal_header :=
  decode_jh (file_read f (JOURNAL_BLOCK_IDX * BLOCK_SIZE)
                       sizeof_journal_header).

Definition is_write (e : event) : bool :=
  match e with Pwrite _ _ => true | Pread _ _ => false end.

Definition writes (l : list event) : list event := filter is_write l.

(** An image of [TOTAL_BLOCKS] zero blocks. *)
Definition blank : file :=
  {| len := TOTAL_BLOCKS * BLOCK_SIZE; byte_at := fun _ => 0 |}.

Definition state_of {A} (r : result A) (dflt : state) : state :=
  match r with Ok _ s => s | _ => dflt end.

(** The state [m] leaves when it returns. *)
Definition run {A} (m : M A) (s : state) : state := state_of (m s) s.

(** ** Predicates on runs *)

(** A result known to be [Ok a] is [Ok a] of the state it holds: lets a
    run on a sample image be named without writing its final state out. *)
Definition ok_with {A} (eqb : A -> A -> bool) (a : A) (r : result A) : bool :=
  match r with Ok a' _ => eqb a' a | _ => false end.

Class EqbSound {A} (eqb : A -> A -> bool) :=
  eqb_sound : forall x y, eqb x y = true -> x = y.

(** A computation that only reads: same disk, no write added to the log. *)
Definition read_only {A} (m : M A) : Prop :=
  forall s a s', m s = Ok a s' ->
                 disk s' = disk s /\ writes (log s') = writes (log s).

(** A computation that only adds events to the log. *)
Definition extends {A} (m : M A) : Prop :=
  forall s a s', m s = Ok a s' -> exists l, log s' = log s ++ l.

Definition apply_write (f : file) (e : event) : file :=
  match e with
  | Pwrite off buf => file_write f off buf
  | Pread _ _ => f
  end.

(** Bit [i] of a bitmap, as [free_inode] tests it. *)
Definition inode_bit (bmap : bytes) (i : Z) : bool :=
  negb (Z.land (get bmap (i / 8)) (Z.shiftl 1 (i mod 8)) =? 0).

(** The file offsets outside the journal's tail: the tail runs from
    bytes-used [U] (from the end of the header, at least) to the end of the
    journal region. *)
Definition visible (U a : Z) : Prop :=
  a < JOURNAL_BLOCK_IDX * BLOCK_SIZE + Z.max U sizeof_journal_header
  \/ JOURNAL_BLOCK_IDX * BLOCK_SIZE + JOURNAL_BLOCKS * BLOCK_SIZE <= a.

(** Two files that may differ in the tail only (the bytes past the end of
    a file are not part of it). *)
Definition agree (U : Z) (f1 f2 : file) : Prop :=
  len f1 = len f2
  /\ forall a, visible U a -> a < len f1 -> byte_at f1 a = byte_at f2 a.

(** A read that takes no byte of the tail. *)
Definition read_ok (U : Z) (e : event) : bool :=
  match e with
  | Pread off size =>
      (off + size
       <=? JOURNAL_BLOCK_IDX * BLOCK_SIZE + Z.max U sizeof_journal_header)
      || (JOURNAL_BLOCK_IDX * BLOCK_SIZE + JOURNAL_BLOCKS * BLOCK_SIZE <=? off)
  | Pwrite _ _ => true
  end.

Definition tail_unread (U : Z) (l : list event) : bool :=
  forallb (read_ok U) l.

Definition sim (U : Z) (s1 s2 : state) : Prop :=
  agree U (disk s1) (disk s2) /\ log s1 = log s2.

(** [m] behaves alike on two similar states, as long as its run on the
    first reads nothing of the tail. *)
Definition lockstep {A} (U : Z) (m : M A) : Prop :=
  forall s1 s2 a s1',
    sim U s1 s2 -> m s1 = Ok a s1' -> tail_unread U (log s1') = true ->
    exists s2', m s2 = Ok a s2' /\ sim U s1' s2'.

(** ** Sample images

    An image of [TOTAL_BLOCKS] blocks that is zero everywhere but in the
    listed chunks, each a file offset and the bytes stored from it on. *)

Fixpoint lookup_chunks (chunks : list (Z * bytes)) (a : Z) : Z :=
  match chunks with
  | [] => 0
  | (off, b) :: rest =>
      if (off <=? a) && (a <? off + Z.of_nat (List.length b))
      then get b (a - off)
      else lookup_chunks rest a
  end.

Definition image (chunks : list (Z * bytes)) : file :=
  {| len := TOTAL_BLOCKS * BLOCK_SIZE; byte_at := lookup_chunks chunks |}.

(** A journal that holds one Data record (for block 21) and no Commit
    record: a transaction cut short. *)
Definition torn : file :=
  image [(4096, encode_jh {| magic := JOURNAL_MAGIC; nbytes_used := 4112 |});
         (4104, encode_rh {| type := REC_DATA; size := sizeof_data_record |}
                ++ le32 21 ++ [170])].

(** The inode bitmap with all 64 inode bits set. *)
Definition full : file :=
  image [(INODE_BMAP_IDX * BLOCK_SIZE, repeat 255 8)].

(** A journal with one whole transaction: a Data record that fills block
    21 with the byte 170, and its Commit record. *)
Definition one_tx (used : Z) : file :=
  image [(4096, encode_jh {| magic := JOURNAL_MAGIC; nbytes_used := used |});
         (4104, data_record 21 (repeat 170 4096));
         (8208, commit_record)].

(** [sealed]: bytes-used is the end of the Commit record; [sealed_junk]
    has other bytes after it. *)
Definition sealed : file := one_tx 4116.
Definition sealed_junk : file := file_write sealed (4096 + 4116) [1; 2; 3].

(** [cut_a]: bytes-used falls inside the Commit record's header, after its
    first byte; [cut_b] differs from it in the next byte only, the second
    byte of the record's type. *)
Definition cut_a : file := one_tx 4113.
Definition cut_b : file := file_write cut_a (4096 + 4113) [1].

(** A name of 28 characters, the length of [name] in [struct dirent]. *)
Definition name28 : string := "abcdefghijklmnopqrstuvwxyz01"%string.

(** The name field of directory slot [slot]: 28 bytes. *)
Definition name_field (root_data : bytes) (slot : Z) : bytes :=
  firstn 28 (skipn (Z.to_nat (slot * sizeof_dirent + dirent_name)) root_data).

(** The input truncated to the 28 bytes of the field and NUL-padded. *)
Definition truncated_padded (file_name : string) : bytes :=
  firstn 28 (c_str file_name ++ repeat 0 28).

(** A journal whose used region is one record of four zero bytes: type 0,
    size 0. *)
Definition zero_rec : file :=
  image [(4096, encode_jh {| magic := JOURNAL_MAGIC; nbytes_used := 12 |})].

(** An image with inodes 0 to 31 allocated, directory slots 0 to 30 in use
    (each name is the letter f) and a root directory size of 31 entries,
    992 bytes. *)
Definition crowded : file :=
  image ((INODE_BMAP_IDX * BLOCK_SIZE, [255; 255; 255; 255])
         :: (INODE_START_IDX * BLOCK_SIZE + inode_size, le32 992)
         :: map (fun i => (DATA_START_IDX * BLOCK_SIZE
                           + Z.of_nat i * sizeof_dirent + dirent_name, [102]))
                (seq 0 31)).

(** Four creates in a row on the blank image, no install in between. *)
Definition four_creates : state :=
  run (create_journal "d" 1004)
      (run (create_journal "c" 1003)
           (run (create_journal "b" 1002)
                (run (create_journal "a" 1001) (boot blank)))).

(** The states install goes through on [four_creates]: after the header
    read, and after each of the first three transactions. *)
Definition fc_used : Z := 65688.

Definition fc_0 : state :=
  {| disk := disk four_creates;
     log := log four_creates
            ++ [Pread (JOURNAL_BLOCK_IDX * BLOCK_SIZE + 0)
                      sizeof_journal_header] |}.

Abbreviation fc_1 :=
  (run (apply_tx 6 16428 8) (run (scan_tx 6 fc_used 8) fc_0)) (only parsing).
Abbreviation fc_2 :=
  (run (apply_tx 6 32848 16428) (run (scan_tx 6 fc_used 16428) fc_1))
  (only parsing).
Abbreviation fc_3 :=
  (run (apply_tx 6 49268 32848) (run (scan_tx 6 fc_used 32848) fc_2))
  (only parsing).

Definition eqb_scan (x y : bool * Z) : bool :=
  Bool.eqb (fst x) (fst y) && (snd x =? snd y).
Definition eqb_unit (_ _ : unit) : bool := true.

(** The record header at journal offset [off] of [f] has this type and
    size. *)
Definition rec_is (f : file) (off ty sz : Z) : bool :=
  let rh := decode_rh (file_read f (JOURNAL_BLOCK_IDX * BLOCK_SIZE + off)
                                 sizeof_rec_header) in
  (type rh =? ty) && (size rh =? sz).

(** What the run of install on [four_creates] meets, to be evaluated. *)
Definition fc_facts : list bool :=
  [ JOURNAL_BLOCK_IDX * BLOCK_SIZE + fc_used + sizeof_rec_header
    <=? len (disk fc_3);
    (JOURNAL_BLOCK_IDX * BLOCK_SIZE + 0 + sizeof_journal_header
     <=? len (disk four_creates))
    && (magic (header (disk four_creates)) =? JOURNAL_MAGIC)
    && (nbytes_used (header (disk four_creates)) =? fc_used);
    ok_with eqb_scan (true, 16428) (scan_tx 6 fc_used 8 fc_0);
    ok_with eqb_unit tt (apply_tx 6 16428 8 (run (scan_tx 6 fc_used 8) fc_0));
    ok_with eqb_scan (true, 32848) (scan_tx 6 fc_used 16428 fc_1);
    ok_with eqb_unit tt
            (apply_tx 6 32848 16428 (run (scan_tx 6 fc_used 16428) fc_1));
    ok_with eqb_scan (true, 49268) (scan_tx 6 fc_used 32848 fc_2);
    ok_with eqb_unit tt
            (apply_tx 6 49268 32848 (run (scan_tx 6 fc_used 32848) fc_2));
    rec_is (disk fc_3) 49268 REC_DATA sizeof_data_record;
    rec_is (disk fc_3) 53372 REC_DATA sizeof_data_record;
    rec_is (disk fc_3) 57476 REC_DATA sizeof_data_record;
    rec_is (disk fc_3) 61580 REC_DATA sizeof_data_record;
    rec_is (disk fc_3) 65684 0 0 ].

(** ** The command line: [main]

    [argv] is the argument vector, program name first; [!strcmp(a, b)] is
    equality of the two C strings.  The result is the exit status; what
    [printf] prints is not modelled. *)

Definition streq (a b : string) : bool :=
  if list_eq_dec Z.eq_dec (c_str a) (c_str b) then true else false.

Definition main (fuel : nat) (now : Z) (argv : list string) : M Z :=
  match argv with
  | [_; cmd; file_name] =>
      if streq cmd "create" then create_journal file_name now ;;; ret 0
      else ret 1
  | [_; cmd] =>
      if streq cmd "install" then install_journal fuel (-1) ;;; ret 0
      else ret 1
  | _ => ret 1
  end.

(** ** Files that hold given bytes *)

(** The file [f] holds the bytes [buf] from offset [off] on. *)
Definition holds (f : file) (off : Z) (buf : bytes) : Prop :=
  0 <= off
  /\ off + Z.of_nat (List.length buf) <= len f
  /\ file_read f off (Z.of_nat (List.length buf)) = buf.

(** The four block writes of a replayed create transaction, in order. *)
Definition replay (f : file) (recs : list (Z * bytes)) : file :=
  fold_left (fun f r => file_write f (fst r * BLOCK_SIZE) (snd r)) recs f.

(** ** Well-formed journals

    [tx_at f off recs]: from journal offset [off] on, the file holds the
    Data records of [recs] (target block and whole image, targets outside
    the journal region) back to back, then a Commit record. *)

Fixpoint tx_at (f : file) (off : Z) (recs : list (Z * bytes)) : Prop :=
  match recs with
  | [] => holds f (JOURNAL_BLOCK_IDX * BLOCK_SIZE + off) commit_record
  | (block_no, img) :: rest =>
      holds f (JOURNAL_BLOCK_IDX * BLOCK_SIZE + off)
            (data_record block_no img)
      /\ List.length img = Z.to_nat BLOCK_SIZE
      /\ JOURNAL_BLOCK_IDX + JOURNAL_BLOCKS <= block_no < 4294967296
      /\ tx_at f (off + sizeof_data_record) rest
  end.

(** The journal offset just past a transaction that starts at [off]. *)
Definition tx_end (off : Z) (recs : list (Z * bytes)) : Z :=
  off + sizeof_data_record * Z.of_nat (List.length recs)
  + sizeof_commit_record.

(** [log_at f off txs]: the transactions [txs], one after the other. *)
Fixpoint log_at (f : file) (off : Z) (txs : list (list (Z * bytes))) : Prop :=
  match txs with
  | [] => True
  | tx :: rest => tx_at f off tx /\ log_at f (tx_end off tx) rest
  end.

Definition log_end (off : Z) (txs : list (list (Z * bytes))) : Z :=
  fold_left tx_end txs off.

(** The events of replaying the records [recs]. *)
Definition replay_writes (recs : list (Z * bytes)) : list event :=
  map (fun r => Pwrite (fst r * BLOCK_SIZE) (snd r)) recs.

(** The end of the journal region, as a journal offset. *)
Definition journal_size : Z := JOURNAL_BLOCKS * BLOCK_SIZE.

(** How many of [n] committed transactions an install with cap
    [max_commits] applies (a negative cap is no cap). *)
Definition applied (max_commits : Z) (n : nat) : nat :=
  if max_commits <? 0 then n else Nat.min n (Z.to_nat max_commits).

(** The journal of [f] is the header and the transactions [txs], and lies
    inside the journal region. *)
Definition journal_ok (f : file) (txs : list (list (Z * bytes))) : Prop :=
  holds f (JOURNAL_BLOCK_IDX * BLOCK_SIZE + 0)
        (encode_jh {| magic := JOURNAL_MAGIC;
                      nbytes_used := log_end sizeof_journal_header txs |})
  /\ log_at f sizeof_journal_header txs
  /\ log_end sizeof_journal_header txs <= journal_size.

(** The journal [create_journal] may meet: no magic in the header (it
    then starts an empty journal), or a well-formed journal. *)
Definition journal_pre (f : file) (txs : list (list (Z * bytes))) : Prop :=
  (magic (header f) <> JOURNAL_MAGIC /\ txs = []) \/ journal_ok f txs.

(** The transaction [create_journal] builds on the image [d]. *)
Definition create_tx (d : file) (file_name : string) (now : Z)
  : list (Z * bytes) :=
  let ibmap := block d INODE_BMAP_IDX in
  let root_data := block d DATA_START_IDX in
  let inode_idx := free_inode ibmap in
  let slot := free_dirent root_data in
  let iblk_no := INODE_START_IDX + inode_idx / (BLOCK_SIZE / INODE_SIZE) in
  [(INODE_BMAP_IDX, set_bitmap ibmap inode_idx);
   (DATA_BMAP_IDX, block d DATA_BMAP_IDX);
   (DATA_START_IDX, add_dirent root_data slot inode_idx file_name);
   (iblk_no, grow_root (init_inode (block d iblk_no) inode_idx now) slot)].

(** The bytes a create adds to the journal. *)
Definition tx_bytes : Z := 4 * sizeof_data_record + sizeof_commit_record.


(** A write of one whole block at a block boundary. *)
Definition whole_block (e : event) : Prop :=
  exists block_no data,
    e = Pwrite (block_no * BLOCK_SIZE) data
    /\ Z.of_nat (List.length data) = BLOCK_SIZE.

(** The image the records [recs] leave in block [block_no]: that of the
    last record for that block, if there is one. *)
Fixpoint last_image (recs : list (Z * bytes)) (block_no : Z) : option bytes :=
  match recs with
  | [] => None
  | (target, img) :: rest =>
      match last_image rest block_no with
      | Some i => Some i
      | None => if target =? block_no then Some img else None
      end
  end.

(** ** Journals whose records tile the used region *)

(** The type and the size that the header of the record [r] declares. *)
Definition rec_type (r : bytes) : Z := type (decode_rh r).
Definition rec_size (r : bytes) : Z := size (decode_rh r).

(** A whole record, in an image of [n] bytes: it has as many bytes as its
    header declares, the four of the header among them; and a Data record
    has the size of [struct data_record] and names a block of the image
    outside the journal region. *)
Definition whole_record (n : Z) (r : bytes) : Prop :=
  Z.of_nat (List.length r) = rec_size r
  /\ sizeof_rec_header <= rec_size r
  /\ (rec_type r = REC_DATA ->
      rec_size r = sizeof_data_record
      /\ (0 <= dr_block_no r < JOURNAL_BLOCK_IDX
          \/ JOURNAL_BLOCK_IDX + JOURNAL_BLOCKS <= dr_block_no r)
      /\ (dr_block_no r + 1) * BLOCK_SIZE <= n).

(** The journal offset past the records [recs], laid out back to back from
    the end of the header on. *)
Definition past (recs : list bytes) : Z :=
  sizeof_journal_header + Z.of_nat (List.length (List.concat recs)).

(** The records [recs] tile the used region of the journal of [f]: the
    header has the magic, the file holds the records back to back from the
    end of the header on, bytes-used is the offset past the last of them,
    and they lie inside the journal region.  The records are whole, of any
    type, committed or not. *)
Definition tiled (f : file) (recs : list bytes) : Prop :=
  header f = {| magic := JOURNAL_MAGIC; nbytes_used := past recs |}
  /\ holds f (JOURNAL_BLOCK_IDX * BLOCK_SIZE + sizeof_journal_header)
           (List.concat recs)
  /\ Forall (whole_record (len f)) recs
  /\ past recs <= JOURNAL_BLOCKS * BLOCK_SIZE.

(** What the loops of install keep of a tiled journal: the file holds the
    records, and is as long as it was. *)
Definition intact (recs : list bytes) (n : Z) (s : state) : Prop :=
  holds (disk s) (JOURNAL_BLOCK_IDX * BLOCK_SIZE + sizeof_journal_header)
        (List.concat recs)
  /\ len (disk s) = n.

(** The records of a transaction as they lie in the journal: its Data
    records, then the Commit record; and the records of a journal. *)
Definition tx_records (tx : list (Z * bytes)) : list bytes :=
  map (fun r => data_record (fst r) (snd r)) tx ++ [commit_record].

Definition log_records (txs : list (list (Z * bytes))) : list bytes :=
  List.concat (map tx_records txs).

(** * Properties *)

Ltac layout :=
  unfold TOTAL_BLOCKS, DATA_START_IDX, INODE_START_IDX, DATA_BMAP_IDX,
    INODE_BMAP_IDX, JOURNAL_BLOCKS, JOURNAL_BLOCK_IDX, INODE_BLOCKS,
    DATA_BLOCKS, BLOCK_SIZE, INODE_SIZE, sizeof_journal_header,
    sizeof_rec_header, sizeof_data_record, sizeof_commit_record,
    sizeof_dirent, sizeof_inode in *.

(** ** The monad and the I/O primitives *)

#[local] Instance EqbSound_bool : EqbSound Bool.eqb.
Proof. intros x y H. apply Bool.eqb_prop. exact H. Qed.

#[local] Instance EqbSound_Z : EqbSound Z.eqb.
Proof. intros x y H. apply Z.eqb_eq. exact H. Qed.

#[local] Instance EqbSound_unit : EqbSound eqb_unit.
Proof. intros [] [] _. reflexivity. Qed.

#[local] Instance EqbSound_scan : EqbSound eqb_scan.
Proof.
  intros [b1 z1] [b2 z2] H. unfold eqb_scan in H. cbn [fst snd] in H.
  apply andb_true_iff in H as [Hb Hz].
  apply Bool.eqb_prop in Hb. apply Z.eqb_eq in Hz. subst. reflexivity.
Qed.

Lemma ok_with_sound {A} (eqb : A -> A -> bool) `{EqbSound A eqb} a r dflt :
  ok_with eqb a r = true -> r = Ok a (state_of r dflt).
Proof.
  destruct r as [a' s'| | |]; simpl; try discriminate.
  intros E. apply eqb_sound in E. subst. reflexivity.
Qed.

Lemma ok_run {A} (eqb : A -> A -> bool) `{EqbSound A eqb} a (m : M A) s :
  ok_with eqb a (m s) = true -> m s = Ok a (run m s).
Proof. apply ok_with_sound. assumption. Qed.

Lemma bind_Ok {A B} (m : M A) (k : A -> M B) s b s' :
  bind m k s = Ok b s' ->
  exists a s1, m s = Ok a s1 /\ k a s1 = Ok b s'.
Proof.
  unfold bind. destruct (m s) as [a s1| | |]; try discriminate.
  intros H. exists a, s1. auto.
Qed.

Lemma bind_eq_Ok {A B} (m : M A) (k : A -> M B) s a s1 :
  m s = Ok a s1 -> bind m k s = k a s1.
Proof. unfold bind. intros ->. reflexivity. Qed.

Lemma pread_Ok size off s b s' :
  pread size off s = Ok b s' ->
  off + size <= len (disk s) /\ b = file_read (disk s) off size
  /\ s' = {| disk := disk s; log := log s ++ [Pread off size] |}.
Proof.
  unfold pread. destruct (off + size <=? len (disk s)) eqn:E; try discriminate.
  intros H. inversion H. apply Z.leb_le in E. auto.
Qed.

Lemma pread_fits size off s :
  off + size <= len (disk s) ->
  pread size off s
  = Ok (file_read (disk s) off size)
       {| disk := disk s; log := log s ++ [Pread off size] |}.
Proof. intros H. unfold pread. apply Z.leb_le in H. rewrite H. reflexivity. Qed.

Lemma writes_app l1 l2 : writes (l1 ++ l2) = writes l1 ++ writes l2.
Proof. apply filter_app. Qed.

Lemma writes_read l off size : writes (l ++ [Pread off size]) = writes l.
Proof. rewrite writes_app. simpl. apply app_nil_r. Qed.

Lemma read_only_pread size off : read_only (pread size off).
Proof.
  intros s a s' H. apply pread_Ok in H as (_ & _ & ->). simpl.
  split; [reflexivity | apply writes_read].
Qed.

Lemma read_only_ret {A} (a : A) : read_only (ret a).
Proof. intros s b s' H. inversion H. subst. auto. Qed.

Lemma read_only_bind {A B} (m : M A) (k : A -> M B) :
  read_only m -> (forall a, read_only (k a)) -> read_only (bind m k).
Proof.
  intros Hm Hk s b s' H. apply bind_Ok in H as (a & s1 & H1 & H2).
  apply Hm in H1 as [D1 W1]. apply Hk in H2 as [D2 W2].
  split; congruence.
Qed.

(** ** The scanning loop *)

Lemma read_only_scan_tx fuel : forall used tx_off,
  read_only (scan_tx fuel used tx_off).
Proof.
  induction fuel as [|fuel IH]; intros used tx_off; cbn [scan_tx].
  - intros s a s' H. discriminate.
  - destruct (tx_off <? used).
    + apply read_only_bind; [apply read_only_pread|].
      intros rhb. destruct (type (decode_rh rhb) =? REC_COMMIT).
      * apply read_only_ret.
      * apply IH.
    + apply read_only_ret.
Qed.

(** C1. When the scan that starts at a transaction's first record reaches
    bytes-used without meeting a Commit record, the installer's loop
    returns there: it applies nothing (the disk is the one the scan saw,
    and no write was issued) and the count of installed transactions stays
    as it was. *)
Theorem install_skips_incomplete_tx :
  forall fuel max_commits used off committed s tx_off s1,
    scan_tx (S fuel) used off s = Ok (false, tx_off) s1 ->
    exists s',
      install_loop (S fuel) max_commits used off committed s
      = Ok committed s'
      /\ disk s' = disk s
      /\ writes (log s') = writes (log s).
Proof.
  intros fuel max_commits used off committed s tx_off s1 Hscan.
  destruct (read_only_scan_tx _ _ _ _ _ _ Hscan) as [D W].
  cbn [install_loop].
  destruct ((off <? used)
            && ((max_commits <? 0) || (to_int committed <? max_commits))).
  - exists s1. rewrite (bind_eq_Ok _ _ _ _ _ Hscan). cbn. auto.
  - exists s. auto.
Qed.

Lemma install_skips_incomplete_tx_witness :
  exists s',
    install_loop 2 (-1) 4112 8 0 (boot torn) = Ok 0 s'
    /\ disk s' = disk (boot torn)
    /\ writes (log s') = writes (log (boot torn)).
Proof.
  eapply (install_skips_incomplete_tx 1 (-1) 4112 8 0 (boot torn) 4112).
  vm_compute. reflexivity.
Defined.

(** ** Allocators: first fit *)

Lemma free_inode_from_spec bmap n : forall i,
  let r := free_inode_from bmap n i in
  (r = -1 /\ forall j, i <= j < i + Z.of_nat n -> inode_bit bmap j = true)
  \/ (i <= r < i + Z.of_nat n /\ inode_bit bmap r = false
      /\ forall j, i <= j < r -> inode_bit bmap j = true).
Proof.
  induction n as [|n IH]; intros i; cbn [free_inode_from].
  - left. split; [reflexivity | intros j Hj; lia].
  - destruct (Z.land (get bmap (i / 8)) (Z.shiftl 1 (i mod 8)) =? 0) eqn:E.
    + right. split; [lia|]. split.
      * unfold inode_bit. rewrite E. reflexivity.
      * intros j Hj. lia.
    + destruct (IH (i + 1)) as [[R A] | (R & B & A)].
      * left. split; [exact R|]. intros j Hj.
        destruct (Z.eq_dec j i) as [->|Hne].
        -- unfold inode_bit. rewrite E. reflexivity.
        -- apply A. lia.
      * right. split; [lia|]. split; [exact B|]. intros j Hj.
        destruct (Z.eq_dec j i) as [->|Hne].
        -- unfold inode_bit. rewrite E. reflexivity.
        -- apply A. lia.
Qed.

Lemma free_inode_spec bmap :
  (free_inode bmap = -1
   /\ forall j, 0 <= j < max_inodes -> inode_bit bmap j = true)
  \/ (0 <= free_inode bmap < max_inodes
      /\ inode_bit bmap (free_inode bmap) = false
      /\ forall j, 0 <= j < free_inode bmap -> inode_bit bmap j = true).
Proof.
  unfold free_inode.
  pose proof (free_inode_from_spec bmap (Z.to_nat max_inodes) 0) as H.
  cbv zeta in H. rewrite Z2Nat.id in H by (vm_compute; discriminate).
  exact H.
Qed.

Lemma free_dirent_from_spec d n : forall i,
  let r := free_dirent_from d n i in
  (r = -1 /\ forall j, i <= j < i + Z.of_nat n -> name0 d j <> 0)
  \/ (i <= r < i + Z.of_nat n /\ name0 d r = 0
      /\ forall j, i <= j < r -> name0 d j <> 0).
Proof.
  induction n as [|n IH]; intros i; cbn [free_dirent_from].
  - left. split; [reflexivity | intros j Hj; lia].
  - destruct (name0 d i =? 0) eqn:E.
    + right. apply Z.eqb_eq in E. split; [lia|]. split; [exact E|].
      intros j Hj. lia.
    + apply Z.eqb_neq in E.
      destruct (IH (i + 1)) as [[R A] | (R & B & A)].
      * left. split; [exact R|]. intros j Hj.
        destruct (Z.eq_dec j i) as [->|Hne]; [exact E | apply A; lia].
      * right. split; [lia|]. split; [exact B|]. intros j Hj.
        destruct (Z.eq_dec j i) as [->|Hne]; [exact E | apply A; lia].
Qed.

Lemma free_dirent_spec d :
  (free_dirent d = -1
   /\ forall j, 0 <= j < dirent_slots -> name0 d j <> 0)
  \/ (0 <= free_dirent d < dirent_slots
      /\ name0 d (free_dirent d) = 0
      /\ forall j, 0 <= j < free_dirent d -> name0 d j <> 0).
Proof.
  unfold free_dirent.
  pose proof (free_dirent_from_spec d (Z.to_nat dirent_slots) 0) as H.
  cbv zeta in H. rewrite Z2Nat.id in H by (vm_compute; discriminate).
  exact H.
Qed.

(** ** Exhaustion *)

Lemma read_block_fits block_no s :
  (block_no + 1) * BLOCK_SIZE <= len (disk s) ->
  read_block block_no s
  = Ok (block (disk s) block_no)
       {| disk := disk s;
          log := log s ++ [Pread (block_no * BLOCK_SIZE) BLOCK_SIZE] |}.
Proof.
  intros H. unfold read_block, block. apply pread_fits.
  unfold BLOCK_SIZE in *. lia.
Qed.

(** C5. On an image that holds all its blocks, when the inode allocator or
    the dirent allocator reports exhaustion, [create_journal] returns
    without logging the creation: the image is unchanged, byte for byte
    (journal region, header and real blocks alike), and no write was
    issued. *)
Theorem create_exhausted_writes_nothing :
  forall file_name now s,
    TOTAL_BLOCKS * BLOCK_SIZE <= len (disk s) ->
    free_inode (block (disk s) INODE_BMAP_IDX) < 0
    \/ free_dirent (block (disk s) DATA_START_IDX) < 0 ->
    exists s',
      create_journal file_name now s = Ok false s'
      /\ disk s' = disk s
      /\ writes (log s') = writes (log s).
Proof.
  intros file_name now s Hlen Hex. unfold create_journal.
  rewrite (bind_eq_Ok _ _ _ _ _ (read_block_fits INODE_BMAP_IDX s
           ltac:(layout; lia))).
  set (s1 := {| disk := disk s; log := _ |}).
  rewrite (bind_eq_Ok _ _ _ _ _ (read_block_fits DATA_BMAP_IDX s1
           ltac:(layout; simpl; lia))).
  set (s2 := {| disk := disk s1; log := _ |}).
  rewrite (bind_eq_Ok _ _ _ _ _ (read_block_fits DATA_START_IDX s2
           ltac:(layout; simpl; lia))).
  set (s3 := {| disk := disk s2; log := _ |}).
  change (disk s2) with (disk s). change (disk s1) with (disk s).
  assert (E : (free_inode (block (disk s) INODE_BMAP_IDX) <? 0)
              || (free_dirent (block (disk s) DATA_START_IDX) <? 0) = true).
  { apply orb_true_iff. destruct Hex as [H|H]; [left|right];
      apply Z.ltb_lt; exact H. }
  rewrite E. exists s3. split; [reflexivity|]. split; [reflexivity|].
  subst s3 s2 s1. cbn [log]. rewrite !writes_read. reflexivity.
Qed.

Lemma create_exhausted_writes_nothing_witness :
  exists s',
    create_journal "a.txt" 1000 (boot full) = Ok false s'
    /\ disk s' = disk (boot full)
    /\ writes (log s') = writes (log (boot full)).
Proof.
  apply (create_exhausted_writes_nothing "a.txt" 1000 (boot full)).
  - vm_compute. discriminate.
  - left. vm_compute. reflexivity.
Defined.

(** ** What a successful create writes *)

Lemma pwrite_Ok buf off s u s' :
  pwrite buf off s = Ok u s' ->
  s' = {| disk := file_write (disk s) off buf;
          log := log s ++ [Pwrite off buf] |}.
Proof. unfold pwrite. intros H. inversion H. reflexivity. Qed.

Lemma read_block_Ok block_no s b s' :
  read_block block_no s = Ok b s' ->
  (block_no + 1) * BLOCK_SIZE <= len (disk s)
  /\ b = block (disk s) block_no
  /\ s' = {| disk := disk s;
             log := log s ++ [Pread (block_no * BLOCK_SIZE) BLOCK_SIZE] |}.
Proof.
  unfold read_block. intros H. apply pread_Ok in H as (L & -> & ->).
  split; [unfold BLOCK_SIZE in *; lia | auto].
Qed.

Lemma journal_write_Ok offset buf s u s' :
  journal_write offset buf s = Ok u s' ->
  s' = {| disk := file_write (disk s)
                             (JOURNAL_BLOCK_IDX * BLOCK_SIZE + offset) buf;
          log := log s
                 ++ [Pwrite (JOURNAL_BLOCK_IDX * BLOCK_SIZE + offset) buf] |}.
Proof. apply pwrite_Ok. Qed.

Lemma journal_read_Ok offset size s b s' :
  journal_read offset size s = Ok b s' ->
  JOURNAL_BLOCK_IDX * BLOCK_SIZE + offset + size <= len (disk s)
  /\ b = file_read (disk s) (JOURNAL_BLOCK_IDX * BLOCK_SIZE + offset) size
  /\ s' = {| disk := disk s;
             log := log s
                    ++ [Pread (JOURNAL_BLOCK_IDX * BLOCK_SIZE + offset)
                              size] |}.
Proof. apply pread_Ok. Qed.

Lemma ret_Ok {A} (a b : A) s s' : ret a s = Ok b s' -> a = b /\ s = s'.
Proof. intros H. inversion H. auto. Qed.

Lemma header_read f :
  decode_jh (file_read f (JOURNAL_BLOCK_IDX * BLOCK_SIZE + 0)
                       sizeof_journal_header)
  = header f.
Proof. reflexivity. Qed.

Lemma magic_init_jh jh : magic (init_jh jh) = JOURNAL_MAGIC.
Proof.
  unfold init_jh. destruct (magic jh =? JOURNAL_MAGIC) eqn:E; simpl.
  - apply Z.eqb_eq. exact E.
  - reflexivity.
Qed.

Section CreateRun.

Variables (file_name : string) (now : Z) (s : state).

Let d := disk s.
Let ibmap := block d INODE_BMAP_IDX.
Let dbmap := block d DATA_BMAP_IDX.
Let root_data := block d DATA_START_IDX.
Let inode_idx := free_inode ibmap.
Let slot := free_dirent root_data.
Let iblk_no := INODE_START_IDX + inode_idx / (BLOCK_SIZE / INODE_SIZE).
Let ino_blk := block d iblk_no.
Let off0 := nbytes_used (init_jh (header d)).
Let off1 := u32 (off0 + sizeof_data_record).
Let off2 := u32 (off1 + sizeof_data_record).
Let off3 := u32 (off2 + sizeof_data_record).
Let off4 := u32 (off3 + sizeof_data_record).
Let off5 := u32 (off4 + sizeof_commit_record).
Let J := JOURNAL_BLOCK_IDX * BLOCK_SIZE.

(** The four block images of the transaction, after the mutations. *)
Let ibmap' := set_bitmap ibmap inode_idx.
Let root_data' := add_dirent root_data slot inode_idx file_name.
Let ino_blk' := grow_root (init_inode ino_blk inode_idx now) slot.

Let reads : list event :=
  [Pread (INODE_BMAP_IDX * BLOCK_SIZE) BLOCK_SIZE;
   Pread (DATA_BMAP_IDX * BLOCK_SIZE) BLOCK_SIZE;
   Pread (DATA_START_IDX * BLOCK_SIZE) BLOCK_SIZE].

Let tx : list event :=
  [Pwrite (J + off0) (data_record INODE_BMAP_IDX ibmap');
   Pwrite (J + off1) (data_record DATA_BMAP_IDX dbmap);
   Pwrite (J + off2) (data_record DATA_START_IDX root_data');
   Pwrite (J + off3) (data_record iblk_no ino_blk');
   Pwrite (J + off4) commit_record;
   Pwrite (J + 0)
          (encode_jh {| magic := JOURNAL_MAGIC; nbytes_used := off5 |})].

Lemma create_journal_Ok s' :
  create_journal file_name now s = Ok true s' ->
  0 <= inode_idx /\ 0 <= slot
  /\ disk s' = fold_left apply_write tx d
  /\ log s'
     = log s ++ reads
       ++ [Pread (iblk_no * BLOCK_SIZE) BLOCK_SIZE;
           Pread (J + 0) sizeof_journal_header]
       ++ tx.
Proof.
  unfold create_journal. intros H.
  apply bind_Ok in H as (b1 & s1 & R1 & H).
  apply read_block_Ok in R1 as (_ & -> & ->).
  apply bind_Ok in H as (b2 & s2 & R2 & H).
  apply read_block_Ok in R2 as (_ & -> & ->).
  apply bind_Ok in H as (b3 & s3 & R3 & H).
  apply read_block_Ok in R3 as (_ & -> & ->).
  cbn [disk log] in H.
  fold d in H. fold ibmap dbmap root_data in H.
  fold inode_idx slot in H.
  destruct ((inode_idx <? 0) || (slot <? 0)) eqn:E.
  { inversion H. }
  apply orb_false_iff in E as [E1 E2].
  apply Z.ltb_ge in E1, E2.
  apply bind_Ok in H as (b4 & s4 & R4 & H).
  apply read_block_Ok in R4 as (_ & -> & ->).
  apply bind_Ok in H as (b5 & s5 & R5 & H).
  apply journal_read_Ok in R5 as (_ & -> & ->).
  cbn [disk log] in H.
  rewrite header_read, magic_init_jh in H.
  cbn [log_blocks] in H.
  repeat (apply bind_Ok in H as (? & ? & W & H);
          apply journal_write_Ok in W; subst).
  apply ret_Ok in H as [_ <-]. cbn [disk log].
  split; [exact E1|]. split; [exact E2|]. split.
  - reflexivity.
  - rewrite <- !app_assoc. reflexivity.
Qed.

End CreateRun.

(** ** Byte buffers *)

Lemma length_upd b : forall n v, List.length (upd b n v) = List.length b.
Proof.
  induction b as [|x b IH]; intros [|n] v; simpl; auto.
Qed.

Lemma length_set b i v : List.length (set b i v) = List.length b.
Proof. apply length_upd. Qed.

Lemma length_blit src : forall b i,
  List.length (blit b i src) = List.length b.
Proof.
  induction src as [|x src IH]; intros b i; simpl; auto.
  rewrite IH. apply length_set.
Qed.

Lemma length_strncpy n : forall dst i src,
  List.length (strncpy dst i src n) = List.length dst.
Proof.
  induction n as [|n IH]; intros dst i src; simpl; auto.
  destruct src; rewrite IH; apply length_set.
Qed.

Lemma length_file_read f off n :
  List.length (file_read f off n) = Z.to_nat n.
Proof. unfold file_read. rewrite length_map. apply length_seq. Qed.

Lemma length_block f block_no :
  List.length (block f block_no) = Z.to_nat BLOCK_SIZE.
Proof. apply length_file_read. Qed.

Lemma length_set_bitmap b i :
  List.length (set_bitmap b i) = List.length b.
Proof. apply length_set. Qed.

Lemma length_add_dirent b slot idx name :
  List.length (add_dirent b slot idx name) = List.length b.
Proof.
  unfold add_dirent, put32. rewrite length_strncpy. apply length_blit.
Qed.

Lemma length_init_inode b idx now :
  List.length (init_inode b idx now) = List.length b.
Proof.
  unfold init_inode, put32, put16, memset. rewrite !length_blit. reflexivity.
Qed.

Lemma length_grow_root b slot :
  List.length (grow_root b slot) = List.length b.
Proof.
  unfold grow_root, put32.
  destruct (rd32 b (0 * sizeof_inode + inode_size)
            <? u32 ((slot + 1) * sizeof_dirent)).
  - apply length_blit.
  - reflexivity.
Qed.

Lemma nth_upd b : forall n v j,
  nth j (upd b n v) 0
  = if (j =? n)%nat && (n <? List.length b)%nat then v else nth j b 0.
Proof.
  induction b as [|x b IH]; intros [|n] v [|j]; simpl; auto;
    try (rewrite andb_false_r; reflexivity).
Qed.

Lemma get_set b i v j :
  0 <= i -> 0 <= j ->
  get (set b i v) j
  = if (j =? i) && (i <? Z.of_nat (List.length b)) then v else get b j.
Proof.
  intros Hi Hj. unfold get, set. rewrite nth_upd.
  replace (Z.to_nat j =? Z.to_nat i)%nat with (j =? i).
  2:{ destruct (Z.eqb_spec j i) as [->|N].
      - symmetry. apply Nat.eqb_refl.
      - symmetry. apply Nat.eqb_neq. lia. }
  replace (Z.to_nat i <? List.length b)%nat
    with (i <? Z.of_nat (List.length b)).
  2:{ destruct (Z.ltb_spec i (Z.of_nat (List.length b)));
      symmetry; [apply Nat.ltb_lt | apply Nat.ltb_ge]; lia. }
  reflexivity.
Qed.

Lemma get_beyond b j : Z.of_nat (List.length b) <= j -> get b j = 0.
Proof. intros H. unfold get. apply nth_overflow. lia. Qed.

(** What [blit] leaves at index [j]: the source inside the window, the
    old content outside. *)
Lemma get_blit src : forall b i j,
  0 <= i -> i + Z.of_nat (List.length src) <= Z.of_nat (List.length b) ->
  0 <= j ->
  get (blit b i src) j
  = if (i <=? j) && (j <? i + Z.of_nat (List.length src))
    then get src (j - i) else get b j.
Proof.
  induction src as [|x src IH]; intros b i j Hi Hfit Hj.
  - simpl. replace ((i <=? j) && (j <? i + 0)) with false; [reflexivity|].
    symmetry. apply andb_false_iff.
    destruct (Z.leb_spec i j); [right; apply Z.ltb_ge; lia | left; reflexivity].
  - cbn [blit]. cbn [List.length] in Hfit |- *.
    rewrite IH by (rewrite ?length_set; lia).
    rewrite get_set by lia.
    destruct (Z.leb_spec (i + 1) j), (Z.leb_spec i j),
      (Z.ltb_spec j (i + 1 + Z.of_nat (List.length src))),
      (Z.ltb_spec j (i + Z.of_nat (S (List.length src)))),
      (Z.eqb_spec j i), (Z.ltb_spec i (Z.of_nat (List.length b)));
      cbn [andb]; try lia; try reflexivity.
    + unfold get. replace (Z.to_nat (j - i)) with (S (Z.to_nat (j - (i + 1))))
        by lia. reflexivity.
    + subst j. rewrite Z.sub_diag. reflexivity.
Qed.

(** [strncpy] writes exactly [n] bytes: the source, then NULs ([get] past
    the end of [src] is 0); everything else keeps its content. *)
Lemma get_strncpy n : forall dst i src j,
  0 <= i -> i + Z.of_nat n <= Z.of_nat (List.length dst) -> 0 <= j ->
  get (strncpy dst i src n) j
  = if (i <=? j) && (j <? i + Z.of_nat n)
    then get src (j - i) else get dst j.
Proof.
  induction n as [|n IH]; intros dst i src j Hi Hfit Hj.
  - simpl. replace ((i <=? j) && (j <? i + 0)) with false; [reflexivity|].
    symmetry. apply andb_false_iff.
    destruct (Z.leb_spec i j); [right; apply Z.ltb_ge; lia | left; reflexivity].
  - cbn [strncpy].
    assert (G : forall c (rest : bytes),
      (match src with [] => c = 0 /\ rest = [] | x :: r => c = x /\ rest = r
       end) ->
      get (strncpy (set dst i c) (i + 1) rest n) j
      = if (i <=? j) && (j <? i + Z.of_nat (S n))
        then get src (j - i) else get dst j).
    { intros c rest Hc.
      rewrite IH by (rewrite ?length_set; lia).
      rewrite get_set by lia.
      destruct (Z.leb_spec (i + 1) j), (Z.leb_spec i j),
        (Z.ltb_spec j (i + 1 + Z.of_nat n)),
        (Z.ltb_spec j (i + Z.of_nat (S n))),
        (Z.eqb_spec j i), (Z.ltb_spec i (Z.of_nat (List.length dst)));
        cbn [andb]; try lia; try reflexivity.
      - destruct src as [|x r]; destruct Hc as [-> ->].
        + unfold get. destruct (Z.to_nat (j - (i + 1)));
            destruct (Z.to_nat (j - i)); reflexivity.
        + unfold get.
          replace (Z.to_nat (j - i)) with (S (Z.to_nat (j - (i + 1))))
            by lia. reflexivity.
      - subst j. rewrite Z.sub_diag.
        destruct src as [|x r]; destruct Hc as [-> ->]; reflexivity. }
    destruct src as [|x r]; apply G; auto.
Qed.

(** ** The transaction a create appends *)

(** A Data record built from a whole block image is the record header, the
    target and then the image itself, all of it. *)
Lemma data_record_whole block_no img :
  List.length img = Z.to_nat BLOCK_SIZE ->
  data_record block_no img
  = encode_rh {| type := REC_DATA; size := sizeof_data_record |}
    ++ le32 block_no ++ img
  /\ Z.of_nat (List.length (data_record block_no img)) = sizeof_data_record.
Proof.
  intros L. unfold data_record. rewrite firstn_all2 by lia. split.
  - reflexivity.
  - rewrite !length_app, L. reflexivity.
Qed.

(** ** Install after install *)

Lemma header_after_reset f :
  header (file_write f (JOURNAL_BLOCK_IDX * BLOCK_SIZE + 0)
            (encode_jh {| magic := JOURNAL_MAGIC;
                          nbytes_used := sizeof_journal_header |}))
  = {| magic := JOURNAL_MAGIC; nbytes_used := sizeof_journal_header |}.
Proof. vm_compute. reflexivity. Qed.

Lemma len_file_write f off buf :
  len (file_write f off buf)
  = Z.max (len f) (off + Z.of_nat (List.length buf)).
Proof. reflexivity. Qed.

(** An install that meets a header it has nothing to do with returns at
    once, having read the header and nothing else. *)
Lemma install_journal_idle fuel max_commits s :
  JOURNAL_BLOCK_IDX * BLOCK_SIZE + sizeof_journal_header <= len (disk s) ->
  negb (magic (header (disk s)) =? JOURNAL_MAGIC)
  || (nbytes_used (header (disk s)) <=? sizeof_journal_header) = true ->
  install_journal fuel max_commits s
  = Ok 0 {| disk := disk s;
            log := log s ++ [Pread (JOURNAL_BLOCK_IDX * BLOCK_SIZE + 0)
                                   sizeof_journal_header] |}.
Proof.
  intros L G. unfold install_journal.
  rewrite (bind_eq_Ok _ _ _ _ _
             (pread_fits sizeof_journal_header
                (JOURNAL_BLOCK_IDX * BLOCK_SIZE + 0) s ltac:(lia))).
  rewrite header_read, G. reflexivity.
Qed.

(** C6, as the code has it.  Whenever an uncapped install returns, a second
    install right after it returns too, leaves every byte of the image
    (real blocks and journal header) as the first run left it, and
    installs zero transactions.  The header's bytes-used equals the header
    size after each run provided the header had the magic and a bytes-used
    of at least the header size before the first run: a header without the
    magic is left as it is. *)
Theorem install_twice :
  forall fuel s c s1,
    install_journal fuel (-1) s = Ok c s1 ->
    (forall fuel2,
        exists s2,
          install_journal fuel2 (-1) s1 = Ok 0 s2 /\ disk s2 = disk s1)
    /\ (magic (header (disk s)) = JOURNAL_MAGIC ->
        sizeof_journal_header <= nbytes_used (header (disk s)) ->
        nbytes_used (header (disk s1)) = sizeof_journal_header).
Proof.
  intros fuel s c s1 H. unfold install_journal in H.
  apply bind_Ok in H as (b & s0 & R & H).
  apply journal_read_Ok in R as (L & -> & ->). cbn [disk log] in H.
  rewrite header_read in H.
  destruct (negb (magic (header (disk s)) =? JOURNAL_MAGIC)
            || (nbytes_used (header (disk s)) <=? sizeof_journal_header))
    eqn:G.
  - apply ret_Ok in H as [<- <-]. split.
    + intros fuel2. eexists. split.
      * apply install_journal_idle; cbn [disk]; [lia | exact G].
      * reflexivity.
    + intros Hm Hu. cbn [disk].
      rewrite Hm, Z.eqb_refl in G. cbn [negb orb] in G.
      apply Z.leb_le in G. lia.
  - apply orb_false_iff in G as [Gm Gu].
    apply negb_false_iff, Z.eqb_eq in Gm.
    apply bind_Ok in H as (c' & sl & _ & H).
    apply bind_Ok in H as (u & sw & W & H).
    apply journal_write_Ok in W. apply ret_Ok in H as [_ <-]. subst sw.
    rewrite Gm. cbn [disk]. split.
    + intros fuel2. eexists. split.
      * apply install_journal_idle; cbn [disk].
        -- rewrite len_file_write. cbn. lia.
        -- rewrite header_after_reset. reflexivity.
      * reflexivity.
    + intros _ _. rewrite header_after_reset. reflexivity.
Qed.

Lemma install_twice_witness :
  exists s1,
    install_journal 2 (-1) (boot torn) = Ok 0 s1
    /\ (forall fuel2,
           exists s2,
             install_journal fuel2 (-1) s1 = Ok 0 s2 /\ disk s2 = disk s1)
    /\ nbytes_used (header (disk s1)) = sizeof_journal_header.
Proof.
  exists (state_of (install_journal 2 (-1) (boot torn)) (boot torn)).
  assert (H : install_journal 2 (-1) (boot torn)
              = Ok 0 (state_of (install_journal 2 (-1) (boot torn))
                               (boot torn))).
  { apply (ok_with_sound Z.eqb). vm_compute. reflexivity. }
  split; [exact H|].
  destruct (install_twice _ _ _ _ H) as [A B]. split; [exact A|].
  apply B; vm_compute; [reflexivity | discriminate].
Defined.

(** On an image whose journal header lacks the magic (here: all zero),
    install returns without touching the header: bytes-used is not the
    header size after the run. *)
Lemma install_leaves_blank_header :
  exists s1,
    install_journal 0 (-1) (boot blank) = Ok 0 s1
    /\ nbytes_used (header (disk s1)) <> sizeof_journal_header.
Proof.
  eexists. split.
  - apply install_journal_idle; vm_compute; [discriminate | reflexivity].
  - vm_compute. discriminate.
Qed.

(** ** Two runs of install on journals that differ past bytes-used *)

Section Tail.

(** The header's bytes-used. *)
Variable U : Z.

Lemma extends_ret {A} (a : A) : extends (ret a).
Proof.
  intros s b s' H. apply ret_Ok in H as [_ <-]. exists [].
  symmetry. apply app_nil_r.
Qed.

Lemma extends_pread size off : extends (pread size off).
Proof.
  intros s b s' H. apply pread_Ok in H as (_ & _ & ->). eexists.
  reflexivity.
Qed.

Lemma extends_pwrite buf off : extends (pwrite buf off).
Proof.
  intros s b s' H. apply pwrite_Ok in H as ->. eexists. reflexivity.
Qed.

Lemma extends_bind {A B} (m : M A) (k : A -> M B) :
  extends m -> (forall a, extends (k a)) -> extends (bind m k).
Proof.
  intros Hm Hk s b s' H. apply bind_Ok in H as (a & s1 & H1 & H2).
  apply Hm in H1 as [l1 E1]. apply Hk in H2 as [l2 E2].
  exists (l1 ++ l2). rewrite E2, E1. symmetry. apply app_assoc.
Qed.

Lemma extends_undef {A} : extends (@undef A).
Proof. intros s a s' H. discriminate. Qed.

Lemma extends_timeout {A} : extends (@timeout A).
Proof. intros s a s' H. discriminate. Qed.

Lemma extends_scan_tx fuel : forall used tx_off,
  extends (scan_tx fuel used tx_off).
Proof.
  induction fuel as [|fuel IH]; intros used tx_off; cbn [scan_tx].
  - apply extends_timeout.
  - destruct (tx_off <? used); [|apply extends_ret].
    apply extends_bind; [apply extends_pread|]. intros rhb.
    destruct (type (decode_rh rhb) =? REC_COMMIT);
      [apply extends_ret | apply IH].
Qed.

Lemma extends_apply_tx fuel : forall tx_off apply_off,
  extends (apply_tx fuel tx_off apply_off).
Proof.
  induction fuel as [|fuel IH]; intros tx_off apply_off; cbn [apply_tx].
  - apply extends_timeout.
  - destruct (apply_off <? tx_off); [|apply extends_ret].
    apply extends_bind; [apply extends_pread|]. intros rhb.
    apply extends_bind; [|intros _; apply IH].
    destruct (type (decode_rh rhb) =? REC_DATA); [|apply extends_ret].
    destruct (size (decode_rh rhb) =? sizeof_data_record);
      [|apply extends_undef].
    apply extends_bind; [apply extends_pread|]. intros dr.
    apply extends_pwrite.
Qed.

Lemma extends_install_loop fuel : forall max_commits used off committed,
  extends (install_loop fuel max_commits used off committed).
Proof.
  induction fuel as [|fuel IH]; intros max_commits used off committed;
    cbn [install_loop].
  - apply extends_timeout.
  - destruct ((off <? used)
              && ((max_commits <? 0)
                  || (to_int committed <? max_commits)));
      [|apply extends_ret].
    apply extends_bind; [apply extends_scan_tx|]. intros [has tx_off].
    destruct (negb has); [apply extends_ret|].
    apply extends_bind; [apply extends_apply_tx|]. intros _. apply IH.
Qed.

Lemma tail_unread_app l1 l2 :
  tail_unread U (l1 ++ l2) = true ->
  tail_unread U l1 = true /\ tail_unread U l2 = true.
Proof.
  unfold tail_unread. rewrite forallb_app. apply andb_true_iff.
Qed.

Lemma lockstep_ret {A} (a : A) : lockstep U (ret a).
Proof.
  intros s1 s2 b s1' S H _. apply ret_Ok in H as [<- <-].
  exists s2. split; [reflexivity | exact S].
Qed.

Lemma lockstep_bind {A B} (m : M A) (k : A -> M B) :
  lockstep U m -> (forall a, lockstep U (k a)) ->
  (forall a, extends (k a)) ->
  lockstep U (bind m k).
Proof.
  intros Hm Hk Ek s1 s2 b s1' S H T.
  apply bind_Ok in H as (a & s1m & H1 & H2).
  destruct (Ek _ _ _ _ H2) as [l El].
  assert (Tm : tail_unread U (log s1m) = true).
  { rewrite El in T. apply tail_unread_app in T. apply T. }
  destruct (Hm _ _ _ _ S H1 Tm) as (s2m & R1 & Sm).
  destruct (Hk _ _ _ _ _ Sm H2 T) as (s2' & R2 & S').
  exists s2'. split; [|exact S'].
  rewrite (bind_eq_Ok _ _ _ _ _ R1). exact R2.
Qed.

Lemma agree_file_read f1 f2 off size :
  agree U f1 f2 -> read_ok U (Pread off size) = true ->
  off + size <= len f1 ->
  file_read f1 off size = file_read f2 off size.
Proof.
  intros [_ Ag] R L. unfold file_read. apply map_ext_in. intros i Hi.
  apply in_seq in Hi. apply Ag; [|lia]. unfold visible. cbn [read_ok] in R.
  apply orb_true_iff in R as [R|R].
  - left. apply Z.leb_le in R. lia.
  - right. apply Z.leb_le in R. lia.
Qed.

Lemma lockstep_pread size off : lockstep U (pread size off).
Proof.
  intros s1 s2 b s1' [Ag Lg] H T.
  apply pread_Ok in H as (L & -> & ->). cbn [log] in T.
  apply tail_unread_app in T as [_ T]. cbn in T.
  rewrite andb_true_r in T.
  exists {| disk := disk s2; log := log s2 ++ [Pread off size] |}. split.
  - rewrite (agree_file_read _ _ _ _ Ag T L). apply pread_fits.
    destruct Ag as [<- _]. exact L.
  - split; cbn [disk log]; [exact Ag | rewrite Lg; reflexivity].
Qed.

Lemma agree_file_write f1 f2 off buf :
  agree U f1 f2 -> agree U (file_write f1 off buf) (file_write f2 off buf).
Proof.
  intros [L Ag]. split.
  - rewrite !len_file_write, L. reflexivity.
  - intros a V _. cbn [file_write byte_at]. rewrite <- L.
    destruct ((off <=? a) && (a <? off + Z.of_nat (List.length buf)));
      [reflexivity|].
    destruct (Z.ltb_spec a (len f1)); [apply Ag; assumption | reflexivity].
Qed.

Lemma lockstep_pwrite buf off : lockstep U (pwrite buf off).
Proof.
  intros s1 s2 u s1' [Ag Lg] H _. apply pwrite_Ok in H as ->.
  destruct u. eexists. split; [reflexivity|].
  split; cbn [disk log];
    [apply agree_file_write; exact Ag | rewrite Lg; reflexivity].
Qed.

Lemma lockstep_undef {A} : lockstep U (@undef A).
Proof. intros s1 s2 a s1' _ H. discriminate. Qed.

Lemma lockstep_timeout {A} : lockstep U (@timeout A).
Proof. intros s1 s2 a s1' _ H. discriminate. Qed.

Lemma lockstep_scan_tx fuel : forall used tx_off,
  lockstep U (scan_tx fuel used tx_off).
Proof.
  induction fuel as [|fuel IH]; intros used tx_off; cbn [scan_tx].
  - apply lockstep_timeout.
  - destruct (tx_off <? used); [|apply lockstep_ret].
    apply lockstep_bind; [apply lockstep_pread | |].
    + intros rhb. destruct (type (decode_rh rhb) =? REC_COMMIT);
        [apply lockstep_ret | apply IH].
    + intros rhb. destruct (type (decode_rh rhb) =? REC_COMMIT);
        [apply extends_ret | apply extends_scan_tx].
Qed.

Lemma lockstep_apply_tx fuel : forall tx_off apply_off,
  lockstep U (apply_tx fuel tx_off apply_off).
Proof.
  induction fuel as [|fuel IH]; intros tx_off apply_off; cbn [apply_tx].
  - apply lockstep_timeout.
  - destruct (apply_off <? tx_off); [|apply lockstep_ret].
    apply lockstep_bind; [apply lockstep_pread | |].
    + intros rhb. apply lockstep_bind.
      * destruct (type (decode_rh rhb) =? REC_DATA);
          [|apply lockstep_ret].
        destruct (size (decode_rh rhb) =? sizeof_data_record);
          [|apply lockstep_undef].
        apply lockstep_bind; [apply lockstep_pread | |]; intros dr.
        -- apply lockstep_pwrite.
        -- apply extends_pwrite.
      * intros _. apply IH.
      * intros _. apply extends_apply_tx.
    + intros rhb.
      apply extends_bind; [|intros _; apply extends_apply_tx].
      destruct (type (decode_rh rhb) =? REC_DATA); [|apply extends_ret].
      destruct (size (decode_rh rhb) =? sizeof_data_record);
        [|apply extends_undef].
      apply extends_bind; [apply extends_pread|]. intros dr.
      apply extends_pwrite.
Qed.

Lemma lockstep_install_loop fuel : forall max_commits used off committed,
  lockstep U (install_loop fuel max_commits used off committed).
Proof.
  induction fuel as [|fuel IH]; intros max_commits used off committed;
    cbn [install_loop].
  - apply lockstep_timeout.
  - destruct ((off <? used)
              && ((max_commits <? 0)
                  || (to_int committed <? max_commits)));
      [|apply lockstep_ret].
    apply lockstep_bind; [apply lockstep_scan_tx | |];
      intros [has tx_off]; (destruct (negb has);
        [first [apply lockstep_ret | apply extends_ret]|]).
    + apply lockstep_bind;
        [apply lockstep_apply_tx | intros _; apply IH
         | intros _; apply extends_install_loop].
    + apply extends_bind;
        [apply extends_apply_tx | intros _; apply extends_install_loop].
Qed.

Lemma lockstep_install_journal fuel max_commits :
  lockstep U (install_journal fuel max_commits).
Proof.
  unfold install_journal.
  apply lockstep_bind; [apply lockstep_pread | |]; intros jhb;
    (destruct (negb (magic (decode_jh jhb) =? JOURNAL_MAGIC)
               || (nbytes_used (decode_jh jhb) <=? sizeof_journal_header));
     [first [apply lockstep_ret | apply extends_ret]|]).
  - apply lockstep_bind; [apply lockstep_install_loop | |]; intros c.
    + apply lockstep_bind;
        [apply lockstep_pwrite | intros _; apply lockstep_ret
         | intros _; apply extends_ret].
    + apply extends_bind; [apply extends_pwrite | intros _; apply extends_ret].
  - apply extends_bind; [apply extends_install_loop|]. intros c.
    apply extends_bind; [apply extends_pwrite | intros _; apply extends_ret].
Qed.

Lemma agree_block f1 f2 block_no :
  agree U f1 f2 ->
  block_no < JOURNAL_BLOCK_IDX
  \/ JOURNAL_BLOCK_IDX + JOURNAL_BLOCKS <= block_no ->
  (block_no + 1) * BLOCK_SIZE <= len f1 ->
  block f1 block_no = block f2 block_no.
Proof.
  intros [_ Ag] B L. unfold block, file_read. apply map_ext_in.
  intros i Hi. apply in_seq in Hi.
  apply Ag; unfold visible; layout; lia.
Qed.

Lemma agree_header f1 f2 :
  agree U f1 f2 ->
  JOURNAL_BLOCK_IDX * BLOCK_SIZE + sizeof_journal_header <= len f1 ->
  header f1 = header f2.
Proof.
  intros [_ Ag] L. unfold header. f_equal. unfold file_read.
  apply map_ext_in. intros i Hi. apply in_seq in Hi.
  apply Ag; unfold visible; layout; lia.
Qed.

(** Overwriting bytes of the tail keeps a file in agreement with
    itself. *)
Lemma agree_tail_write f off buf :
  JOURNAL_BLOCK_IDX * BLOCK_SIZE + Z.max U sizeof_journal_header <= off ->
  off + Z.of_nat (List.length buf)
  <= JOURNAL_BLOCK_IDX * BLOCK_SIZE + JOURNAL_BLOCKS * BLOCK_SIZE ->
  off + Z.of_nat (List.length buf) <= len f ->
  agree U f (file_write f off buf).
Proof.
  intros Lo Hi Hl. split.
  - rewrite len_file_write. lia.
  - intros a V La. cbn [file_write byte_at].
    destruct (Z.leb_spec off a),
      (Z.ltb_spec a (off + Z.of_nat (List.length buf))); cbn [andb];
      try (unfold visible in V; lia);
      (destruct (Z.ltb_spec a (len f)); [reflexivity | lia]).
Qed.

End Tail.

Lemma install_journal_len fuel max_commits s c s' :
  install_journal fuel max_commits s = Ok c s' ->
  JOURNAL_BLOCK_IDX * BLOCK_SIZE + sizeof_journal_header <= len (disk s').
Proof.
  unfold install_journal. intros H.
  apply bind_Ok in H as (b & s0 & R & H).
  apply journal_read_Ok in R as (L & -> & ->).
  destruct (negb (magic (decode_jh _) =? JOURNAL_MAGIC)
            || (nbytes_used (decode_jh _) <=? sizeof_journal_header)).
  - apply ret_Ok in H as [_ <-]. cbn [disk]. lia.
  - apply bind_Ok in H as (c' & sl & _ & H).
    apply bind_Ok in H as (u & sw & W & H).
    apply journal_write_Ok in W. apply ret_Ok in H as [_ <-]. subst sw.
    cbn [disk]. rewrite len_file_write. cbn [encode_jh le32 List.length app].
    layout. lia.
Qed.

(** Take two images that agree everywhere but in the journal's tail (the
    bytes of the journal region from the header's bytes-used on).  If
    install returns on the first and its reads took no byte of the tail,
    then install on the second returns the same count after the same reads
    and writes, and leaves the same journal header and the same content in
    every block outside the journal region. *)
Lemma install_agrees_unless_tail_read :
  forall fuel max_commits f1 f2 c s1',
    agree (nbytes_used (header f1)) f1 f2 ->
    install_journal fuel max_commits (boot f1) = Ok c s1' ->
    tail_unread (nbytes_used (header f1)) (log s1') = true ->
    exists s2',
      install_journal fuel max_commits (boot f2) = Ok c s2'
      /\ log s2' = log s1'
      /\ header (disk s2') = header (disk s1')
      /\ forall block_no,
          block_no < JOURNAL_BLOCK_IDX
          \/ JOURNAL_BLOCK_IDX + JOURNAL_BLOCKS <= block_no ->
          (block_no + 1) * BLOCK_SIZE <= len (disk s1') ->
          block (disk s2') block_no = block (disk s1') block_no.
Proof.
  intros fuel max_commits f1 f2 c s1' Ag H T.
  destruct (lockstep_install_journal _ fuel max_commits (boot f1) (boot f2)
              c s1' (conj Ag eq_refl) H T) as (s2' & R & Ag' & Lg).
  exists s2'. split; [exact R|]. split; [symmetry; exact Lg|]. split.
  - symmetry. apply (agree_header _ _ _ Ag').
    apply (install_journal_len _ _ _ _ _ H).
  - intros block_no B L. symmetry. apply (agree_block _ _ _ _ Ag' B L).
Qed.

(** The two images [cut_a] and [cut_b] agree on the header and on every
    journal byte below bytes-used, and differ in one byte past it; install
    applies the Data record on the first and not on the second, so block 21
    ends up different. *)
Lemma install_reads_past_bytes_used :
  agree (nbytes_used (header cut_a)) cut_a cut_b
  /\ exists sa sb,
      install_journal 3 (-1) (boot cut_a) = Ok 1 sa
      /\ install_journal 3 (-1) (boot cut_b) = Ok 0 sb
      /\ byte_at (disk sa) (DATA_START_IDX * BLOCK_SIZE) = 170
      /\ byte_at (disk sb) (DATA_START_IDX * BLOCK_SIZE) = 0.
Proof.
  split.
  - apply agree_tail_write; vm_compute; discriminate.
  - exists (state_of (install_journal 3 (-1) (boot cut_a)) (boot cut_a)),
      (state_of (install_journal 3 (-1) (boot cut_b)) (boot cut_b)).
    split; [apply (ok_with_sound Z.eqb); vm_compute; reflexivity|].
    split; [apply (ok_with_sound Z.eqb); vm_compute; reflexivity|].
    split; vm_compute; reflexivity.
Qed.

(** ** The name in the new directory entry *)

Lemma get_put32_outside b i v j :
  0 <= i -> i + 4 <= Z.of_nat (List.length b) -> 0 <= j ->
  j < i \/ i + 4 <= j ->
  get (put32 b i v) j = get b j.
Proof.
  intros Hi Hf Hj Ho. unfold put32. rewrite get_blit by (cbn; lia).
  cbn [le32 List.length].
  destruct (Z.leb_spec i j), (Z.ltb_spec j (i + Z.of_nat 4)); cbn [andb];
    try reflexivity; lia.
Qed.

(** C10, as the code has it.  The name a successful create stores in the
    new directory entry (in the root directory image it logs) is the input
    cut to 27 bytes, one less than the 28-byte field, and NUL-padded up to
    byte 26; byte 27 of the field is not written and keeps what the slot
    held before. *)
Theorem create_stores_name :
  forall file_name now s s',
    create_journal file_name now s = Ok true s' ->
    let root_data := block (disk s) DATA_START_IDX in
    let slot := free_dirent root_data in
    let inode_idx := free_inode (block (disk s) INODE_BMAP_IDX) in
    let root_data' := add_dirent root_data slot inode_idx file_name in
    let name := slot * sizeof_dirent + dirent_name in
    let n := Z.of_nat (List.length (c_str file_name)) in
    (exists off,
        In (Pwrite off (data_record DATA_START_IDX root_data')) (log s'))
    /\ (forall k, 0 <= k < 27 -> k < n ->
                  get root_data' (name + k) = get (c_str file_name) k)
    /\ (forall k, 0 <= k < 27 -> n <= k -> get root_data' (name + k) = 0)
    /\ get root_data' (name + 27) = get root_data (name + 27).
Proof.
  intros file_name now s s' H. cbv zeta.
  apply create_journal_Ok in H as (_ & Hslot & _ & L).
  set (root_data := block (disk s) DATA_START_IDX) in *.
  set (slot := free_dirent root_data) in *.
  assert (Hs : 0 <= slot < dirent_slots).
  { destruct (free_dirent_spec root_data) as [[E _]|[R _]];
      fold slot in E || fold slot in R; [lia | exact R]. }
  assert (Len : Z.of_nat (List.length root_data) = 4096).
  { unfold root_data. rewrite length_block. reflexivity. }
  change dirent_slots with 128 in Hs.
  assert (G : forall j, 0 <= j ->
    get (add_dirent root_data slot
           (free_inode (block (disk s) INODE_BMAP_IDX)) file_name) j
    = if (slot * sizeof_dirent + dirent_name <=? j)
         && (j <? slot * sizeof_dirent + dirent_name + 27)
      then get (c_str file_name) (j - (slot * sizeof_dirent + dirent_name))
      else get (put32 root_data (slot * sizeof_dirent + dirent_inode)
                      (free_inode (block (disk s) INODE_BMAP_IDX))) j).
  { intros j Hj. unfold add_dirent.
    rewrite get_strncpy;
      [reflexivity | | | exact Hj];
      unfold put32; rewrite ?length_blit; layout; unfold dirent_name; lia. }
  split.
  { eexists. rewrite L. apply in_or_app. right. apply in_or_app. right.
    apply in_or_app. right. cbn [In]. right. right. left. reflexivity. }
  clear L. layout. unfold dirent_name, dirent_inode in *.
  split; [|split].
  - intros k Hk Hn. rewrite G by lia.
    replace ((slot * 32 + 4 <=? slot * 32 + 4 + k)
             && (slot * 32 + 4 + k <? slot * 32 + 4 + 27)) with true.
    + f_equal. lia.
    + symmetry. apply andb_true_iff. split;
        [apply Z.leb_le | apply Z.ltb_lt]; lia.
  - intros k Hk Hn. rewrite G by lia.
    replace ((slot * 32 + 4 <=? slot * 32 + 4 + k)
             && (slot * 32 + 4 + k <? slot * 32 + 4 + 27)) with true.
    + apply get_beyond. lia.
    + symmetry. apply andb_true_iff. split;
        [apply Z.leb_le | apply Z.ltb_lt]; lia.
  - rewrite G by lia.
    replace ((slot * 32 + 4 <=? slot * 32 + 4 + 27)
             && (slot * 32 + 4 + 27 <? slot * 32 + 4 + 27)) with false.
    + apply get_put32_outside; lia.
    + symmetry. apply andb_false_iff. right. apply Z.ltb_ge. lia.
Qed.

Lemma create_stores_name_witness :
  exists s',
    create_journal name28 1000 (boot blank) = Ok true s'
    /\ get (add_dirent (block blank DATA_START_IDX) 0 0 name28) (4 + 26)
       = get (c_str name28) 26
    /\ get (add_dirent (block blank DATA_START_IDX) 0 0 name28) (4 + 27)
       = get (block blank DATA_START_IDX) (4 + 27).
Proof.
  exists (state_of (create_journal name28 1000 (boot blank)) (boot blank)).
  assert (H : create_journal name28 1000 (boot blank)
              = Ok true (state_of (create_journal name28 1000 (boot blank))
                                  (boot blank))).
  { apply (ok_with_sound Bool.eqb). vm_compute. reflexivity. }
  split; [exact H|].
  destruct (create_stores_name _ _ _ _ H) as (_ & A & _ & B).
  split; [apply (A 26); vm_compute; split; congruence | exact B].
Defined.

(** With a name as long as the field, the field of the new entry is not
    the name: its last byte is the NUL the free slot held, not the 28th
    character. *)
Lemma create_drops_28th_char :
  exists s1 s2,
    create_journal name28 1000 (boot blank) = Ok true s1
    /\ install_journal 10 (-1) s1 = Ok 1 s2
    /\ name_field (block (disk s2) DATA_START_IDX) 0
       <> truncated_padded name28.
Proof.
  exists (run (create_journal name28 1000) (boot blank)).
  exists (run (install_journal 10 (-1))
              (run (create_journal name28 1000) (boot blank))).
  split; [apply (ok_run Bool.eqb); vm_compute; reflexivity|].
  split; [apply (ok_run Z.eqb); vm_compute; reflexivity|].
  vm_compute. discriminate.
Qed.

(** ** Where the code departs from its purpose *)

(** C2 at four creates in a row: the fourth create's transaction starts at
    journal offset 49268 and ends at 65688, past the 65536 bytes of the
    journal region; its last 152 bytes land in block 17, the inode bitmap,
    whose byte 148 becomes the type byte of the Commit record. *)
Theorem fourth_create_overwrites_inode_bitmap :
  create_journal "a" 1001 (boot blank)
  = Ok true (run (create_journal "a" 1001) (boot blank))
  /\ create_journal "d" 1004
       (run (create_journal "c" 1003)
            (run (create_journal "b" 1002)
                 (run (create_journal "a" 1001) (boot blank))))
     = Ok true four_creates
  /\ nbytes_used (header (disk four_creates)) = 65688
  /\ get (block blank INODE_BMAP_IDX) 148 = 0
  /\ get (block (disk four_creates) INODE_BMAP_IDX) 148 = REC_COMMIT.
Proof.
  split; [apply (ok_run Bool.eqb); vm_compute; reflexivity|].
  split; [apply (ok_run Bool.eqb); vm_compute; reflexivity|].
  split; [vm_compute; reflexivity|].
  split; vm_compute; reflexivity.
Qed.

(** C3 at the 32nd file: with inodes 0 to 31 taken the new inode is 32, in
    the second inode table block, and [root_ino] is entry 0 of that block,
    inode 32.  After create and install, slot 31 is in use, the root inode's
    size is still 992 and the size 1024 sits in inode 32. *)
Theorem root_size_not_grown_in_second_block :
  exists s1 s2,
    create_journal "x" 1000 (boot crowded) = Ok true s1
    /\ install_journal 10 (-1) s1 = Ok 1 s2
    /\ free_inode (block crowded INODE_BMAP_IDX) = 32
    /\ free_dirent (block crowded DATA_START_IDX) = 31
    /\ rd32 (block crowded INODE_START_IDX) inode_size = 992
    /\ name0 (block (disk s2) DATA_START_IDX) 31 = 120
    /\ rd32 (block (disk s2) INODE_START_IDX) inode_size = 992
    /\ rd32 (block (disk s2) (INODE_START_IDX + 1)) inode_size = 1024.
Proof.
  exists (run (create_journal "x" 1000) (boot crowded)).
  exists (run (install_journal 10 (-1))
              (run (create_journal "x" 1000) (boot crowded))).
  split; [apply (ok_run Bool.eqb); vm_compute; reflexivity|].
  split; [apply (ok_run Z.eqb); vm_compute; reflexivity|].
  repeat split; vm_compute; reflexivity.
Qed.

(** A record of size 0 that is not a Commit record holds the scan where
    it is. *)
Lemma scan_tx_stuck f used off rh :
  off < used -> 0 <= off < 4294967296 ->
  JOURNAL_BLOCK_IDX * BLOCK_SIZE + off + sizeof_rec_header <= len f ->
  decode_rh (file_read f (JOURNAL_BLOCK_IDX * BLOCK_SIZE + off)
                       sizeof_rec_header) = rh ->
  type rh <> REC_COMMIT -> size rh = 0 ->
  forall fuel s, disk s = f -> scan_tx fuel used off s = OutOfFuel.
Proof.
  intros Hu Hoff Hlen Hrh Hty Hsz fuel.
  induction fuel as [|fuel IH]; intros s Hd; cbn [scan_tx].
  - reflexivity.
  - apply Z.ltb_lt in Hu. rewrite Hu.
    unfold journal_read.
    rewrite (bind_eq_Ok _ _ _ _ _
               (pread_fits sizeof_rec_header
                  (JOURNAL_BLOCK_IDX * BLOCK_SIZE + off) s
                  ltac:(rewrite Hd; lia))).
    rewrite Hd, Hrh, Hsz.
    apply Z.eqb_neq in Hty. rewrite Hty.
    replace (u32 (off + 0)) with off.
    + apply IH. reflexivity.
    + unfold u32. rewrite Z.add_0_r, Z.mod_small; [reflexivity | exact Hoff].
Qed.

(** C8 at a zero record: with a record of type 0 and size 0 in the used
    region, install does not return, whatever the budget of the loops. *)
Theorem install_hangs_on_zero_size_record :
  forall fuel, install_journal fuel (-1) (boot zero_rec) = OutOfFuel.
Proof.
  intros fuel. unfold install_journal.
  rewrite (bind_eq_Ok _ _ _ _ _
             (pread_fits sizeof_journal_header
                (JOURNAL_BLOCK_IDX * BLOCK_SIZE + 0) (boot zero_rec)
                ltac:(vm_compute; discriminate))).
  cbn [disk boot].
  change (decode_jh _)
    with (header zero_rec).
  replace (header zero_rec)
    with {| magic := JOURNAL_MAGIC; nbytes_used := 12 |}
    by (vm_compute; reflexivity).
  cbn [magic nbytes_used]. rewrite Z.eqb_refl.
  change (negb true || (12 <=? sizeof_journal_header)) with false.
  cbv iota.
  destruct fuel as [|fuel]; [reflexivity|].
  cbn [install_loop].
  change ((sizeof_journal_header <? 12)
          && ((-1 <? 0) || (to_int 0 <? -1))) with true.
  cbv iota. unfold bind at 1. unfold bind at 1.
  rewrite (scan_tx_stuck zero_rec 12 sizeof_journal_header
             {| type := 0; size := 0 |}); try reflexivity.
  - layout. lia.
  - vm_compute. discriminate.
  - cbn [type]. unfold REC_COMMIT. lia.
Qed.

(** C9 at the empty name: create allocates inode 0 and slot 0, and after
    install the inode's bit is set while the slot's first name byte is
    still 0, so that the dirent allocator returns slot 0 again. *)
Theorem empty_name_leaves_slot_free :
  exists s1 s2,
    create_journal EmptyString 1000 (boot blank) = Ok true s1
    /\ install_journal 10 (-1) s1 = Ok 1 s2
    /\ free_inode (block blank INODE_BMAP_IDX) = 0
    /\ free_dirent (block blank DATA_START_IDX) = 0
    /\ inode_bit (block (disk s2) INODE_BMAP_IDX) 0 = true
    /\ name0 (block (disk s2) DATA_START_IDX) 0 = 0
    /\ free_dirent (block (disk s2) DATA_START_IDX) = 0.
Proof.
  exists (run (create_journal EmptyString 1000) (boot blank)).
  exists (run (install_journal 10 (-1))
              (run (create_journal EmptyString 1000) (boot blank))).
  split; [apply (ok_run Bool.eqb); vm_compute; reflexivity|].
  split; [apply (ok_run Z.eqb); vm_compute; reflexivity|].
  repeat split; vm_compute; reflexivity.
Qed.

(** ** More fuel changes nothing once a loop has finished *)

Lemma bind_more {A B} (m1 m2 : M A) (k1 k2 : A -> M B) s r :
  bind m1 k1 s = r -> r <> OutOfFuel ->
  (forall r1, m1 s = r1 -> r1 <> OutOfFuel -> m2 s = r1) ->
  (forall a s' r', k1 a s' = r' -> r' <> OutOfFuel -> k2 a s' = r') ->
  bind m2 k2 s = r.
Proof.
  unfold bind. intros H N Hm Hk.
  destruct (m1 s) as [a s'| | |] eqn:E.
  - rewrite (Hm _ eq_refl) by discriminate. apply Hk; assumption.
  - rewrite (Hm _ eq_refl) by discriminate. exact H.
  - rewrite (Hm _ eq_refl) by discriminate. exact H.
  - symmetry in H. contradiction.
Qed.

Lemma scan_tx_S fuel used tx_off :
  scan_tx (S fuel) used tx_off
  = if tx_off <? used
    then rhb <- journal_read tx_off sizeof_rec_header ;;
         if type (decode_rh rhb) =? REC_COMMIT
         then ret (true, u32 (tx_off + size (decode_rh rhb)))
         else scan_tx fuel used (u32 (tx_off + size (decode_rh rhb)))
    else ret (false, tx_off).
Proof. reflexivity. Qed.

Lemma apply_tx_S fuel tx_off apply_off :
  apply_tx (S fuel) tx_off apply_off
  = if apply_off <? tx_off
    then rhb <- journal_read apply_off sizeof_rec_header ;;
         (if type (decode_rh rhb) =? REC_DATA
          then if size (decode_rh rhb) =? sizeof_data_record
               then dr <- journal_read apply_off (size (decode_rh rhb)) ;;
                    write_block (dr_block_no dr) (dr_data dr)
               else undef
          else ret tt) ;;;
         apply_tx fuel tx_off (u32 (apply_off + size (decode_rh rhb)))
    else ret tt.
Proof. reflexivity. Qed.

Lemma install_loop_S fuel max_commits used off committed s :
  install_loop (S fuel) max_commits used off committed s
  = (if (off <? used)
        && ((max_commits <? 0) || (to_int committed <? max_commits))
     then r <- scan_tx (S fuel) used off ;;
          if negb (fst r) then ret committed
          else apply_tx (S fuel) (snd r) off ;;;
               install_loop fuel max_commits used (snd r)
                            (u32 (committed + 1))
     else ret committed) s.
Proof.
  cbn [install_loop].
  destruct ((off <? used)
            && ((max_commits <? 0) || (to_int committed <? max_commits)));
    [|reflexivity].
  unfold bind at 1 3.
  destruct (scan_tx (S fuel) used off s) as [[has tx_off] s'| | |];
    reflexivity.
Qed.

Lemma scan_tx_more fuel : forall used tx_off s r,
  scan_tx fuel used tx_off s = r -> r <> OutOfFuel ->
  scan_tx (S fuel) used tx_off s = r.
Proof.
  induction fuel as [|fuel IH]; intros used tx_off s r H N.
  - unfold scan_tx, timeout in H. symmetry in H. contradiction.
  - rewrite scan_tx_S in H |- *.
    destruct (tx_off <? used); [|exact H].
    eapply bind_more; [exact H | exact N | auto |].
    intros rhb s' r' H' N'. cbv beta in H' |- *.
    destruct (type (decode_rh rhb) =? REC_COMMIT); [exact H'|].
    apply IH; assumption.
Qed.

Lemma apply_tx_more fuel : forall tx_off apply_off s r,
  apply_tx fuel tx_off apply_off s = r -> r <> OutOfFuel ->
  apply_tx (S fuel) tx_off apply_off s = r.
Proof.
  induction fuel as [|fuel IH]; intros tx_off apply_off s r H N.
  - unfold apply_tx, timeout in H. symmetry in H. contradiction.
  - rewrite apply_tx_S in H |- *.
    destruct (apply_off <? tx_off); [|exact H].
    eapply bind_more; [exact H | exact N | auto |].
    intros rhb s' r' H' N'. cbv beta in H' |- *.
    eapply bind_more; [exact H' | exact N' | auto |].
    intros u s'' r'' H'' N''. cbv beta in H'' |- *. apply IH; assumption.
Qed.

Lemma install_loop_more fuel : forall max_commits used off committed s r,
  install_loop fuel max_commits used off committed s = r ->
  r <> OutOfFuel ->
  install_loop (S fuel) max_commits used off committed s = r.
Proof.
  induction fuel as [|fuel IH]; intros max_commits used off committed s r H N.
  - unfold install_loop, timeout in H. symmetry in H. contradiction.
  - rewrite install_loop_S in H |- *.
    destruct ((off <? used)
              && ((max_commits <? 0) || (to_int committed <? max_commits)));
      [|exact H].
    eapply bind_more; [exact H | exact N | |].
    + intros r1 H1 N1. apply scan_tx_more; assumption.
    + intros p s' r' H' N'. cbv beta in H' |- *.
      destruct (negb (fst p)); [exact H'|].
      eapply bind_more; [exact H' | exact N' | |].
      * intros r1 H1 N1. apply apply_tx_more; assumption.
      * intros u s'' r'' H'' N''. cbv beta in H'' |- *.
        apply IH; assumption.
Qed.

Lemma install_journal_more fuel max_commits s r :
  install_journal fuel max_commits s = r -> r <> OutOfFuel ->
  install_journal (S fuel) max_commits s = r.
Proof.
  unfold install_journal. intros H N.
  eapply bind_more; [exact H | exact N | auto |].
  intros jhb s' r' H' N'. cbv beta in H' |- *.
  destruct (negb (magic (decode_jh jhb) =? JOURNAL_MAGIC)
            || (nbytes_used (decode_jh jhb) <=? sizeof_journal_header));
    [exact H'|].
  eapply bind_more; [exact H' | exact N' | | auto].
  intros r1 H1 N1. apply install_loop_more; assumption.
Qed.

(** A result reached with some fuel is reached with any larger fuel. *)
Lemma more_fuel {A} (F : nat -> M A) :
  (forall n s r, F n s = r -> r <> OutOfFuel -> F (S n) s = r) ->
  forall n m s r, (n <= m)%nat -> F n s = r -> r <> OutOfFuel -> F m s = r.
Proof.
  intros step n m s r Le H N. induction Le as [|m Le IH].
  - exact H.
  - apply step; assumption.
Qed.

(** ** Install after four creates in a row *)

(** One turn of the outer loop on a complete transaction. *)
Lemma install_loop_tx n fuel max_commits used off committed s tx_off s1 s2 :
  (off <? used)
  && ((max_commits <? 0) || (to_int committed <? max_commits)) = true ->
  scan_tx n used off s = Ok (true, tx_off) s1 ->
  apply_tx n tx_off off s1 = Ok tt s2 ->
  (n <= S fuel)%nat ->
  install_loop (S fuel) max_commits used off committed s
  = install_loop fuel max_commits used tx_off (u32 (committed + 1)) s2.
Proof.
  intros G Hs Ha Le. rewrite install_loop_S, G.
  rewrite (bind_eq_Ok _ _ _ _ _
             (more_fuel (fun k => scan_tx k used off)
                (fun k => scan_tx_more k used off) _ _ _ _ Le Hs
                ltac:(discriminate))).
  cbn [fst snd negb].
  rewrite (bind_eq_Ok _ _ _ _ _
             (more_fuel (fun k => apply_tx k tx_off off)
                (fun k => apply_tx_more k tx_off off) _ _ _ _ Le Ha
                ltac:(discriminate))).
  reflexivity.
Qed.

(** A record that is not a Commit record passes the scan on to the next
    one. *)
Lemma scan_tx_past f used off rh :
  off < used ->
  JOURNAL_BLOCK_IDX * BLOCK_SIZE + off + sizeof_rec_header <= len f ->
  decode_rh (file_read f (JOURNAL_BLOCK_IDX * BLOCK_SIZE + off)
                       sizeof_rec_header) = rh ->
  type rh <> REC_COMMIT ->
  (forall fuel s, disk s = f ->
                  scan_tx fuel used (u32 (off + size rh)) s = OutOfFuel) ->
  forall fuel s, disk s = f -> scan_tx fuel used off s = OutOfFuel.
Proof.
  intros Hu Hlen Hrh Hty Next fuel s Hd.
  destruct fuel as [|fuel]; [reflexivity|].
  rewrite scan_tx_S. apply Z.ltb_lt in Hu. rewrite Hu.
  unfold journal_read.
  rewrite (bind_eq_Ok _ _ _ _ _
             (pread_fits sizeof_rec_header
                (JOURNAL_BLOCK_IDX * BLOCK_SIZE + off) s
                ltac:(rewrite Hd; lia))).
  rewrite Hd, Hrh. apply Z.eqb_neq in Hty. rewrite Hty.
  apply Next. reflexivity.
Qed.

Lemma rec_is_true f off ty sz :
  rec_is f off ty sz = true ->
  decode_rh (file_read f (JOURNAL_BLOCK_IDX * BLOCK_SIZE + off)
                       sizeof_rec_header)
  = {| type := ty; size := sz |}.
Proof.
  unfold rec_is. cbv zeta. intros H. apply andb_true_iff in H as [Ht Hs].
  apply Z.eqb_eq in Ht, Hs.
  destruct (decode_rh _) as [t z]. cbn [type size] in *. subst. reflexivity.
Qed.

Lemma fc_facts_hold : forallb (fun b => b) fc_facts = true.
Proof. vm_compute. reflexivity. Qed.

(** An install that is out of fuel from some budget on is out of fuel with
    every budget. *)
Lemma never_returns_from n max_commits s :
  (forall f, install_journal (n + f) max_commits s = OutOfFuel) ->
  forall fuel, install_journal fuel max_commits s = OutOfFuel.
Proof.
  intros K fuel. destruct (Nat.le_gt_cases n fuel) as [Le|Lt].
  - replace fuel with (n + (fuel - n))%nat by lia. apply K.
  - destruct (install_journal fuel max_commits s) as [c s'| | |] eqn:E;
      try reflexivity; exfalso.
    + pose proof (more_fuel (fun k => install_journal k max_commits)
                    (fun k => install_journal_more k max_commits)
                    fuel (n + 0) s _ ltac:(lia) E ltac:(discriminate)) as C.
      cbv beta in C. rewrite K in C. discriminate.
    + pose proof (more_fuel (fun k => install_journal k max_commits)
                    (fun k => install_journal_more k max_commits)
                    fuel (n + 0) s _ ltac:(lia) E ltac:(discriminate)) as C.
      cbv beta in C. rewrite K in C. discriminate.
    + pose proof (more_fuel (fun k => install_journal k max_commits)
                    (fun k => install_journal_more k max_commits)
                    fuel (n + 0) s _ ltac:(lia) E ltac:(discriminate)) as C.
      cbv beta in C. rewrite K in C. discriminate.
Qed.

(** After four creates in a row install does not return either: the
    fourth transaction's Commit record was written into block 17, the
    first installed transaction overwrites that block, and the scan of the
    fourth transaction then meets four zero bytes where the Commit record
    was. *)
Lemma install_hangs_after_four_creates :
  forall fuel, install_journal fuel (-1) four_creates = OutOfFuel.
Proof.
  pose proof fc_facts_hold as F. unfold fc_facts in F. cbn [forallb] in F.
  apply andb_true_iff in F as [Flen F]. apply Z.leb_le in Flen.
  apply andb_true_iff in F as [Fhd F].
  apply andb_true_iff in F as [Fs1 F]. apply andb_true_iff in F as [Fa1 F].
  apply andb_true_iff in F as [Fs2 F]. apply andb_true_iff in F as [Fa2 F].
  apply andb_true_iff in F as [Fs3 F]. apply andb_true_iff in F as [Fa3 F].
  apply andb_true_iff in F as [R1 F]. apply andb_true_iff in F as [R2 F].
  apply andb_true_iff in F as [R3 F]. apply andb_true_iff in F as [R4 F].
  apply andb_true_iff in F as [R5 _].
  apply (ok_run eqb_scan) in Fs1, Fs2, Fs3.
  apply (ok_run eqb_unit) in Fa1, Fa2, Fa3.
  apply rec_is_true in R1, R2, R3, R4, R5.
  assert (Lfc : JOURNAL_BLOCK_IDX * BLOCK_SIZE + 65688 + sizeof_rec_header
                <= len (disk fc_3)) by exact Flen.
  assert (Stuck : forall fuel s, disk s = disk fc_3 ->
                    scan_tx fuel fc_used 49268 s = OutOfFuel).
  { assert (Ndata : type {| type := REC_DATA; size := sizeof_data_record |}
                    <> REC_COMMIT) by discriminate.
    apply (scan_tx_past (disk fc_3) fc_used 49268 _ eq_refl
             ltac:(lia) R1 Ndata).
    apply (scan_tx_past (disk fc_3) fc_used 53372 _ eq_refl
             ltac:(lia) R2 Ndata).
    apply (scan_tx_past (disk fc_3) fc_used 57476 _ eq_refl
             ltac:(lia) R3 Ndata).
    apply (scan_tx_past (disk fc_3) fc_used 61580 _ eq_refl
             ltac:(lia) R4 Ndata).
    apply (scan_tx_stuck (disk fc_3) fc_used 65684 _ eq_refl
             ltac:(lia) ltac:(lia) R5 ltac:(discriminate) eq_refl). }
  assert (K : forall f,
             install_journal (9 + f) (-1) four_creates = OutOfFuel).
  { intros f. unfold install_journal.
    apply andb_true_iff in Fhd as [Fhd Fu]. apply Z.eqb_eq in Fu.
    apply andb_true_iff in Fhd as [Fl Fm]. apply Z.leb_le in Fl.
    rewrite (bind_eq_Ok _ _ _ _ _
               (pread_fits sizeof_journal_header
                  (JOURNAL_BLOCK_IDX * BLOCK_SIZE + 0) four_creates Fl)).
    change {| disk := disk four_creates; log := _ |} with fc_0.
    rewrite header_read, Fm, Fu.
    change (negb true || (fc_used <=? sizeof_journal_header)) with false.
    cbv iota.
    assert (X : install_loop (9 + f) (-1) fc_used sizeof_journal_header 0 fc_0
                = OutOfFuel).
    { change (9 + f)%nat with (S (S (S (S (5 + f))))).
      rewrite (install_loop_tx 6 (S (S (S (5 + f)))) (-1) fc_used
                 sizeof_journal_header 0 fc_0 16428 _ fc_1
                 eq_refl Fs1 Fa1 ltac:(lia)).
      rewrite (install_loop_tx 6 (S (S (5 + f))) (-1) fc_used
                 16428 (u32 (0 + 1)) fc_1 32848 _ fc_2
                 eq_refl Fs2 Fa2 ltac:(lia)).
      rewrite (install_loop_tx 6 (S (5 + f)) (-1) fc_used
                 32848 (u32 (u32 (0 + 1) + 1)) fc_2 49268 _ fc_3
                 eq_refl Fs3 Fa3 ltac:(lia)).
      rewrite install_loop_S.
      change ((49268 <? fc_used) && ((-1 <? 0) || _)) with true.
      cbv iota. unfold bind at 1. rewrite Stuck by reflexivity.
      reflexivity. }
    unfold bind at 1. rewrite X. reflexivity. }
  exact (never_returns_from 9 (-1) four_creates K).
Qed.

(** ** Little-endian fields: what is stored is what is read back *)

Lemma le16_range v : 0 <= v < 65536 ->
  v mod 256 + 256 * ((v / 256) mod 256) = v.
Proof. intros H. Z.div_mod_to_equations. lia. Qed.

Lemma le32_range v : 0 <= v < 4294967296 ->
  v mod 256 + 256 * ((v / 256) mod 256) + 65536 * ((v / 65536) mod 256)
  + 16777216 * ((v / 16777216) mod 256) = v.
Proof. intros H. Z.div_mod_to_equations. lia. Qed.

Lemma rd16_le16 v rest : 0 <= v < 65536 -> rd16 (le16 v ++ rest) 0 = v.
Proof. intros H. apply (le16_range v H). Qed.

Lemma rd32_le32 v rest : 0 <= v < 4294967296 -> rd32 (le32 v ++ rest) 0 = v.
Proof. intros H. apply (le32_range v H). Qed.

(** * Further properties of the code *)

(** Closes a goal that holds by evaluation: an equation or an order between
    closed terms, or a conjunction of such. *)
Ltac evaluated := vm_compute; repeat split; (reflexivity || discriminate).

(** ** Files that hold given bytes *)

Lemma app_eq_length {A} (x a : list A) : forall y b,
  List.length x = List.length a -> x ++ y = a ++ b -> x = a /\ y = b.
Proof.
  revert a. induction x as [|h x IH]; intros [|h' a] y b L E;
    try discriminate.
  - auto.
  - cbn in L, E. injection E as -> E. injection L as L.
    destruct (IH a y b L E) as [-> ->]. auto.
Qed.

Lemma map_seq_from {A} (g : nat -> A) n : forall a,
  map g (seq a n) = map (fun i => g (a + i)%nat) (seq 0 n).
Proof.
  induction n as [|n IH]; intros a; cbn [seq map].
  - reflexivity.
  - rewrite Nat.add_0_r. f_equal. rewrite IH, <- seq_shift, map_map.
    apply map_ext. intros i. f_equal. lia.
Qed.

Lemma file_read_cat f off (n m : nat) :
  file_read f off (Z.of_nat (n + m))
  = file_read f off (Z.of_nat n)
    ++ file_read f (off + Z.of_nat n) (Z.of_nat m).
Proof.
  unfold file_read. rewrite !Nat2Z.id, seq_app, map_app. f_equal.
  cbn [Nat.add]. rewrite map_seq_from. apply map_ext. intros i.
  f_equal. lia.
Qed.

Lemma file_read_write_same f off buf :
  file_read (file_write f off buf) off (Z.of_nat (List.length buf)) = buf.
Proof.
  unfold file_read. rewrite Nat2Z.id.
  apply nth_ext with (d := byte_at (file_write f off buf) (off + Z.of_nat 0))
                     (d' := 0).
  - rewrite length_map. apply length_seq.
  - intros i Hi. rewrite length_map, length_seq in Hi.
    rewrite (map_nth (fun i => byte_at (file_write f off buf)
                                       (off + Z.of_nat i))).
    rewrite seq_nth by exact Hi. cbn [Nat.add file_write byte_at].
    replace ((off <=? off + Z.of_nat i)
             && (off + Z.of_nat i <? off + Z.of_nat (List.length buf)))
      with true.
    + unfold get. f_equal. lia.
    + symmetry. apply andb_true_iff.
      split; [apply Z.leb_le | apply Z.ltb_lt]; lia.
Qed.

Lemma file_read_write_other f off buf o n :
  o + n <= len f ->
  o + n <= off \/ off + Z.of_nat (List.length buf) <= o ->
  file_read (file_write f off buf) o n = file_read f o n.
Proof.
  intros L D. unfold file_read. apply map_ext_in. intros i Hi.
  apply in_seq in Hi. cbn [file_write byte_at].
  replace ((off <=? o + Z.of_nat i)
           && (o + Z.of_nat i <? off + Z.of_nat (List.length buf)))
    with false.
  - destruct (Z.ltb_spec (o + Z.of_nat i) (len f)); [reflexivity | lia].
  - symmetry. apply andb_false_iff.
    destruct D; [left; apply Z.leb_gt | right; apply Z.ltb_ge]; lia.
Qed.

Lemma holds_write_same f off buf :
  0 <= off -> holds (file_write f off buf) off buf.
Proof.
  intros H. split; [exact H|]. split.
  - rewrite len_file_write. lia.
  - apply file_read_write_same.
Qed.

Lemma holds_write_other f off buf o b :
  holds f o b ->
  o + Z.of_nat (List.length b) <= off
  \/ off + Z.of_nat (List.length buf) <= o ->
  holds (file_write f off buf) o b.
Proof.
  intros (H0 & HL & HR) D. split; [exact H0|]. split.
  - rewrite len_file_write. lia.
  - rewrite file_read_write_other by assumption. exact HR.
Qed.

Lemma holds_app f off a b :
  holds f off (a ++ b) ->
  holds f off a /\ holds f (off + Z.of_nat (List.length a)) b.
Proof.
  intros (H0 & HL & HR). rewrite length_app in HL, HR.
  rewrite file_read_cat in HR.
  apply app_eq_length in HR as [Ra Rb];
    [|rewrite length_file_read; apply Nat2Z.id].
  repeat split; try assumption; lia.
Qed.

Lemma pread_holds s off buf n :
  holds (disk s) off buf -> n = Z.of_nat (List.length buf) ->
  pread n off s
  = Ok buf {| disk := disk s; log := log s ++ [Pread off n] |}.
Proof.
  intros (H0 & HL & HR) ->. rewrite pread_fits by exact HL.
  rewrite HR. reflexivity.
Qed.

(** ** Install, one record at a time *)

Lemma decode_encode_rh rh :
  0 <= type rh < 65536 -> 0 <= size rh < 65536 ->
  decode_rh (encode_rh rh) = rh.
Proof.
  intros Ht Hs. destruct rh as [t z]. cbn [type size] in *.
  unfold decode_rh, encode_rh. cbn [type size]. f_equal.
  - apply rd16_le16. exact Ht.
  - apply (le16_range z Hs).
Qed.

Lemma decode_encode_jh jh :
  0 <= magic jh < 4294967296 -> 0 <= nbytes_used jh < 4294967296 ->
  decode_jh (encode_jh jh) = jh.
Proof.
  intros Hm Hu. destruct jh as [m u]. cbn [magic nbytes_used] in *.
  unfold decode_jh, encode_jh. cbn [magic nbytes_used]. f_equal.
  - apply rd32_le32. exact Hm.
  - apply (le32_range u Hu).
Qed.

Lemma dr_block_no_data_record block_no img :
  0 <= block_no < 4294967296 ->
  dr_block_no (data_record block_no img) = block_no.
Proof. intros H. apply (le32_range block_no H). Qed.

Lemma dr_data_data_record block_no img :
  List.length img = Z.to_nat BLOCK_SIZE ->
  dr_data (data_record block_no img) = img.
Proof.
  intros L. unfold dr_data, data_record.
  rewrite firstn_all2 by (rewrite L; apply Nat.le_refl). reflexivity.
Qed.

(** The scan on a record whose header the file holds. *)
Lemma scan_tx_step fuel used off s rh :
  off < used ->
  holds (disk s) (JOURNAL_BLOCK_IDX * BLOCK_SIZE + off) (encode_rh rh) ->
  0 <= type rh < 65536 -> 0 <= size rh < 65536 ->
  scan_tx (S fuel) used off s
  = (if type rh =? REC_COMMIT then ret (true, u32 (off + size rh))
     else scan_tx fuel used (u32 (off + size rh)))
      {| disk := disk s;
         log := log s ++ [Pread (JOURNAL_BLOCK_IDX * BLOCK_SIZE + off)
                                sizeof_rec_header] |}.
Proof.
  intros Hu Hh Ht Hs. rewrite scan_tx_S.
  apply Z.ltb_lt in Hu. rewrite Hu. unfold journal_read.
  rewrite (bind_eq_Ok _ _ _ _ _
             (pread_holds s _ _ sizeof_rec_header Hh eq_refl)).
  rewrite decode_encode_rh by assumption. reflexivity.
Qed.

(** The applying loop on a record that is not a Data record. *)
Lemma apply_tx_skip fuel tx_off off s rh :
  off < tx_off ->
  holds (disk s) (JOURNAL_BLOCK_IDX * BLOCK_SIZE + off) (encode_rh rh) ->
  0 <= type rh < 65536 -> 0 <= size rh < 65536 ->
  type rh <> REC_DATA ->
  apply_tx (S fuel) tx_off off s
  = apply_tx fuel tx_off (u32 (off + size rh))
      {| disk := disk s;
         log := log s ++ [Pread (JOURNAL_BLOCK_IDX * BLOCK_SIZE + off)
                                sizeof_rec_header] |}.
Proof.
  intros Hu Hh Ht Hs Hd. rewrite apply_tx_S.
  apply Z.ltb_lt in Hu. rewrite Hu. unfold journal_read.
  rewrite (bind_eq_Ok _ _ _ _ _
             (pread_holds s _ _ sizeof_rec_header Hh eq_refl)).
  rewrite decode_encode_rh by assumption.
  apply Z.eqb_neq in Hd. rewrite Hd. reflexivity.
Qed.

(** The applying loop on a whole Data record: the block is written. *)
Lemma apply_tx_data fuel tx_off off s block_no img :
  off < tx_off ->
  holds (disk s) (JOURNAL_BLOCK_IDX * BLOCK_SIZE + off)
        (data_record block_no img) ->
  List.length img = Z.to_nat BLOCK_SIZE ->
  0 <= block_no < 4294967296 ->
  apply_tx (S fuel) tx_off off s
  = apply_tx fuel tx_off (u32 (off + sizeof_data_record))
      {| disk := file_write (disk s) (block_no * BLOCK_SIZE) img;
         log := log s
                ++ [Pread (JOURNAL_BLOCK_IDX * BLOCK_SIZE + off)
                          sizeof_rec_header;
                    Pread (JOURNAL_BLOCK_IDX * BLOCK_SIZE + off)
                          sizeof_data_record;
                    Pwrite (block_no * BLOCK_SIZE) img] |}.
Proof.
  intros Hu Hh L Hb. rewrite apply_tx_S.
  apply Z.ltb_lt in Hu. rewrite Hu. unfold journal_read.
  destruct (data_record_whole block_no img L) as [Ew Lw].
  assert (Hhdr : holds (disk s) (JOURNAL_BLOCK_IDX * BLOCK_SIZE + off)
                   (encode_rh {| type := REC_DATA;
                                 size := sizeof_data_record |})).
  { rewrite Ew in Hh. apply holds_app in Hh. apply Hh. }
  rewrite (bind_eq_Ok _ _ _ _ _
             (pread_holds s _ _ sizeof_rec_header Hhdr eq_refl)).
  rewrite decode_encode_rh
    by (cbn [type size]; unfold REC_DATA, sizeof_data_record; lia).
  cbn [type size]. rewrite !Z.eqb_refl.
  unfold bind at 1 2.
  rewrite (pread_holds
             {| disk := disk s;
                log := log s ++ [Pread (JOURNAL_BLOCK_IDX * BLOCK_SIZE + off)
                                       sizeof_rec_header] |}
             _ _ sizeof_data_record Hh (eq_sym Lw)).
  rewrite dr_block_no_data_record, dr_data_data_record by assumption.
  unfold write_block.
  rewrite firstn_all2 by (rewrite L; apply Nat.le_refl).
  unfold pwrite. cbn [disk log]. rewrite <- !app_assoc. reflexivity.
Qed.

(** ** Replaying a well-formed journal *)

Lemma tx_end_cons off r recs :
  tx_end (off + sizeof_data_record) recs = tx_end off (r :: recs).
Proof. unfold tx_end. cbn [List.length]. lia. Qed.

Lemma tx_end_nil off : tx_end off [] = off + sizeof_commit_record.
Proof. unfold tx_end. cbn [List.length]. lia. Qed.

Lemma length_commit_record :
  Z.of_nat (List.length commit_record) = sizeof_commit_record.
Proof. reflexivity. Qed.

Lemma tx_end_gt off recs : off + sizeof_commit_record <= tx_end off recs.
Proof. unfold tx_end. layout. lia. Qed.

Lemma length_data_record block_no img :
  List.length img = Z.to_nat BLOCK_SIZE ->
  Z.of_nat (List.length (data_record block_no img)) = sizeof_data_record.
Proof. intros L. apply (data_record_whole block_no img L). Qed.

(** A write that does not overlap a transaction leaves it where it is. *)
Lemma tx_at_write f o buf recs : forall off,
  tx_at f off recs ->
  o + Z.of_nat (List.length buf) <= JOURNAL_BLOCK_IDX * BLOCK_SIZE + off
  \/ JOURNAL_BLOCK_IDX * BLOCK_SIZE + tx_end off recs <= o ->
  tx_at (file_write f o buf) off recs.
Proof.
  induction recs as [|[t img] recs IH]; intros off H D; cbn [tx_at] in *.
  - apply holds_write_other; [exact H|].
    rewrite tx_end_nil in D. rewrite length_commit_record. lia.
  - destruct H as (H & L & T & R).
    pose proof (tx_end_gt (off + sizeof_data_record) recs) as G.
    rewrite tx_end_cons with (r := (t, img)) in G.
    split; [|split; [exact L|split; [exact T|]]].
    + apply holds_write_other; [exact H|].
      rewrite length_data_record by exact L. layout. lia.
    + apply IH; [exact R|].
      rewrite tx_end_cons with (r := (t, img)). layout. lia.
Qed.

Lemma log_end_cons off tx txs :
  log_end off (tx :: txs) = log_end (tx_end off tx) txs.
Proof. reflexivity. Qed.

Lemma log_end_ge txs : forall off, off <= log_end off txs.
Proof.
  induction txs as [|tx txs IH]; intros off.
  - cbn. lia.
  - rewrite log_end_cons. specialize (IH (tx_end off tx)).
    pose proof (tx_end_gt off tx). layout. lia.
Qed.

Lemma log_at_write f o buf txs : forall off,
  log_at f off txs ->
  o + Z.of_nat (List.length buf) <= JOURNAL_BLOCK_IDX * BLOCK_SIZE + off
  \/ JOURNAL_BLOCK_IDX * BLOCK_SIZE + log_end off txs <= o ->
  log_at (file_write f o buf) off txs.
Proof.
  induction txs as [|tx txs IH]; intros off H D; cbn [log_at] in *.
  - exact I.
  - destruct H as [T R]. rewrite log_end_cons in D.
    pose proof (log_end_ge txs (tx_end off tx)) as M.
    pose proof (tx_end_gt off tx) as G. split.
    + apply tx_at_write; [exact T | lia].
    + apply IH; [exact R|]. layout. lia.
Qed.

Lemma u32_small x : 0 <= x < 4294967296 -> u32 x = x.
Proof. intros H. unfold u32. apply Z.mod_small. exact H. Qed.

(** The scan of a transaction returns at its end, with the commit seen. *)
Lemma scan_tx_at recs : forall fuel used off s,
  tx_at (disk s) off recs ->
  0 <= off -> tx_end off recs <= used -> used <= journal_size ->
  (List.length recs < fuel)%nat ->
  exists l,
    scan_tx fuel used off s
    = Ok (true, tx_end off recs) {| disk := disk s; log := log s ++ l |}
    /\ writes l = [].
Proof.
  induction recs as [|[t img] recs IH]; intros fuel used off s H O E U F;
    (destruct fuel as [|fuel]; [cbn in F; lia|]); cbn [tx_at] in H.
  - rewrite (scan_tx_step fuel used off s
               {| type := REC_COMMIT; size := sizeof_commit_record |});
      [ | rewrite tx_end_nil in E; layout; lia | exact H
        | cbn [type]; unfold REC_COMMIT; lia
        | cbn [size]; unfold sizeof_commit_record; lia ].
    cbn [type size]. rewrite Z.eqb_refl. rewrite tx_end_nil in E |- *.
    exists [Pread (JOURNAL_BLOCK_IDX * BLOCK_SIZE + off) sizeof_rec_header].
    split; [|reflexivity].
    rewrite u32_small by (unfold journal_size in U; layout; lia).
    reflexivity.
  - destruct H as (H & L & T & R).
    pose proof (tx_end_gt (off + sizeof_data_record) recs) as G.
    rewrite tx_end_cons with (r := (t, img)) in G.
    assert (Hh : holds (disk s) (JOURNAL_BLOCK_IDX * BLOCK_SIZE + off)
                   (encode_rh {| type := REC_DATA;
                                 size := sizeof_data_record |})).
    { destruct (data_record_whole t img L) as [Ew _]. rewrite Ew in H.
      apply holds_app in H. apply H. }
    rewrite (scan_tx_step fuel used off s _ ltac:(layout; lia) Hh
               ltac:(cbn [type]; unfold REC_DATA; lia)
               ltac:(cbn [size]; unfold sizeof_data_record; lia)).
    cbn [type size].
    change (REC_DATA =? REC_COMMIT) with false. cbv iota.
    rewrite u32_small by (unfold journal_size in U; layout; lia).
    destruct (IH fuel used (off + sizeof_data_record)
                {| disk := disk s;
                   log := log s
                          ++ [Pread (JOURNAL_BLOCK_IDX * BLOCK_SIZE + off)
                                    sizeof_rec_header] |}
                R ltac:(layout; lia)
                ltac:(rewrite tx_end_cons with (r := (t, img)); exact E)
                U ltac:(cbn in F; lia)) as (l & Hl & Wl).
    rewrite Hl. cbn [disk log]. eexists. split.
    + rewrite tx_end_cons with (r := (t, img)). rewrite <- app_assoc.
      reflexivity.
    + rewrite writes_app. rewrite Wl. reflexivity.
Qed.

(** The applying loop over a transaction writes its images, in order, to
    their blocks. *)
Lemma apply_tx_at recs : forall fuel off s,
  tx_at (disk s) off recs ->
  0 <= off -> tx_end off recs <= journal_size ->
  (List.length recs + 1 < fuel)%nat ->
  exists l,
    apply_tx fuel (tx_end off recs) off s
    = Ok tt {| disk := replay (disk s) recs; log := log s ++ l |}
    /\ writes l = replay_writes recs.
Proof.
  induction recs as [|[t img] recs IH]; intros fuel off s H O E F;
    (destruct fuel as [|fuel]; [cbn in F; lia|]); cbn [tx_at] in H.
  - rewrite (apply_tx_skip fuel (tx_end off []) off s
               {| type := REC_COMMIT; size := sizeof_commit_record |});
      [ | rewrite tx_end_nil; layout; lia | exact H
        | cbn [type]; unfold REC_COMMIT; lia
        | cbn [size]; unfold sizeof_commit_record; lia
        | discriminate ].
    cbn [type size]. rewrite tx_end_nil in E |- *.
    rewrite u32_small by (unfold journal_size in E; layout; lia).
    destruct fuel as [|fuel]; [cbn in F; lia|].
    rewrite apply_tx_S. rewrite Z.ltb_irrefl.
    exists [Pread (JOURNAL_BLOCK_IDX * BLOCK_SIZE + off) sizeof_rec_header].
    split; reflexivity.
  - destruct H as (H & L & T & R).
    pose proof (tx_end_gt (off + sizeof_data_record) recs) as G.
    rewrite tx_end_cons with (r := (t, img)) in G.
    rewrite (apply_tx_data fuel (tx_end off ((t, img) :: recs)) off s t img
               ltac:(layout; lia) H L
               ltac:(unfold JOURNAL_BLOCK_IDX, JOURNAL_BLOCKS in T; lia)).
    rewrite u32_small by (unfold journal_size in E; layout; lia).
    rewrite <- tx_end_cons with (r := (t, img)).
    match goal with
    | |- context [apply_tx fuel _ _ ?s1] =>
        destruct (IH fuel (off + sizeof_data_record) s1) as (l & Hl & Wl)
    end.
    + cbn [disk]. apply tx_at_write; [exact R|]. right.
      rewrite tx_end_cons with (r := (t, img)).
      unfold journal_size in E. layout. lia.
    + layout. lia.
    + rewrite tx_end_cons with (r := (t, img)). exact E.
    + cbn in F. lia.
    + rewrite Hl. cbn [disk log]. eexists. split.
      * rewrite <- app_assoc. reflexivity.
      * rewrite writes_app, Wl. reflexivity.
Qed.

Lemma tx_at_targets f recs : forall off,
  tx_at f off recs ->
  Forall (fun r => JOURNAL_BLOCK_IDX + JOURNAL_BLOCKS <= fst r) recs.
Proof.
  induction recs as [|[t img] recs IH]; intros off H; cbn [tx_at] in H.
  - constructor.
  - destruct H as (_ & _ & T & R). constructor; [cbn [fst]; lia|].
    apply (IH _ R).
Qed.

(** Replaying records leaves the journal's transactions where they are. *)
Lemma log_at_replay recs : forall f off txs,
  Forall (fun r => JOURNAL_BLOCK_IDX + JOURNAL_BLOCKS <= fst r) recs ->
  log_at f off txs -> log_end off txs <= journal_size ->
  log_at (replay f recs) off txs.
Proof.
  induction recs as [|r recs IH]; intros f off txs T H E.
  - exact H.
  - inversion T as [|r' recs' Tr Trest]; subst.
    unfold replay. cbn [fold_left]. apply IH; [exact Trest | | exact E].
    apply log_at_write; [exact H|]. right.
    unfold journal_size in E. layout. lia.
Qed.

Lemma replay_app f recs1 recs2 :
  replay f (recs1 ++ recs2) = replay (replay f recs1) recs2.
Proof. apply fold_left_app. Qed.

Lemma replay_writes_app recs1 recs2 :
  replay_writes (recs1 ++ recs2)
  = replay_writes recs1 ++ replay_writes recs2.
Proof. apply map_app. Qed.

(** The outer loop over a well-formed log: it applies the transactions in
    order, as many as the cap leaves room for, and stops. *)
Lemma install_loop_log m txs : forall fuel max_commits off committed s,
  log_at (disk s) off txs ->
  0 <= off -> log_end off txs <= journal_size ->
  Forall (fun tx => (List.length tx <= m)%nat) txs ->
  (List.length txs + m + 2 <= fuel)%nat ->
  0 <= committed ->
  committed + Z.of_nat (List.length txs) < 2147483648 ->
  let k := applied (max_commits - committed) (List.length txs) in
  max_commits < 0 \/ committed <= max_commits ->
  exists l,
    install_loop fuel max_commits (log_end off txs) off committed s
    = Ok (committed + Z.of_nat k)
         {| disk := replay (disk s) (List.concat (firstn k txs));
            log := log s ++ l |}
    /\ writes l = replay_writes (List.concat (firstn k txs)).
Proof.
  induction txs as [|tx txs IH];
    intros fuel max_commits off committed s H O E M F C R k Cap; subst k;
    (destruct fuel as [|fuel]; [cbn in F; lia|]).
  - rewrite install_loop_S. cbn [log_end fold_left].
    rewrite Z.ltb_irrefl. cbn [andb].
    replace (applied (max_commits - committed) (List.length (@nil (list (Z * bytes)))))
      with 0%nat
      by (unfold applied; destruct (max_commits - committed <? 0);
          reflexivity).
    exists []. cbn [firstn List.concat replay fold_left Z.of_nat].
    rewrite Z.add_0_r, app_nil_r. destruct s. split; reflexivity.
  - cbn [log_at] in H. destruct H as [T L]. rewrite log_end_cons in E |- *.
    pose proof (log_end_ge txs (tx_end off tx)) as G1.
    pose proof (tx_end_gt off tx) as G2.
    inversion M as [|x y Mtx Mrest]; subst. cbn [List.length] in F, R |- *.
    rewrite install_loop_S.
    replace (off <? log_end (tx_end off tx) txs) with true
      by (symmetry; apply Z.ltb_lt; layout; lia).
    cbn [andb]. unfold to_int.
    replace (committed <? 2147483648) with true
      by (symmetry; apply Z.ltb_lt; lia).
    destruct ((max_commits <? 0) || (committed <? max_commits)) eqn:Guard.
    + destruct (scan_tx_at tx (S fuel) (log_end (tx_end off tx) txs) off s
                  T O G1 E ltac:(lia)) as (l1 & S1 & W1).
      rewrite (bind_eq_Ok _ _ _ _ _ S1). cbn [fst snd negb].
      match type of S1 with
      | _ = Ok _ ?s1 =>
          destruct (apply_tx_at tx (S fuel) off s1 T O ltac:(lia)
                      ltac:(lia)) as (l2 & S2 & W2)
      end.
      rewrite (bind_eq_Ok _ _ _ _ _ S2). cbn [disk log] in *.
      rewrite u32_small by lia.
      match goal with
      | |- context [install_loop fuel _ _ _ _ ?s2] =>
          destruct (IH fuel max_commits (tx_end off tx) (committed + 1) s2)
            as (l3 & S3 & W3)
      end.
      * cbn [disk]. apply log_at_replay;
          [apply (tx_at_targets _ _ _ T) | exact L | exact E].
      * layout. lia.
      * exact E.
      * exact Mrest.
      * lia.
      * lia.
      * lia.
      * apply orb_true_iff in Guard as [Gd|Gd];
          [left; apply Z.ltb_lt | right; apply Z.ltb_lt in Gd]; lia.
      * assert (K : applied (max_commits - committed)
                      (S (List.length txs))
                    = S (applied (max_commits - (committed + 1))
                           (List.length txs))).
        { unfold applied.
          apply orb_true_iff in Guard as [Gd|Gd].
          - apply Z.ltb_lt in Gd.
            destruct Cap as [Cap|Cap]; [|lia].
            replace (max_commits - committed <? 0) with true
              by (symmetry; apply Z.ltb_lt; lia).
            replace (max_commits - (committed + 1) <? 0) with true
              by (symmetry; apply Z.ltb_lt; lia).
            reflexivity.
          - apply Z.ltb_lt in Gd.
            replace (max_commits - committed <? 0) with false
              by (symmetry; apply Z.ltb_ge; lia).
            replace (max_commits - (committed + 1) <? 0) with false
              by (symmetry; apply Z.ltb_ge; lia).
            lia. }
        rewrite K. cbn [firstn List.concat]. rewrite S3. cbn [disk log].
        exists (l1 ++ l2 ++ l3). split.
        -- f_equal; [lia|]. f_equal.
           ++ symmetry. apply replay_app.
           ++ rewrite <- !app_assoc. reflexivity.
        -- rewrite !writes_app, W1, W2, W3, replay_writes_app. reflexivity.
    + apply orb_false_iff in Guard as [G3 G4].
      apply Z.ltb_ge in G3, G4.
      replace (applied (max_commits - committed) (S (List.length txs)))
        with 0%nat.
      * exists []. cbn [firstn List.concat replay fold_left Z.of_nat].
        rewrite Z.add_0_r, app_nil_r. destruct s. split; reflexivity.
      * unfold applied.
        replace (max_commits - committed <? 0) with false
          by (symmetry; apply Z.ltb_ge; lia).
        replace (Z.to_nat (max_commits - committed)) with 0%nat by lia.
        reflexivity.
Qed.

Lemma log_end_length txs : forall off,
  off + sizeof_commit_record * Z.of_nat (List.length txs) <= log_end off txs.
Proof.
  induction txs as [|tx txs IH]; intros off.
  - cbn. lia.
  - rewrite log_end_cons. specialize (IH (tx_end off tx)).
    pose proof (tx_end_gt off tx). cbn [List.length]. layout. lia.
Qed.

Lemma journal_ok_header f txs :
  journal_ok f txs ->
  header f = {| magic := JOURNAL_MAGIC;
                nbytes_used := log_end sizeof_journal_header txs |}.
Proof.
  intros ((_ & _ & R) & _ & E). rewrite <- header_read.
  change (Z.of_nat (List.length (encode_jh _))) with sizeof_journal_header
    in R.
  rewrite R. apply decode_encode_jh; cbn [magic nbytes_used].
  - unfold JOURNAL_MAGIC. lia.
  - pose proof (log_end_ge txs sizeof_journal_header).
    unfold journal_size in E. layout. lia.
Qed.

(** Install on a well-formed journal with at least one transaction. *)
Lemma install_journal_log m txs fuel max_commits s :
  journal_ok (disk s) txs -> txs <> [] ->
  Forall (fun tx => (List.length tx <= m)%nat) txs ->
  (List.length txs + m + 2 <= fuel)%nat ->
  let k := applied max_commits (List.length txs) in
  let reset :=
    encode_jh {| magic := JOURNAL_MAGIC;
                 nbytes_used := sizeof_journal_header |} in
  exists s',
    install_journal fuel max_commits s = Ok (Z.of_nat k) s'
    /\ disk s'
       = file_write (replay (disk s) (List.concat (firstn k txs)))
                    (JOURNAL_BLOCK_IDX * BLOCK_SIZE + 0) reset
    /\ writes (log s')
       = writes (log s) ++ replay_writes (List.concat (firstn k txs))
         ++ [Pwrite (JOURNAL_BLOCK_IDX * BLOCK_SIZE + 0) reset].
Proof.
  intros Hj Hne M F k reset.
  pose proof (journal_ok_header _ _ Hj) as Hh.
  destruct Hj as (Hhold & Hlog & Hend).
  pose proof (log_end_length txs sizeof_journal_header) as Hlen.
  assert (Hn : (0 < List.length txs)%nat)
    by (destruct txs; [congruence | cbn; lia]).
  unfold install_journal, journal_read.
  rewrite (bind_eq_Ok _ _ _ _ _
             (pread_holds s _ _ sizeof_journal_header Hhold eq_refl)).
  rewrite decode_encode_jh;
    [ | cbn [magic]; unfold JOURNAL_MAGIC; lia
      | cbn [nbytes_used]; unfold journal_size in Hend; layout; lia ].
  cbn [magic nbytes_used]. rewrite Z.eqb_refl.
  replace (log_end sizeof_journal_header txs <=? sizeof_journal_header)
    with false by (symmetry; apply Z.leb_gt; layout; lia).
  cbn [negb orb].
  set (s0 := {| disk := disk s; log := _ |}).
  destruct (install_loop_log m txs fuel max_commits
              sizeof_journal_header 0 s0 Hlog
              ltac:(layout; lia) Hend M F ltac:(lia)
              ltac:(unfold journal_size in Hend; layout; lia)
              ltac:(lia))
    as (l & Hl & Wl).
  rewrite Z.sub_0_r in Hl, Wl. fold k in Hl, Wl.
  rewrite (bind_eq_Ok _ _ _ _ _ Hl).
  unfold journal_write, pwrite, bind, ret. cbn [disk log].
  eexists. split; [reflexivity|]. split; [reflexivity|].
  cbn [log]. subst s0. cbn [log]. rewrite <- app_assoc.
  rewrite writes_app, writes_read, writes_app, Wl. reflexivity.
Qed.

(** ** The journal after a create *)

Lemma log_end_app txs1 txs2 off :
  log_end off (txs1 ++ txs2) = log_end (log_end off txs1) txs2.
Proof. apply fold_left_app. Qed.

Lemma log_at_app f txs1 : forall off txs2,
  log_at f off txs1 -> log_at f (log_end off txs1) txs2 ->
  log_at f off (txs1 ++ txs2).
Proof.
  induction txs1 as [|tx txs1 IH]; intros off txs2 H1 H2.
  - exact H2.
  - cbn [app log_at] in *. destruct H1 as [T R]. split; [exact T|].
    apply IH; [exact R | exact H2].
Qed.

Lemma block_write_same f block_no img :
  List.length img = Z.to_nat BLOCK_SIZE ->
  block (file_write f (block_no * BLOCK_SIZE) img) block_no = img.
Proof.
  intros L. unfold block.
  pose proof (file_read_write_same f (block_no * BLOCK_SIZE) img) as R.
  rewrite L in R. exact R.
Qed.

Lemma block_write_other f o buf block_no :
  (block_no + 1) * BLOCK_SIZE <= len f ->
  o + Z.of_nat (List.length buf) <= block_no * BLOCK_SIZE
  \/ (block_no + 1) * BLOCK_SIZE <= o ->
  block (file_write f o buf) block_no = block f block_no.
Proof.
  intros L D. unfold block. apply file_read_write_other.
  - layout. lia.
  - layout. lia.
Qed.

Section AfterCreate.

Variables (d : file) (off0 t4 : Z) (i1 i2 i3 i4 hdr : bytes).

Hypothesis L1 : List.length i1 = Z.to_nat BLOCK_SIZE.
Hypothesis L2 : List.length i2 = Z.to_nat BLOCK_SIZE.
Hypothesis L3 : List.length i3 = Z.to_nat BLOCK_SIZE.
Hypothesis L4 : List.length i4 = Z.to_nat BLOCK_SIZE.
Hypothesis Lh : Z.of_nat (List.length hdr) = sizeof_journal_header.
Hypothesis Hoff : sizeof_journal_header <= off0.
Hypothesis Hroom :
  off0 + 4 * sizeof_data_record + sizeof_commit_record <= journal_size.
Hypothesis Ht4 : INODE_START_IDX <= t4 < DATA_START_IDX.

Let J := JOURNAL_BLOCK_IDX * BLOCK_SIZE.
Let o1 := off0.
Let o2 := o1 + sizeof_data_record.
Let o3 := o2 + sizeof_data_record.
Let o4 := o3 + sizeof_data_record.
Let o5 := o4 + sizeof_data_record.
Let f1 := file_write d (J + o1) (data_record INODE_BMAP_IDX i1).
Let f2 := file_write f1 (J + o2) (data_record DATA_BMAP_IDX i2).
Let f3 := file_write f2 (J + o3) (data_record DATA_START_IDX i3).
Let f4 := file_write f3 (J + o4) (data_record t4 i4).
Let f5 := file_write f4 (J + o5) commit_record.
Let f6 := file_write f5 (J + 0) hdr.

Let new_tx : list (Z * bytes) :=
  [(INODE_BMAP_IDX, i1); (DATA_BMAP_IDX, i2); (DATA_START_IDX, i3);
   (t4, i4)].

Ltac lens :=
  rewrite ?length_data_record, ?length_commit_record, ?Lh by assumption.

Ltac held :=
  repeat first
    [ apply holds_write_same;
      unfold J, o5, o4, o3, o2, o1; layout; lia
    | apply holds_write_other;
      [| lens; unfold J, o5, o4, o3, o2, o1; layout; lia ] ].

Lemma after_create_tx : tx_at f6 off0 new_tx.
Proof.
  unfold new_tx, f6, f5, f4, f3, f2, f1. cbn [tx_at].
  fold o1. fold o2. fold o3. fold o4. fold o5. fold J.
  repeat split; try assumption; try (layout; lia); held.
Qed.

Lemma after_create_header : holds f6 (J + 0) hdr.
Proof. unfold f6. held. Qed.

Lemma after_create_log txs :
  log_at d sizeof_journal_header txs ->
  log_end sizeof_journal_header txs = off0 ->
  log_at f6 sizeof_journal_header txs.
Proof.
  intros H E. unfold f6, f5, f4, f3, f2, f1.
  repeat (apply log_at_write;
          [| lens; rewrite ?E; unfold J, o5, o4, o3, o2, o1; layout; lia]).
  exact H.
Qed.

Lemma after_create_block block_no :
  block_no < JOURNAL_BLOCK_IDX
  \/ JOURNAL_BLOCK_IDX + JOURNAL_BLOCKS <= block_no ->
  (block_no + 1) * BLOCK_SIZE <= len d ->
  block f6 block_no = block d block_no.
Proof.
  intros B L. unfold f6, f5, f4, f3, f2, f1.
  repeat (rewrite block_write_other;
          [| rewrite ?len_file_write; lia
           | lens; unfold J, o5, o4, o3, o2, o1, journal_size in *;
             layout; lia ]).
  reflexivity.
Qed.

Lemma after_create_len :
  JOURNAL_BLOCK_IDX * BLOCK_SIZE + journal_size <= len d ->
  len f6 = len d.
Proof.
  intros L. unfold f6, f5, f4, f3, f2, f1. rewrite !len_file_write. lens.
  unfold J, o5, o4, o3, o2, o1, journal_size in *. layout. lia.
Qed.

End AfterCreate.

Lemma init_jh_pre f txs :
  journal_pre f txs ->
  init_jh (header f)
  = {| magic := JOURNAL_MAGIC;
       nbytes_used := log_end sizeof_journal_header txs |}.
Proof.
  intros [[Hm ->]|Hj]; unfold init_jh.
  - apply Z.eqb_neq in Hm. rewrite Hm. reflexivity.
  - rewrite (journal_ok_header _ _ Hj). cbn [magic].
    rewrite Z.eqb_refl. reflexivity.
Qed.

Lemma journal_pre_log f txs :
  journal_pre f txs ->
  log_at f sizeof_journal_header txs
  /\ sizeof_journal_header <= log_end sizeof_journal_header txs.
Proof.
  intros [[_ ->]|(_ & L & _)].
  - split; [exact I | cbn; lia].
  - split; [exact L | apply log_end_ge].
Qed.

Lemma free_inode_range bmap :
  0 <= free_inode bmap -> 0 <= free_inode bmap < max_inodes.
Proof.
  intros H. destruct (free_inode_spec bmap) as [[E _]|[R _]]; [lia | exact R].
Qed.

Lemma free_dirent_range d :
  0 <= free_dirent d -> 0 <= free_dirent d < dirent_slots.
Proof.
  intros H. destruct (free_dirent_spec d) as [[E _]|[R _]]; [lia | exact R].
Qed.

Lemma iblk_no_range idx :
  0 <= idx < max_inodes ->
  INODE_START_IDX <= INODE_START_IDX + idx / (BLOCK_SIZE / INODE_SIZE)
  < DATA_START_IDX.
Proof.
  intros H. change max_inodes with 64 in H.
  change (BLOCK_SIZE / INODE_SIZE) with 32.
  assert (0 <= idx / 32 < 2)
    by (split; [apply Z.div_pos | apply Z.div_lt_upper_bound]; lia).
  layout. lia.
Qed.

(** What a create leaves: the journal it met, one more transaction, and
    every block outside the journal region as it was. *)
Lemma create_journal_log file_name now s s1 txs :
  create_journal file_name now s = Ok true s1 ->
  journal_pre (disk s) txs ->
  log_end sizeof_journal_header txs + tx_bytes <= journal_size ->
  journal_ok (disk s1) (txs ++ [create_tx (disk s) file_name now])
  /\ forall block_no,
      block_no < JOURNAL_BLOCK_IDX
      \/ JOURNAL_BLOCK_IDX + JOURNAL_BLOCKS <= block_no ->
      (block_no + 1) * BLOCK_SIZE <= len (disk s) ->
      block (disk s1) block_no = block (disk s) block_no
      /\ (block_no + 1) * BLOCK_SIZE <= len (disk s1).
Proof.
  intros H Hpre Hroom.
  apply create_journal_Ok in H as (Hidx & Hslot & Hdisk & _).
  cbv zeta in Hdisk. rewrite (init_jh_pre _ _ Hpre) in Hdisk.
  cbn [nbytes_used] in Hdisk.
  destruct (journal_pre_log _ _ Hpre) as [Hlog Hge].
  set (off0 := log_end sizeof_journal_header txs) in *.
  unfold tx_bytes in Hroom.
  assert (Hsmall : off0 + 4 * sizeof_data_record + sizeof_commit_record
                   < 4294967296)
    by (unfold journal_size in Hroom; layout; lia).
  rewrite (u32_small (off0 + sizeof_data_record)) in Hdisk
    by (layout; lia).
  rewrite (u32_small (off0 + sizeof_data_record + sizeof_data_record))
    in Hdisk by (layout; lia).
  rewrite (u32_small (off0 + sizeof_data_record + sizeof_data_record
                      + sizeof_data_record)) in Hdisk by (layout; lia).
  rewrite (u32_small (off0 + sizeof_data_record + sizeof_data_record
                      + sizeof_data_record + sizeof_data_record))
    in Hdisk by (layout; lia).
  rewrite (u32_small (off0 + sizeof_data_record + sizeof_data_record
                      + sizeof_data_record + sizeof_data_record
                      + sizeof_commit_record)) in Hdisk by (layout; lia).
  cbn [fold_left apply_write] in Hdisk.
  pose proof (iblk_no_range _ (free_inode_range _ Hidx)) as Hblk.
  set (ibmap := block (disk s) INODE_BMAP_IDX) in *.
  set (root_data := block (disk s) DATA_START_IDX) in *.
  set (inode_idx := free_inode ibmap) in *.
  set (slot := free_dirent root_data) in *.
  set (iblk_no := INODE_START_IDX + inode_idx / (BLOCK_SIZE / INODE_SIZE))
    in *.
  set (i1 := set_bitmap ibmap inode_idx) in *.
  set (i2 := block (disk s) DATA_BMAP_IDX) in *.
  set (i3 := add_dirent root_data slot inode_idx file_name) in *.
  set (i4 := grow_root (init_inode (block (disk s) iblk_no) inode_idx now)
                       slot) in *.
  assert (L1 : List.length i1 = Z.to_nat BLOCK_SIZE)
    by (unfold i1; rewrite length_set_bitmap; apply length_block).
  assert (L2 : List.length i2 = Z.to_nat BLOCK_SIZE) by apply length_block.
  assert (L3 : List.length i3 = Z.to_nat BLOCK_SIZE)
    by (unfold i3; rewrite length_add_dirent; apply length_block).
  assert (L4 : List.length i4 = Z.to_nat BLOCK_SIZE)
    by (unfold i4; rewrite length_grow_root, length_init_inode;
        apply length_block).
  set (hdr := encode_jh _) in Hdisk.
  assert (Lh : Z.of_nat (List.length hdr) = sizeof_journal_header)
    by reflexivity.
  assert (Hr : off0 + 4 * sizeof_data_record + sizeof_commit_record
               <= journal_size) by lia.
  change (create_tx (disk s) file_name now)
    with [(INODE_BMAP_IDX, i1); (DATA_BMAP_IDX, i2); (DATA_START_IDX, i3);
          (iblk_no, i4)].
  rewrite Hdisk. split; [split; [|split]|].
  - replace (encode_jh _) with hdr.
    + apply after_create_header; assumption.
    + unfold hdr. f_equal. f_equal. rewrite log_end_app. fold off0.
      cbn [log_end fold_left]. unfold tx_end. cbn [List.length]. lia.
  - apply log_at_app.
    + apply after_create_log; try assumption. reflexivity.
    + fold off0. cbn [log_at]. split; [|exact I].
      apply after_create_tx; assumption.
  - rewrite log_end_app. fold off0. cbn [log_end fold_left].
    unfold tx_end. cbn [List.length]. unfold journal_size in *. layout. lia.
  - intros block_no B L. split.
    + apply after_create_block; assumption.
    + rewrite !len_file_write. lia.
Qed.

(** A create that logs its transaction has read its four blocks. *)
Lemma create_journal_fits file_name now s s1 :
  create_journal file_name now s = Ok true s1 ->
  (DATA_START_IDX + 1) * BLOCK_SIZE <= len (disk s).
Proof.
  unfold create_journal. intros H.
  apply bind_Ok in H as (b1 & s2 & R1 & H).
  apply read_block_Ok in R1 as (_ & -> & ->).
  apply bind_Ok in H as (b2 & s3 & R2 & H).
  apply read_block_Ok in R2 as (_ & -> & ->).
  apply bind_Ok in H as (b3 & s4 & R3 & H).
  apply read_block_Ok in R3 as (L & _ & _). exact L.
Qed.

(** ** Create, then install *)

Section AfterInstall.

Variables (f : file) (t4 : Z) (i1 i2 i3 i4 : bytes).

Hypothesis L1 : List.length i1 = Z.to_nat BLOCK_SIZE.
Hypothesis L2 : List.length i2 = Z.to_nat BLOCK_SIZE.
Hypothesis L3 : List.length i3 = Z.to_nat BLOCK_SIZE.
Hypothesis L4 : List.length i4 = Z.to_nat BLOCK_SIZE.
Hypothesis Ht4 : INODE_START_IDX <= t4 < DATA_START_IDX.
Hypothesis Hlen : (DATA_START_IDX + 1) * BLOCK_SIZE <= len f.

Let g1 := file_write f (INODE_BMAP_IDX * BLOCK_SIZE) i1.
Let g2 := file_write g1 (DATA_BMAP_IDX * BLOCK_SIZE) i2.
Let g3 := file_write g2 (DATA_START_IDX * BLOCK_SIZE) i3.
Let g4 := file_write g3 (t4 * BLOCK_SIZE) i4.
Let g5 :=
  file_write g4 (JOURNAL_BLOCK_IDX * BLOCK_SIZE + 0)
             (encode_jh {| magic := JOURNAL_MAGIC;
                           nbytes_used := sizeof_journal_header |}).

Lemma after_install_eq :
  file_write
    (replay f [(INODE_BMAP_IDX, i1); (DATA_BMAP_IDX, i2);
               (DATA_START_IDX, i3); (t4, i4)])
    (JOURNAL_BLOCK_IDX * BLOCK_SIZE + 0)
    (encode_jh {| magic := JOURNAL_MAGIC;
                  nbytes_used := sizeof_journal_header |})
  = g5.
Proof. reflexivity. Qed.

Let Z1 : Z.of_nat (List.length i1) = BLOCK_SIZE.
Proof. rewrite L1. reflexivity. Qed.
Let Z2 : Z.of_nat (List.length i2) = BLOCK_SIZE.
Proof. rewrite L2. reflexivity. Qed.
Let Z3 : Z.of_nat (List.length i3) = BLOCK_SIZE.
Proof. rewrite L3. reflexivity. Qed.
Let Z4 : Z.of_nat (List.length i4) = BLOCK_SIZE.
Proof. rewrite L4. reflexivity. Qed.

Ltac peel :=
  rewrite block_write_other;
  [| rewrite ?len_file_write; layout; lia
   | rewrite ?Z1, ?Z2, ?Z3, ?Z4; cbn [List.length encode_jh le32 app];
     layout; lia ].

Lemma after_install_ibmap : block g5 INODE_BMAP_IDX = i1.
Proof.
  unfold g5, g4, g3, g2, g1. do 4 peel. apply block_write_same. exact L1.
Qed.

Lemma after_install_dbmap : block g5 DATA_BMAP_IDX = i2.
Proof.
  unfold g5, g4, g3, g2. do 3 peel. apply block_write_same. exact L2.
Qed.

Lemma after_install_root : block g5 DATA_START_IDX = i3.
Proof.
  unfold g5, g4, g3. do 2 peel. apply block_write_same. exact L3.
Qed.

Lemma after_install_inodes : block g5 t4 = i4.
Proof. unfold g5, g4. peel. apply block_write_same. exact L4. Qed.

Lemma after_install_other block_no :
  block_no < JOURNAL_BLOCK_IDX
  \/ JOURNAL_BLOCK_IDX + JOURNAL_BLOCKS <= block_no ->
  block_no <> INODE_BMAP_IDX -> block_no <> DATA_BMAP_IDX ->
  block_no <> DATA_START_IDX -> block_no <> t4 ->
  (block_no + 1) * BLOCK_SIZE <= len f ->
  block g5 block_no = block f block_no.
Proof.
  intros B N1 N2 N3 N4 Lb. unfold g5, g4, g3, g2, g1. do 5 peel.
  reflexivity.
Qed.

End AfterInstall.

(** X18. Create, then install, end to end.  On an image whose journal is
    empty (no magic in the header, or the magic and bytes-used at the
    header size), after a create that logged its transaction an install
    (uncapped, or with a cap of at least 1) returns having installed one
    transaction and leaves: the journal header with the magic and
    bytes-used reset to the header size; in the inode bitmap, the old
    bitmap with the new inode's bit set; the data bitmap as it was; in the
    root directory block, the old block with the new entry; in the inode
    table block of the new inode, the old block with the new inode
    initialised and entry 0's size grown; and every other block outside
    the journal region as it was. *)
Theorem create_then_install :
  forall file_name now s s1 fuel max_commits,
  create_journal file_name now s = Ok true s1 ->
  journal_pre (disk s) [] ->
  (7 <= fuel)%nat ->
  max_commits < 0 \/ 1 <= max_commits ->
  let d := disk s in
  let ibmap := block d INODE_BMAP_IDX in
  let root_data := block d DATA_START_IDX in
  let inode_idx := free_inode ibmap in
  let slot := free_dirent root_data in
  let iblk_no := INODE_START_IDX + inode_idx / (BLOCK_SIZE / INODE_SIZE) in
  exists s2,
    install_journal fuel max_commits s1 = Ok 1 s2
    /\ header (disk s2)
       = {| magic := JOURNAL_MAGIC; nbytes_used := sizeof_journal_header |}
    /\ block (disk s2) INODE_BMAP_IDX = set_bitmap ibmap inode_idx
    /\ block (disk s2) DATA_BMAP_IDX = block d DATA_BMAP_IDX
    /\ block (disk s2) DATA_START_IDX
       = add_dirent root_data slot inode_idx file_name
    /\ block (disk s2) iblk_no
       = grow_root (init_inode (block d iblk_no) inode_idx now) slot
    /\ forall block_no,
        block_no < JOURNAL_BLOCK_IDX
        \/ JOURNAL_BLOCK_IDX + JOURNAL_BLOCKS <= block_no ->
        block_no <> INODE_BMAP_IDX -> block_no <> DATA_BMAP_IDX ->
        block_no <> DATA_START_IDX -> block_no <> iblk_no ->
        (block_no + 1) * BLOCK_SIZE <= len d ->
        block (disk s2) block_no = block d block_no.
Proof.
  intros file_name now s s1 fuel max_commits H Hpre F Cap. cbv zeta.
  pose proof (create_journal_fits _ _ _ _ H) as Hfit.
  assert (Hroom : log_end sizeof_journal_header [] + tx_bytes
                  <= journal_size) by (vm_compute; discriminate).
  destruct (create_journal_log _ _ _ _ [] H Hpre Hroom) as [Hj Hframe].
  apply create_journal_Ok in H as (Hidx & _ & _ & _).
  pose proof (iblk_no_range _ (free_inode_range _ Hidx)) as Hblk.
  assert (Hm : Forall (fun tx : list (Z * bytes) => (List.length tx <= 4)%nat)
                 ([] ++ [create_tx (disk s) file_name now]))
    by (repeat constructor).
  destruct (install_journal_log 4 _ fuel max_commits s1 Hj
              ltac:(discriminate) Hm
              ltac:(cbn [List.length app]; lia)) as (s2 & Hrun & Hdisk & _).
  assert (K : applied max_commits
                (List.length ([] ++ [create_tx (disk s) file_name now]))
              = 1%nat).
  { unfold applied. cbn [List.length app].
    destruct (Z.ltb_spec max_commits 0); [reflexivity|]. lia. }
  rewrite K in Hrun, Hdisk.
  exists s2. split; [exact Hrun|].
  cbn [firstn List.concat app] in Hdisk. rewrite app_nil_r in Hdisk.
  assert (Len1 : (DATA_START_IDX + 1) * BLOCK_SIZE <= len (disk s1)).
  { apply (Hframe DATA_START_IDX); [right; layout; lia | exact Hfit]. }
  unfold create_tx in Hdisk. cbv zeta in Hdisk.
  rewrite after_install_eq in Hdisk. rewrite Hdisk.
  pose proof (length_block (disk s) DATA_BMAP_IDX) as L2.
  pose proof (length_block (disk s) INODE_BMAP_IDX) as L1.
  rewrite <- (length_set_bitmap _ (free_inode (block (disk s) INODE_BMAP_IDX)))
    in L1.
  pose proof (length_block (disk s) DATA_START_IDX) as L3.
  rewrite <- (length_add_dirent _
                (free_dirent (block (disk s) DATA_START_IDX))
                (free_inode (block (disk s) INODE_BMAP_IDX)) file_name)
    in L3.
  pose proof (length_block (disk s)
                (INODE_START_IDX
                 + free_inode (block (disk s) INODE_BMAP_IDX)
                   / (BLOCK_SIZE / INODE_SIZE))) as L4.
  rewrite <- (length_init_inode _
                (free_inode (block (disk s) INODE_BMAP_IDX)) now) in L4.
  rewrite <- (length_grow_root _
                (free_dirent (block (disk s) DATA_START_IDX))) in L4.
  split; [apply header_after_reset|].
  split; [|split; [|split; [|split]]].
  - apply after_install_ibmap; assumption.
  - apply after_install_dbmap; assumption.
  - apply after_install_root; assumption.
  - apply after_install_inodes; assumption.
  - intros b B N1 N2 N3 N4 Lb. destruct (Hframe b B Lb) as [Eb Lb1].
    rewrite after_install_other; assumption.
Qed.

Lemma create_then_install_witness :
  exists s2,
    install_journal 7 (-1) (run (create_journal "notes" 1000) (boot crowded))
    = Ok 1 s2
    /\ block (disk s2) DATA_BMAP_IDX = block crowded DATA_BMAP_IDX
    /\ block (disk s2) 40 = block crowded 40.
Proof.
  destruct (create_then_install "notes" 1000 (boot crowded)
              (run (create_journal "notes" 1000) (boot crowded)) 7 (-1))
    as (s2 & R & _ & _ & D & _ & _ & O).
  - apply (ok_run Bool.eqb). vm_compute. reflexivity.
  - left. split; [vm_compute; discriminate | reflexivity].
  - apply Nat.le_refl.
  - left. reflexivity.
  - exists s2. split; [exact R|]. split; [exact D|]. clear R D.
    apply (O 40); [right; evaluated | evaluated ..].
Defined.

(** ** The bitmap *)

Lemma land_bit x k :
  0 <= k -> (Z.land x (Z.shiftl 1 k) =? 0) = negb (Z.testbit x k).
Proof.
  intros Hk. rewrite Z.shiftl_1_l.
  destruct (Z.testbit x k) eqn:T; cbn [negb].
  - apply Z.eqb_neq. intros E.
    assert (B : Z.testbit (Z.land x (2 ^ k)) k = true)
      by (rewrite Z.land_spec, T, Z.pow2_bits_true; [reflexivity | lia]).
    rewrite E, Z.bits_0 in B. discriminate.
  - apply Z.eqb_eq. apply Z.bits_inj'. intros n Hn.
    rewrite Z.land_spec, Z.bits_0, Z.pow2_bits_eqb by lia.
    destruct (Z.eqb_spec k n) as [->|N].
    + rewrite T. reflexivity.
    + apply andb_false_r.
Qed.

Lemma inode_bit_testbit bmap i :
  inode_bit bmap i = Z.testbit (get bmap (i / 8)) (i mod 8).
Proof.
  unfold inode_bit. rewrite land_bit.
  - apply negb_involutive.
  - apply Z.mod_pos_bound. lia.
Qed.

Lemma u8_bit k : 0 <= k < 8 -> u8 (Z.shiftl 1 k) = 2 ^ k.
Proof.
  intros H. rewrite Z.shiftl_1_l. unfold u8. apply Z.mod_small.
  split; [apply Z.pow_nonneg; lia|].
  change 256 with (2 ^ 8). apply Z.pow_lt_mono_r; lia.
Qed.

(** [set_bitmap] sets bit [i] and changes no other bit. *)
Lemma inode_bit_set_bitmap bmap i j :
  0 <= i -> i / 8 < Z.of_nat (List.length bmap) -> 0 <= j ->
  inode_bit (set_bitmap bmap i) j = (j =? i) || inode_bit bmap j.
Proof.
  intros Hi Hl Hj. rewrite !inode_bit_testbit. unfold set_bitmap.
  assert (Hi8 : 0 <= i / 8) by (apply Z.div_pos; lia).
  assert (Hj8 : 0 <= j / 8) by (apply Z.div_pos; lia).
  assert (Mi : 0 <= i mod 8 < 8) by (apply Z.mod_pos_bound; lia).
  assert (Mj : 0 <= j mod 8 < 8) by (apply Z.mod_pos_bound; lia).
  rewrite get_set by assumption.
  destruct (Z.eqb_spec (j / 8) (i / 8)) as [E8|N8]; cbn [andb].
  - replace (i / 8 <? Z.of_nat (List.length bmap)) with true
      by (symmetry; apply Z.ltb_lt; exact Hl).
    rewrite u8_bit by exact Mi.
    rewrite Z.lor_spec, Z.pow2_bits_eqb by lia. rewrite <- E8.
    rewrite orb_comm. f_equal.
    destruct (Z.eqb_spec (i mod 8) (j mod 8)) as [Em|Nm];
      destruct (Z.eqb_spec j i) as [Ej|Nj]; try reflexivity; exfalso.
    + apply Nj. rewrite (Z.div_mod j 8), (Z.div_mod i 8) by lia. lia.
    + apply Nm. subst j. reflexivity.
  - destruct (Z.eqb_spec j i) as [->|_]; [congruence | reflexivity].
Qed.

(** X3. [set_bitmap] sets bit [i] of the bitmap and changes no other bit
    and not the bitmap's length, whatever the bitmap held. *)
Theorem set_bitmap_sets_one_bit :
  forall bmap i,
    0 <= i -> i / 8 < Z.of_nat (List.length bmap) ->
    List.length (set_bitmap bmap i) = List.length bmap
    /\ forall j, 0 <= j ->
         inode_bit (set_bitmap bmap i) j = (j =? i) || inode_bit bmap j.
Proof.
  intros bmap i Hi Hl. split; [apply length_set_bitmap|].
  intros j Hj. apply inode_bit_set_bitmap; assumption.
Qed.

Lemma set_bitmap_sets_one_bit_witness :
  List.length (set_bitmap [5; 0] 11) = List.length [5; 0]
  /\ forall j, 0 <= j ->
       inode_bit (set_bitmap [5; 0] 11) j = (j =? 11) || inode_bit [5; 0] j.
Proof.
  apply (set_bitmap_sets_one_bit [5; 0] 11); evaluated.
Defined.

(** X4. The inode just marked is not handed out again: on a bitmap that
    holds the 64 inode bits, after [set_bitmap] of the inode [free_inode]
    returned, [free_inode] reports exhaustion or returns a larger index. *)
Theorem free_inode_skips_marked :
  forall bmap,
    max_inodes <= 8 * Z.of_nat (List.length bmap) ->
    0 <= free_inode bmap ->
    free_inode (set_bitmap bmap (free_inode bmap)) = -1
    \/ free_inode bmap < free_inode (set_bitmap bmap (free_inode bmap)).
Proof.
  intros bmap Hl Hi. change max_inodes with 64 in Hl.
  destruct (free_inode_spec bmap) as [[E _]|(R & B & A)]; [lia|].
  change max_inodes with 64 in R.
  set (i := free_inode bmap) in *.
  assert (Hi8 : i / 8 < Z.of_nat (List.length bmap)).
  { assert (i / 8 < 8) by (apply Z.div_lt_upper_bound; lia). lia. }
  destruct (free_inode_spec (set_bitmap bmap i)) as [[E _]|(R' & B' & _)];
    [left; exact E | right].
  set (r := free_inode (set_bitmap bmap i)) in *.
  rewrite inode_bit_set_bitmap in B' by lia.
  apply orb_false_iff in B' as [Ne Br]. apply Z.eqb_neq in Ne.
  destruct (Z.lt_ge_cases r i) as [Lt|Ge]; [|lia].
  rewrite (A r) in Br by lia. discriminate.
Qed.

Lemma free_inode_skips_marked_witness :
  free_inode (set_bitmap (repeat 255 7 ++ [127]) 63) = -1
  \/ 63 < free_inode (set_bitmap (repeat 255 7 ++ [127]) 63).
Proof.
  apply (free_inode_skips_marked (repeat 255 7 ++ [127])); evaluated.
Defined.

(** ** The new directory entry and the new inode *)

Lemma get_blit_in src b i j :
  0 <= i -> i + Z.of_nat (List.length src) <= Z.of_nat (List.length b) ->
  i <= j < i + Z.of_nat (List.length src) ->
  get (blit b i src) j = get src (j - i).
Proof.
  intros Hi Hf Hj. rewrite get_blit by lia.
  replace ((i <=? j) && (j <? i + Z.of_nat (List.length src))) with true;
    [reflexivity|].
  symmetry. apply andb_true_iff. split; [apply Z.leb_le | apply Z.ltb_lt]; lia.
Qed.

Lemma get_blit_out src b i j :
  0 <= i -> i + Z.of_nat (List.length src) <= Z.of_nat (List.length b) ->
  0 <= j -> j < i \/ i + Z.of_nat (List.length src) <= j ->
  get (blit b i src) j = get b j.
Proof.
  intros Hi Hf Hj Ho. rewrite get_blit by lia.
  replace ((i <=? j) && (j <? i + Z.of_nat (List.length src))) with false;
    [reflexivity|].
  symmetry. apply andb_false_iff.
  destruct Ho; [left; apply Z.leb_gt | right; apply Z.ltb_ge]; lia.
Qed.

Lemma rd32_put32 b i v :
  0 <= i -> i + 4 <= Z.of_nat (List.length b) -> 0 <= v < 4294967296 ->
  rd32 (put32 b i v) i = v.
Proof.
  intros Hi Hf Hv. unfold rd32, put32.
  rewrite !get_blit_in by (cbn [le32 List.length]; lia).
  replace (i - i) with 0 by lia. replace (i + 1 - i) with 1 by lia.
  replace (i + 2 - i) with 2 by lia. replace (i + 3 - i) with 3 by lia.
  apply (le32_range v Hv).
Qed.

Lemma rd16_put16 b i v :
  0 <= i -> i + 2 <= Z.of_nat (List.length b) -> 0 <= v < 65536 ->
  rd16 (put16 b i v) i = v.
Proof.
  intros Hi Hf Hv. unfold rd16, put16.
  rewrite !get_blit_in by (cbn [le16 List.length]; lia).
  replace (i - i) with 0 by lia. replace (i + 1 - i) with 1 by lia.
  apply (le16_range v Hv).
Qed.

Lemma rd32_outside b b' i :
  (forall k, 0 <= k < 4 -> get b' (i + k) = get b (i + k)) ->
  rd32 b' i = rd32 b i.
Proof.
  intros H. unfold rd32.
  rewrite <- (Z.add_0_r i) at 1 5. rewrite !H by lia.
  rewrite Z.add_0_r. reflexivity.
Qed.

Lemma rd16_outside b b' i :
  (forall k, 0 <= k < 2 -> get b' (i + k) = get b (i + k)) ->
  rd16 b' i = rd16 b i.
Proof.
  intros H. unfold rd16.
  rewrite <- (Z.add_0_r i) at 1 3. rewrite !H by lia.
  rewrite Z.add_0_r. reflexivity.
Qed.

Lemma get_put16_out b i v j :
  0 <= i -> i + 2 <= Z.of_nat (List.length b) -> 0 <= j ->
  j < i \/ i + 2 <= j -> get (put16 b i v) j = get b j.
Proof.
  intros. unfold put16. apply get_blit_out; cbn [le16 List.length]; lia.
Qed.

Lemma length_put32 b i v : List.length (put32 b i v) = List.length b.
Proof. apply length_blit. Qed.

Lemma length_put16 b i v : List.length (put16 b i v) = List.length b.
Proof. apply length_blit. Qed.

Lemma length_memset b i c n : List.length (memset b i c n) = List.length b.
Proof. apply length_blit. Qed.

Lemma get_repeat c n k : 0 <= k < Z.of_nat n -> get (repeat c n) k = c.
Proof.
  intros H. unfold get.
  apply nth_repeat_lt. lia.
Qed.

Lemma get_memset_in b i c n j :
  0 <= i -> i + Z.of_nat n <= Z.of_nat (List.length b) ->
  i <= j < i + Z.of_nat n -> get (memset b i c n) j = c.
Proof.
  intros Hi Hf Hj. unfold memset.
  rewrite get_blit_in by (rewrite ?repeat_length; lia).
  apply get_repeat. lia.
Qed.

Lemma get_memset_out b i c n j :
  0 <= i -> i + Z.of_nat n <= Z.of_nat (List.length b) -> 0 <= j ->
  j < i \/ i + Z.of_nat n <= j -> get (memset b i c n) j = get b j.
Proof.
  intros Hi Hf Hj Ho. unfold memset.
  apply get_blit_out; rewrite ?repeat_length; lia.
Qed.

(** Every byte of the block outside the entry of slot [slot] is as it
    was; in the entry, [add_dirent] leaves byte 31 alone. *)
Lemma get_add_dirent_out root_data slot inode_idx file_name j :
  Z.of_nat (List.length root_data) = BLOCK_SIZE ->
  0 <= slot < dirent_slots -> 0 <= j ->
  j < slot * sizeof_dirent \/ slot * sizeof_dirent + 31 <= j ->
  get (add_dirent root_data slot inode_idx file_name) j = get root_data j.
Proof.
  intros L Hs Hj Ho. change dirent_slots with 128 in Hs.
  unfold add_dirent, dirent_name, dirent_inode.
  rewrite get_strncpy by (rewrite ?length_put32; layout; lia).
  replace ((slot * sizeof_dirent + 4 <=? j)
           && (j <? slot * sizeof_dirent + 4 + Z.of_nat 27)) with false
    by (symmetry; apply andb_false_iff;
        destruct Ho; [left; apply Z.leb_gt | right; apply Z.ltb_ge];
        layout; lia).
  apply get_put32_outside; layout; lia.
Qed.

Lemma rd32_add_dirent root_data slot inode_idx file_name :
  Z.of_nat (List.length root_data) = BLOCK_SIZE ->
  0 <= slot < dirent_slots -> 0 <= inode_idx < 4294967296 ->
  rd32 (add_dirent root_data slot inode_idx file_name)
       (slot * sizeof_dirent + dirent_inode)
  = inode_idx.
Proof.
  intros L Hs Hi. change dirent_slots with 128 in Hs.
  unfold add_dirent, dirent_name, dirent_inode.
  rewrite <- (rd32_put32 root_data (slot * sizeof_dirent + 0) inode_idx)
    at 2 by (layout; lia).
  apply rd32_outside. intros k Hk.
  rewrite get_strncpy by (rewrite ?length_put32; layout; lia).
  replace ((slot * sizeof_dirent + 4 <=? slot * sizeof_dirent + 0 + k)
           && (slot * sizeof_dirent + 0 + k
               <? slot * sizeof_dirent + 4 + Z.of_nat 27)) with false;
    [reflexivity|].
  symmetry. apply andb_false_iff. left. apply Z.leb_gt. lia.
Qed.

Lemma name0_add_dirent root_data slot inode_idx file_name j :
  Z.of_nat (List.length root_data) = BLOCK_SIZE ->
  0 <= slot < dirent_slots -> 0 <= j ->
  name0 (add_dirent root_data slot inode_idx file_name) j
  = if j =? slot then get (c_str file_name) 0 else name0 root_data j.
Proof.
  intros L Hs Hj. change dirent_slots with 128 in Hs. unfold name0.
  destruct (Z.eqb_spec j slot) as [->|N].
  - unfold add_dirent.
    rewrite get_strncpy by (rewrite ?length_put32; layout;
                            unfold dirent_name; lia).
    replace ((slot * sizeof_dirent + dirent_name
              <=? slot * sizeof_dirent + dirent_name)
             && (slot * sizeof_dirent + dirent_name
                 <? slot * sizeof_dirent + dirent_name + Z.of_nat 27))
      with true.
    + f_equal. lia.
    + symmetry. apply andb_true_iff.
      split; [apply Z.leb_le | apply Z.ltb_lt]; lia.
  - apply get_add_dirent_out; try assumption; unfold dirent_name; layout;
      lia.
Qed.

Lemma c_str_head file_name c rest :
  c_str file_name = c :: rest -> c <> 0.
Proof.
  destruct file_name as [|a s]; cbn [c_str]; [discriminate|].
  destruct (Z.eqb_spec (char_code a) 0) as [E|N]; [discriminate|].
  intros H. injection H as <- _. exact N.
Qed.

(** X5. The directory entry create fills (lines 136-137): the entry of
    slot [slot] holds the inode number in its [inode] field, and every byte
    of the directory block outside the first 31 bytes of that entry is as
    it was. *)
Theorem add_dirent_records_inode :
  forall root_data slot inode_idx file_name,
    Z.of_nat (List.length root_data) = BLOCK_SIZE ->
    0 <= slot < dirent_slots -> 0 <= inode_idx < 4294967296 ->
    rd32 (add_dirent root_data slot inode_idx file_name)
         (slot * sizeof_dirent + dirent_inode)
    = inode_idx
    /\ forall j, 0 <= j ->
         j < slot * sizeof_dirent \/ slot * sizeof_dirent + 31 <= j ->
         get (add_dirent root_data slot inode_idx file_name) j
         = get root_data j.
Proof.
  intros root_data slot inode_idx file_name L Hs Hi. split.
  - apply rd32_add_dirent; assumption.
  - intros j Hj Ho. apply get_add_dirent_out; assumption.
Qed.

Lemma add_dirent_records_inode_witness :
  rd32 (add_dirent (block blank DATA_START_IDX) 5 9 "notes")
       (5 * sizeof_dirent + dirent_inode)
  = 9
  /\ forall j, 0 <= j ->
       j < 5 * sizeof_dirent \/ 5 * sizeof_dirent + 31 <= j ->
       get (add_dirent (block blank DATA_START_IDX) 5 9 "notes") j
       = get (block blank DATA_START_IDX) j.
Proof.
  apply (add_dirent_records_inode (block blank DATA_START_IDX) 5 9 "notes");
    evaluated.
Defined.

(** X6. With a name that is not empty, the directory slot just filled is
    not handed out again: [free_dirent] on the block with the new entry
    reports exhaustion or returns a larger slot. *)
Theorem free_dirent_skips_named :
  forall root_data inode_idx file_name,
    Z.of_nat (List.length root_data) = BLOCK_SIZE ->
    c_str file_name <> [] ->
    0 <= free_dirent root_data ->
    free_dirent (add_dirent root_data (free_dirent root_data) inode_idx
                            file_name) = -1
    \/ free_dirent root_data
       < free_dirent (add_dirent root_data (free_dirent root_data) inode_idx
                                 file_name).
Proof.
  intros root_data inode_idx file_name L Hn Hs.
  destruct (free_dirent_spec root_data) as [[E _]|(R & B & A)]; [lia|].
  set (slot := free_dirent root_data) in *.
  destruct (free_dirent_spec (add_dirent root_data slot inode_idx file_name))
    as [[E _]|(R' & B' & _)]; [left; exact E | right].
  set (r := free_dirent (add_dirent root_data slot inode_idx file_name)) in *.
  rewrite name0_add_dirent in B' by (assumption || lia).
  revert B'. destruct (Z.eqb_spec r slot) as [Eq|N]; intros B'.
  - destruct (c_str file_name) as [|c rest] eqn:Ec; [congruence|].
    apply c_str_head in Ec. exfalso. exact (Ec B').
  - destruct (Z.lt_ge_cases r slot) as [Lt|Ge]; [|lia].
    exfalso. apply (A r); [lia | exact B'].
Qed.

Lemma free_dirent_skips_named_witness :
  free_dirent (add_dirent (block blank DATA_START_IDX) 0 7 "notes") = -1
  \/ 0 < free_dirent (add_dirent (block blank DATA_START_IDX) 0 7 "notes").
Proof.
  apply (free_dirent_skips_named (block blank DATA_START_IDX) 7 "notes");
    evaluated.
Defined.

(** X7. For a name whose first byte is NUL (the empty C string) the slot
    stays free on whatever directory block: [free_dirent] returns the very
    slot that was just filled. *)
Theorem free_dirent_returns_unnamed :
  forall root_data inode_idx file_name,
    Z.of_nat (List.length root_data) = BLOCK_SIZE ->
    c_str file_name = [] ->
    0 <= free_dirent root_data ->
    free_dirent (add_dirent root_data (free_dirent root_data) inode_idx
                            file_name)
    = free_dirent root_data.
Proof.
  intros root_data inode_idx file_name L Hn Hs.
  destruct (free_dirent_spec root_data) as [[E _]|(R & B & A)]; [lia|].
  set (slot := free_dirent root_data) in *.
  assert (N0 : forall j, 0 <= j ->
             name0 (add_dirent root_data slot inode_idx file_name) j
             = name0 root_data j).
  { intros j Hj. rewrite name0_add_dirent by (assumption || lia).
    destruct (Z.eqb_spec j slot) as [->|_]; [|reflexivity].
    rewrite Hn, B. reflexivity. }
  destruct (free_dirent_spec (add_dirent root_data slot inode_idx file_name))
    as [[_ A']|(R' & B' & A')].
  - exfalso. apply (A' slot R). rewrite N0 by lia. exact B.
  - set (r := free_dirent (add_dirent root_data slot inode_idx file_name)) in *. rewrite N0 in B' by lia.
    destruct (Z.lt_trichotomy r slot) as [Lt|[Eq|Gt]]; [|exact Eq|].
    + exfalso. apply (A r); [lia | exact B'].
    + exfalso. apply (A' slot); [lia|]. rewrite N0 by lia. exact B.
Qed.

Lemma free_dirent_returns_unnamed_witness :
  free_dirent (add_dirent (block crowded DATA_START_IDX) 31 32 EmptyString)
  = 31.
Proof.
  apply (free_dirent_returns_unnamed (block crowded DATA_START_IDX) 32
           EmptyString);
    evaluated.
Defined.

(** ** The new inode and the root inode's size *)

Lemma new_ino_range inode_idx :
  0 <= (inode_idx mod (BLOCK_SIZE / INODE_SIZE)) * sizeof_inode
  /\ (inode_idx mod (BLOCK_SIZE / INODE_SIZE)) * sizeof_inode + sizeof_inode
     <= BLOCK_SIZE.
Proof.
  change (BLOCK_SIZE / INODE_SIZE) with 32.
  pose proof (Z.mod_pos_bound inode_idx 32 ltac:(lia)). layout. lia.
Qed.

(** A byte of the new inode's 128-byte entry, by its offset [k] in the
    entry; a byte outside the entry is as it was. *)
Lemma get_init_inode ino_blk inode_idx now k :
  Z.of_nat (List.length ino_blk) = BLOCK_SIZE ->
  0 <= k < sizeof_inode ->
  get (init_inode ino_blk inode_idx now)
      ((inode_idx mod (BLOCK_SIZE / INODE_SIZE)) * sizeof_inode + k)
  = if (inode_ctime <=? k) && (k <? inode_ctime + 4)
    then get (le32 (u32 now)) (k - inode_ctime)
    else if (inode_mtime <=? k) && (k <? inode_mtime + 4)
    then get (le32 (u32 now)) (k - inode_mtime)
    else if (inode_links <=? k) && (k <? inode_links + 2)
    then get (le16 1) (k - inode_links)
    else if (inode_type <=? k) && (k <? inode_type + 2)
    then get (le16 1) (k - inode_type)
    else 0.
Proof.
  intros L Hk. pose proof (new_ino_range inode_idx) as [B0 B1].
  unfold init_inode.
  set (base := inode_idx mod (BLOCK_SIZE / INODE_SIZE) * sizeof_inode) in *.
  unfold put32, put16, memset.
  rewrite !get_blit
    by (rewrite ?length_blit, ?repeat_length; cbn [le32 le16 List.length];
        layout; unfold inode_ctime, inode_mtime, inode_links, inode_type;
        lia).
  cbn [le32 le16 List.length]. rewrite repeat_length.
  replace ((base + inode_ctime <=? base + k)
           && (base + k <? base + inode_ctime + Z.of_nat 4))
    with ((inode_ctime <=? k) && (k <? inode_ctime + 4))
    by (f_equal; [apply eq_true_iff_eq; rewrite !Z.leb_le
                 | apply eq_true_iff_eq; rewrite !Z.ltb_lt]; lia).
  replace ((base + inode_mtime <=? base + k)
           && (base + k <? base + inode_mtime + Z.of_nat 4))
    with ((inode_mtime <=? k) && (k <? inode_mtime + 4))
    by (f_equal; [apply eq_true_iff_eq; rewrite !Z.leb_le
                 | apply eq_true_iff_eq; rewrite !Z.ltb_lt]; lia).
  replace ((base + inode_links <=? base + k)
           && (base + k <? base + inode_links + Z.of_nat 2))
    with ((inode_links <=? k) && (k <? inode_links + 2))
    by (f_equal; [apply eq_true_iff_eq; rewrite !Z.leb_le
                 | apply eq_true_iff_eq; rewrite !Z.ltb_lt]; lia).
  replace ((base + inode_type <=? base + k)
           && (base + k <? base + inode_type + Z.of_nat 2))
    with ((inode_type <=? k) && (k <? inode_type + 2))
    by (f_equal; [apply eq_true_iff_eq; rewrite !Z.leb_le
                 | apply eq_true_iff_eq; rewrite !Z.ltb_lt]; lia).
  replace ((base <=? base + k)
           && (base + k <? base + Z.of_nat (Z.to_nat sizeof_inode)))
    with true
    by (symmetry; apply andb_true_iff;
        split; [apply Z.leb_le | apply Z.ltb_lt]; layout; lia).
  replace (base + k - (base + inode_ctime)) with (k - inode_ctime) by lia.
  replace (base + k - (base + inode_mtime)) with (k - inode_mtime) by lia.
  replace (base + k - (base + inode_links)) with (k - inode_links) by lia.
  replace (base + k - (base + inode_type)) with (k - inode_type) by lia.
  replace (get (repeat 0 (Z.to_nat sizeof_inode)) (base + k - base)) with 0
    by (symmetry; apply get_repeat; layout; lia).
  reflexivity.
Qed.

Lemma get_init_inode_out ino_blk inode_idx now j :
  Z.of_nat (List.length ino_blk) = BLOCK_SIZE -> 0 <= j ->
  j < (inode_idx mod (BLOCK_SIZE / INODE_SIZE)) * sizeof_inode
  \/ (inode_idx mod (BLOCK_SIZE / INODE_SIZE)) * sizeof_inode + sizeof_inode
     <= j ->
  get (init_inode ino_blk inode_idx now) j = get ino_blk j.
Proof.
  intros L Hj Ho. pose proof (new_ino_range inode_idx) as [B0 B1].
  unfold init_inode.
  set (base := inode_idx mod (BLOCK_SIZE / INODE_SIZE) * sizeof_inode) in *.
  rewrite !get_put32_outside, !get_put16_out
    by (rewrite ?length_put32, ?length_put16, ?length_memset;
        unfold inode_ctime, inode_mtime, inode_links, inode_type;
        layout; lia).
  apply get_memset_out; layout; lia.
Qed.

(** X9. Initialising the new inode (lines 142-145) leaves the other 31
    inodes of the table block alone: every byte outside the new inode's
    128 bytes is as it was. *)
Theorem new_inode_leaves_others :
  forall ino_blk inode_idx now j,
    Z.of_nat (List.length ino_blk) = BLOCK_SIZE -> 0 <= j ->
    j < (inode_idx mod (BLOCK_SIZE / INODE_SIZE)) * sizeof_inode
    \/ (inode_idx mod (BLOCK_SIZE / INODE_SIZE)) * sizeof_inode
       + sizeof_inode <= j ->
    get (init_inode ino_blk inode_idx now) j = get ino_blk j.
Proof. exact get_init_inode_out. Qed.


Lemma new_inode_leaves_others_witness :
  get (init_inode (block crowded INODE_START_IDX) 37 1000) 4
  = get (block crowded INODE_START_IDX) 4.
Proof.
  apply (new_inode_leaves_others (block crowded INODE_START_IDX) 37 1000 4);
    [evaluated | evaluated | left; evaluated].
Defined.

Lemma init_inode_fields ino_blk inode_idx now :
  Z.of_nat (List.length ino_blk) = BLOCK_SIZE ->
  let b := init_inode ino_blk inode_idx now in
  let ino := (inode_idx mod (BLOCK_SIZE / INODE_SIZE)) * sizeof_inode in
  rd16 b (ino + inode_type) = 1
  /\ rd16 b (ino + inode_links) = 1
  /\ rd32 b (ino + inode_size) = 0
  /\ rd32 b (ino + inode_ctime) = u32 now
  /\ rd32 b (ino + inode_mtime) = u32 now
  /\ (forall k, inode_size + 4 <= k < inode_ctime -> get b (ino + k) = 0)
  /\ (forall k, inode_mtime + 4 <= k < sizeof_inode -> get b (ino + k) = 0).
Proof.
  intros L. cbv zeta.
  assert (Hu : 0 <= u32 now < 4294967296)
    by (unfold u32; apply Z.mod_pos_bound; lia).
  pose proof (le32_range (u32 now) Hu) as E32.
  unfold rd16, rd32.
  rewrite <- !Z.add_assoc.
  rewrite !get_init_inode
    by (try assumption;
        unfold inode_type, inode_links, inode_size, inode_ctime, inode_mtime;
        layout; lia).
  unfold inode_type, inode_links, inode_size, inode_ctime, inode_mtime.
  cbn [Z.leb Z.ltb Z.add Z.sub Z.compare Pos.compare Pos.compare_cont
       Pos.add Pos.succ Z.pos_sub Z.opp Pos.pred_double Z.succ_double
       Z.pred_double Z.double andb].
  repeat split; try reflexivity; try (rewrite !Z.add_assoc; exact E32).
  - intros k Hk. rewrite get_init_inode by (try assumption; layout; lia).
    unfold inode_type, inode_links, inode_size, inode_ctime, inode_mtime.
    repeat match goal with
    | |- context [?a <=? ?b] =>
        destruct (Z.leb_spec a b); cbn [andb]; try lia
    | |- context [?a <? ?b] =>
        destruct (Z.ltb_spec a b); cbn [andb]; try lia
    end; reflexivity.
  - intros k Hk. rewrite get_init_inode by (try assumption; layout; lia).
    unfold inode_type, inode_links, inode_size, inode_ctime, inode_mtime.
    repeat match goal with
    | |- context [?a <=? ?b] =>
        destruct (Z.leb_spec a b); cbn [andb]; try lia
    | |- context [?a <? ?b] =>
        destruct (Z.ltb_spec a b); cbn [andb]; try lia
    end; reflexivity.
Qed.

(** X8. The inode create initialises (lines 143-145), whatever the table
    block held: type 1, one link, size 0, creation and modification time
    the current time as a [uint32_t], and zero in the eight direct pointers
    and in the padding. *)
Theorem new_inode_fields :
  forall ino_blk inode_idx now,
    Z.of_nat (List.length ino_blk) = BLOCK_SIZE ->
    let b := init_inode ino_blk inode_idx now in
    let ino := (inode_idx mod (BLOCK_SIZE / INODE_SIZE)) * sizeof_inode in
    rd16 b (ino + inode_type) = 1
    /\ rd16 b (ino + inode_links) = 1
    /\ rd32 b (ino + inode_size) = 0
    /\ rd32 b (ino + inode_ctime) = u32 now
    /\ rd32 b (ino + inode_mtime) = u32 now
    /\ (forall k, inode_size + 4 <= k < inode_ctime -> get b (ino + k) = 0)
    /\ (forall k, inode_mtime + 4 <= k < sizeof_inode ->
          get b (ino + k) = 0).
Proof. exact init_inode_fields. Qed.


Lemma new_inode_fields_witness :
  let b := init_inode (block crowded INODE_START_IDX) 37 1000 in
  let ino := (37 mod (BLOCK_SIZE / INODE_SIZE)) * sizeof_inode in
  rd16 b (ino + inode_type) = 1
  /\ rd16 b (ino + inode_links) = 1
  /\ rd32 b (ino + inode_size) = 0
  /\ rd32 b (ino + inode_ctime) = u32 1000
  /\ rd32 b (ino + inode_mtime) = u32 1000
  /\ (forall k, inode_size + 4 <= k < inode_ctime -> get b (ino + k) = 0)
  /\ (forall k, inode_mtime + 4 <= k < sizeof_inode -> get b (ino + k) = 0).
Proof.
  apply (new_inode_fields (block crowded INODE_START_IDX) 37 1000).
  evaluated.
Defined.

Lemma grow_root_size ino_blk slot :
  8 <= Z.of_nat (List.length ino_blk) ->
  rd32 (grow_root ino_blk slot) inode_size
  = Z.max (rd32 ino_blk inode_size) (u32 ((slot + 1) * sizeof_dirent))
  /\ forall j, 0 <= j -> j < inode_size \/ inode_size + 4 <= j ->
       get (grow_root ino_blk slot) j = get ino_blk j.
Proof.
  intros L. unfold grow_root. cbn [Z.mul Z.add].
  set (needed := u32 ((slot + 1) * sizeof_dirent)).
  assert (Hn : 0 <= needed < 4294967296)
    by (unfold needed, u32; apply Z.mod_pos_bound; lia).
  unfold inode_size in *.
  destruct (Z.ltb_spec (rd32 ino_blk 4) needed) as [Lt|Ge].
  - split.
    + rewrite rd32_put32 by lia. lia.
    + intros j Hj Ho. apply get_put32_outside; lia.
  - split; [lia | reflexivity].
Qed.

(** X10. Lines 147-149 leave in the size field of entry 0 of the table
    block the larger of its old value and the offset past slot [slot]
    (the size never shrinks), and touch no other byte of the block. *)
Theorem grow_root_takes_max :
  forall ino_blk slot,
    8 <= Z.of_nat (List.length ino_blk) ->
    rd32 (grow_root ino_blk slot) inode_size
    = Z.max (rd32 ino_blk inode_size) (u32 ((slot + 1) * sizeof_dirent))
    /\ forall j, 0 <= j -> j < inode_size \/ inode_size + 4 <= j ->
         get (grow_root ino_blk slot) j = get ino_blk j.
Proof. exact grow_root_size. Qed.


Lemma grow_root_takes_max_witness :
  rd32 (grow_root (block crowded INODE_START_IDX) 3) inode_size
  = Z.max (rd32 (block crowded INODE_START_IDX) inode_size)
          (u32 ((3 + 1) * sizeof_dirent))
  /\ forall j, 0 <= j -> j < inode_size \/ inode_size + 4 <= j ->
       get (grow_root (block crowded INODE_START_IDX) 3) j
       = get (block crowded INODE_START_IDX) j.
Proof.
  apply (grow_root_takes_max (block crowded INODE_START_IDX) 3). evaluated.
Defined.

(** ** The block store *)

Lemma write_block_Ok block_no buf s :
  write_block block_no buf s
  = Ok tt {| disk := file_write (disk s) (block_no * BLOCK_SIZE)
                                (firstn (Z.to_nat BLOCK_SIZE) buf);
             log := log s ++ [Pwrite (block_no * BLOCK_SIZE)
                                     (firstn (Z.to_nat BLOCK_SIZE) buf)] |}.
Proof. reflexivity. Qed.

(** ** Short images *)

Lemma read_block_short block_no s :
  len (disk s) < (block_no + 1) * BLOCK_SIZE -> read_block block_no s = Die.
Proof.
  intros H. unfold read_block, pread.
  destruct (Z.leb_spec (block_no * BLOCK_SIZE + BLOCK_SIZE) (len (disk s)));
    [layout; lia | reflexivity].
Qed.

Ltac read_fits :=
  match goal with
  | |- context [bind (read_block ?b) ?k ?s0] =>
      rewrite (bind_eq_Ok (read_block b) k s0 _ _
                 (read_block_fits b s0 ltac:(cbn [disk]; layout; lia)))
  | |- context [bind (pread ?n ?o) ?k ?s0] =>
      rewrite (bind_eq_Ok (pread n o) k s0 _ _
                 (pread_fits n o s0 ltac:(cbn [disk]; layout; lia)))
  end.

Lemma create_journal_returns file_name now s :
  (DATA_START_IDX + 1) * BLOCK_SIZE <= len (disk s) ->
  exists b s', create_journal file_name now s = Ok b s'.
Proof.
  intros L. unfold create_journal.
  do 3 read_fits. cbn [disk log].
  set (inode_idx := free_inode (block (disk s) INODE_BMAP_IDX)).
  set (slot := free_dirent (block (disk s) DATA_START_IDX)).
  destruct ((inode_idx <? 0) || (slot <? 0)) eqn:E.
  { eexists. eexists. reflexivity. }
  apply orb_false_iff in E as [E1 _]. apply Z.ltb_ge in E1.
  pose proof (iblk_no_range _ (free_inode_range _ E1)) as Hblk.
  fold inode_idx in Hblk.
  set (iblk_no := INODE_START_IDX + inode_idx / (BLOCK_SIZE / INODE_SIZE))
    in *.
  read_fits. unfold journal_read. read_fits.
  eexists. eexists. reflexivity.
Qed.

Lemma create_journal_short file_name now s :
  len (disk s) < (DATA_START_IDX + 1) * BLOCK_SIZE ->
  create_journal file_name now s = Die.
Proof.
  intros L. unfold create_journal.
  destruct (Z.le_gt_cases ((INODE_BMAP_IDX + 1) * BLOCK_SIZE) (len (disk s)))
    as [F1|F1];
    [|unfold bind at 1; rewrite read_block_short by lia; reflexivity].
  read_fits.
  destruct (Z.le_gt_cases ((DATA_BMAP_IDX + 1) * BLOCK_SIZE) (len (disk s)))
    as [F2|F2];
    [|unfold bind at 1; rewrite read_block_short by (cbn [disk]; lia);
      reflexivity].
  read_fits.
  unfold bind at 1. rewrite read_block_short by (cbn [disk]; lia).
  reflexivity.
Qed.

(** X14. [create_journal] calls [die] exactly on an image that is too short
    to hold block 21, the root directory block (one of the three block
    reads of lines 125-127 then falls short); on every other image it
    returns, whatever the image holds. *)
Theorem create_dies_iff_short :
  forall file_name now s,
    (create_journal file_name now s = Die
     <-> len (disk s) < (DATA_START_IDX + 1) * BLOCK_SIZE)
    /\ (create_journal file_name now s <> Die ->
        exists b s', create_journal file_name now s = Ok b s').
Proof.
  intros file_name now s.
  destruct (Z.lt_ge_cases (len (disk s)) ((DATA_START_IDX + 1) * BLOCK_SIZE))
    as [Short|Fits].
  - pose proof (create_journal_short file_name now s Short) as D.
    split; [split; auto | intros N; contradiction].
  - destruct (create_journal_returns file_name now s) as (b & s' & R);
      [lia|].
    split; [split|].
    + rewrite R. discriminate.
    + lia.
    + intros _. exists b, s'. exact R.
Qed.

(** ** The cap on installed transactions *)

Lemma install_loop_cap fuel : forall max_commits used off committed s c s',
  0 <= max_commits < 2147483648 ->
  0 <= committed <= max_commits ->
  install_loop fuel max_commits used off committed s = Ok c s' ->
  committed <= c <= max_commits.
Proof.
  induction fuel as [|fuel IH]; intros max_commits used off committed s c s'
    Hm Hc H.
  - discriminate.
  - rewrite install_loop_S in H.
    destruct ((off <? used)
              && ((max_commits <? 0) || (to_int committed <? max_commits)))
      eqn:G.
    + apply andb_true_iff in G as [_ G].
      apply orb_true_iff in G as [G|G]; [apply Z.ltb_lt in G; lia|].
      apply Z.ltb_lt in G. unfold to_int in G.
      destruct (Z.ltb_spec committed 2147483648); [|lia].
      apply bind_Ok in H as (r & s1 & _ & H).
      destruct (negb (fst r)).
      * apply ret_Ok in H as [<- _]. lia.
      * apply bind_Ok in H as (u & s2 & _ & H).
        apply IH in H; try assumption.
        -- unfold u32 in H. rewrite Z.mod_small in H by lia. lia.
        -- unfold u32. rewrite Z.mod_small by lia. lia.
    + apply ret_Ok in H as [<- _]. lia.
Qed.

(** X19. The cap of line 188: with a cap [max_commits] that is not
    negative, an install that returns has installed at most [max_commits]
    transactions, whatever the journal holds. *)
Theorem install_respects_cap :
  forall fuel max_commits s c s',
    0 <= max_commits < 2147483648 ->
    install_journal fuel max_commits s = Ok c s' ->
    0 <= c <= max_commits.
Proof.
  intros fuel max_commits s c s' Hm H. unfold install_journal in H.
  apply bind_Ok in H as (b & s0 & _ & H).
  destruct (negb (magic (decode_jh b) =? JOURNAL_MAGIC)
            || (nbytes_used (decode_jh b) <=? sizeof_journal_header)).
  - apply ret_Ok in H as [<- _]. lia.
  - apply bind_Ok in H as (c' & s1 & Hl & H).
    apply bind_Ok in H as (u & s2 & _ & H).
    apply ret_Ok in H as [<- _].
    apply install_loop_cap in Hl; lia.
Qed.

Lemma install_respects_cap_witness : 0 <= 1 <= 1.
Proof.
  apply (install_respects_cap 8 1
           (run (create_journal "b" 1002)
                (run (create_journal "a" 1001) (boot blank)))
           1
           (run (install_journal 8 1)
                (run (create_journal "b" 1002)
                     (run (create_journal "a" 1001) (boot blank))))).
  - evaluated.
  - apply (ok_run Z.eqb). vm_compute. reflexivity.
Defined.

(** ** The shape of install's writes *)

Lemma apply_tx_writes fuel : forall tx_off apply_off s u s',
  apply_tx fuel tx_off apply_off s = Ok u s' ->
  exists ws, writes (log s') = writes (log s) ++ ws /\ Forall whole_block ws.
Proof.
  induction fuel as [|fuel IH]; intros tx_off apply_off s u s' H.
  - discriminate.
  - rewrite apply_tx_S in H.
    destruct (apply_off <? tx_off).
    + apply bind_Ok in H as (rhb & s1 & R & H).
      apply journal_read_Ok in R as (_ & _ & ->).
      apply bind_Ok in H as (u1 & s2 & W & H).
      apply IH in H as (ws & E & F).
      destruct (type (decode_rh rhb) =? REC_DATA).
      * destruct (Z.eqb_spec (size (decode_rh rhb)) sizeof_data_record)
          as [Es|_]; [|discriminate].
        rewrite Es in W.
        apply bind_Ok in W as (dr & s3 & R & W).
        apply journal_read_Ok in R as (_ & -> & ->).
        rewrite write_block_Ok in W. apply ret_Ok in W as [_ <-].
        cbn [disk log] in E.
        rewrite writes_app, !writes_read in E. cbn [writes filter is_write] in E.
        eexists. split; [rewrite E, <- app_assoc; reflexivity|].
        constructor; [|exact F].
        eexists. eexists. split; [reflexivity|].
        rewrite firstn_length_le; [reflexivity|].
        unfold dr_data. rewrite length_skipn, length_file_read.
        layout. lia.
      * apply ret_Ok in W as [_ <-]. cbn [log] in E.
        rewrite writes_read in E. exists ws. auto.
    + apply ret_Ok in H as [_ <-]. exists []. rewrite app_nil_r. auto.
Qed.

Lemma install_loop_writes fuel : forall max_commits used off committed s c s',
  install_loop fuel max_commits used off committed s = Ok c s' ->
  exists ws, writes (log s') = writes (log s) ++ ws /\ Forall whole_block ws.
Proof.
  induction fuel as [|fuel IH]; intros max_commits used off committed s c s' H.
  - discriminate.
  - rewrite install_loop_S in H.
    destruct ((off <? used)
              && ((max_commits <? 0) || (to_int committed <? max_commits))).
    + apply bind_Ok in H as (r & s1 & Sc & H).
      apply read_only_scan_tx in Sc as [_ Sw].
      destruct (negb (fst r)).
      * apply ret_Ok in H as [_ <-]. exists []. rewrite app_nil_r. auto.
      * apply bind_Ok in H as (u & s2 & Ap & H).
        apply apply_tx_writes in Ap as (w1 & E1 & F1).
        apply IH in H as (w2 & E2 & F2).
        exists (w1 ++ w2). split.
        -- rewrite E2, E1, Sw. symmetry. apply app_assoc.
        -- apply Forall_app. auto.
    + apply ret_Ok in H as [_ <-]. exists []. rewrite app_nil_r. auto.
Qed.

(** X20. What install writes, whatever the journal holds: nothing at
    all (the early return of line 185), or a run of whole blocks, each
    [BLOCK_SIZE] bytes at a block boundary, followed by one last write, the
    journal header with the magic and bytes-used reset to the header size.
    Install never writes part of a block and never writes a record. *)
Theorem install_writes_whole_blocks :
  forall fuel max_commits s c s',
    install_journal fuel max_commits s = Ok c s' ->
    writes (log s') = writes (log s)
    \/ exists ws,
         Forall whole_block ws
         /\ writes (log s')
            = writes (log s) ++ ws
              ++ [Pwrite (JOURNAL_BLOCK_IDX * BLOCK_SIZE + 0)
                    (encode_jh {| magic := JOURNAL_MAGIC;
                                  nbytes_used := sizeof_journal_header |})].
Proof.
  intros fuel max_commits s c s' H. unfold install_journal in H.
  apply bind_Ok in H as (b & s0 & R & H).
  apply journal_read_Ok in R as (_ & _ & ->).
  destruct (Z.eqb_spec (magic (decode_jh b)) JOURNAL_MAGIC) as [Em|_];
    cbn [negb orb] in H.
  - destruct (nbytes_used (decode_jh b) <=? sizeof_journal_header).
    + apply ret_Ok in H as [_ <-]. left. cbn [log]. apply writes_read.
    + apply bind_Ok in H as (c' & s1 & Hl & H).
      apply bind_Ok in H as (u & s2 & W & H).
      apply journal_write_Ok in W. apply ret_Ok in H as [_ <-]. subst s2.
      apply install_loop_writes in Hl as (ws & E & F).
      cbn [log] in *. rewrite writes_read in E.
      right. exists ws. split; [exact F|].
      rewrite writes_app, E, Em, <- app_assoc. reflexivity.
  - apply ret_Ok in H as [_ <-]. left. cbn [log]. apply writes_read.
Qed.

Lemma install_writes_whole_blocks_witness :
  writes (log (run (install_journal 4 (-1)) (boot sealed)))
  = writes (log (boot sealed))
  \/ exists ws,
       Forall whole_block ws
       /\ writes (log (run (install_journal 4 (-1)) (boot sealed)))
          = writes (log (boot sealed)) ++ ws
            ++ [Pwrite (JOURNAL_BLOCK_IDX * BLOCK_SIZE + 0)
                  (encode_jh {| magic := JOURNAL_MAGIC;
                                nbytes_used := sizeof_journal_header |})].
Proof.
  apply (install_writes_whole_blocks 4 (-1) (boot sealed) 1).
  apply (ok_run Z.eqb). vm_compute. reflexivity.
Defined.

(** ** The command line *)

(** X21. The exit status of [main]: 0 after a create or an install that
    returned, and 1 otherwise; with status 1 (a command line that is
    neither [create NAME] nor [install]) the image was neither read nor
    written. *)
Theorem main_exit_code :
  forall fuel now argv s r s',
    main fuel now argv s = Ok r s' -> r = 0 \/ (r = 1 /\ s' = s).
Proof.
  intros fuel now argv s r s'. unfold main. intros H.
  destruct argv as [|a0 [|a1 [|a2 [|a3 rest]]]];
    try (apply ret_Ok in H as [<- <-]; right; auto).
  - destruct (streq a1 "install").
    + apply bind_Ok in H as (c & s1 & _ & H).
      apply ret_Ok in H as [<- _]. left. reflexivity.
    + apply ret_Ok in H as [<- <-]. right. auto.
  - destruct (streq a1 "create").
    + apply bind_Ok in H as (c & s1 & _ & H).
      apply ret_Ok in H as [<- _]. left. reflexivity.
    + apply ret_Ok in H as [<- <-]. right. auto.
Qed.

Lemma main_exit_code_witness :
  1 = 0 \/ (1 = 1 /\ boot sealed = boot sealed).
Proof.
  apply (main_exit_code 4 1000 ["journal"; "install"; "now"]%string
           (boot sealed) 1 (boot sealed)).
  reflexivity.
Defined.

(** ** The allocators, the records and the journal: summary *)

(** X1. [free_inode] is first fit over the 64 inode bits: it returns -1
    exactly when every one of them is set, and otherwise the least index
    whose bit is clear. *)
Theorem free_inode_first_fit :
  forall bmap,
    (free_inode bmap = -1
     /\ forall j, 0 <= j < max_inodes -> inode_bit bmap j = true)
    \/ (0 <= free_inode bmap < max_inodes
        /\ inode_bit bmap (free_inode bmap) = false
        /\ forall j, 0 <= j < free_inode bmap -> inode_bit bmap j = true).
Proof. exact free_inode_spec. Qed.

(** X2. [free_dirent] is first fit over the 128 slots of the directory
    block: it returns -1 exactly when the name of every slot starts with a
    byte other than NUL, and otherwise the least slot whose name starts
    with NUL. *)
Theorem free_dirent_first_fit :
  forall d,
    (free_dirent d = -1
     /\ forall j, 0 <= j < dirent_slots -> name0 d j <> 0)
    \/ (0 <= free_dirent d < dirent_slots
        /\ name0 d (free_dirent d) = 0
        /\ forall j, 0 <= j < free_dirent d -> name0 d j <> 0).
Proof. exact free_dirent_spec. Qed.

(** X11. A Data record as create lays it out is what install takes apart:
    it is [sizeof(struct data_record)] bytes long, its header decodes to
    type [REC_DATA] and that size, and its block number and block image
    are the ones it was built from. *)
Theorem data_record_round_trip :
  forall block_no img,
    0 <= block_no < 4294967296 ->
    List.length img = Z.to_nat BLOCK_SIZE ->
    Z.of_nat (List.length (data_record block_no img)) = sizeof_data_record
    /\ decode_rh (data_record block_no img)
       = {| type := REC_DATA; size := sizeof_data_record |}
    /\ dr_block_no (data_record block_no img) = block_no
    /\ dr_data (data_record block_no img) = img.
Proof.
  intros block_no img Hb L. split; [|split; [|split]].
  - apply length_data_record. exact L.
  - reflexivity.
  - apply dr_block_no_data_record. exact Hb.
  - apply dr_data_data_record. exact L.
Qed.

Lemma data_record_round_trip_witness :
  Z.of_nat (List.length (data_record 21 (block crowded 21)))
  = sizeof_data_record
  /\ decode_rh (data_record 21 (block crowded 21))
     = {| type := REC_DATA; size := sizeof_data_record |}
  /\ dr_block_no (data_record 21 (block crowded 21)) = 21
  /\ dr_data (data_record 21 (block crowded 21)) = block crowded 21.
Proof.
  apply (data_record_round_trip 21 (block crowded 21)); evaluated.
Defined.

(** X12. The journal header and the record header survive the trip
    through their bytes: decoding the little-endian bytes of a header
    whose fields fit their C types gives the header back. *)
Theorem header_round_trip :
  forall jh rh,
    0 <= magic jh < 4294967296 -> 0 <= nbytes_used jh < 4294967296 ->
    0 <= type rh < 65536 -> 0 <= size rh < 65536 ->
    decode_jh (encode_jh jh) = jh /\ decode_rh (encode_rh rh) = rh.
Proof.
  intros jh rh Hm Hu Ht Hs. split.
  - apply decode_encode_jh; assumption.
  - apply decode_encode_rh; assumption.
Qed.

Lemma header_round_trip_witness :
  decode_jh (encode_jh {| magic := JOURNAL_MAGIC; nbytes_used := 16428 |})
  = {| magic := JOURNAL_MAGIC; nbytes_used := 16428 |}
  /\ decode_rh (encode_rh {| type := REC_DATA; size := sizeof_data_record |})
     = {| type := REC_DATA; size := sizeof_data_record |}.
Proof.
  apply (header_round_trip {| magic := JOURNAL_MAGIC; nbytes_used := 16428 |}
           {| type := REC_DATA; size := sizeof_data_record |});
    evaluated.
Defined.

(** X15. Install on a well-formed journal.  When the journal holds the
    header and the committed transactions [txs] (at least one), each a run
    of Data records for blocks outside the journal region closed by a
    Commit record, install returns with enough fuel, and: the count it
    reports is the number of transactions, or the cap when that is
    smaller; the image it leaves is the old one with the block images of
    the transactions it counts written to their blocks in journal order,
    and then the header with bytes-used reset; and these are its only
    writes, in that order.  Transactions past the cap are not applied, and
    the reset header drops them. *)
Theorem install_replays_committed :
  forall m txs fuel max_commits s,
    journal_ok (disk s) txs -> txs <> [] ->
    Forall (fun tx => (List.length tx <= m)%nat) txs ->
    (List.length txs + m + 2 <= fuel)%nat ->
    let k := applied max_commits (List.length txs) in
    let reset :=
      encode_jh {| magic := JOURNAL_MAGIC;
                   nbytes_used := sizeof_journal_header |} in
    exists s',
      install_journal fuel max_commits s = Ok (Z.of_nat k) s'
      /\ disk s'
         = file_write (replay (disk s) (List.concat (firstn k txs)))
                      (JOURNAL_BLOCK_IDX * BLOCK_SIZE + 0) reset
      /\ writes (log s')
         = writes (log s) ++ replay_writes (List.concat (firstn k txs))
           ++ [Pwrite (JOURNAL_BLOCK_IDX * BLOCK_SIZE + 0) reset].
Proof. exact install_journal_log. Qed.

Lemma install_replays_committed_witness :
  exists s',
    install_journal 4 (-1) (boot sealed) = Ok 1 s'
    /\ block (disk s') 21 = repeat 170 4096.
Proof.
  destruct (install_replays_committed 1 [[(21, repeat 170 4096)]] 4 (-1)
              (boot sealed))
    as (s' & R & D & _).
  - evaluated.
  - discriminate.
  - repeat constructor.
  - apply Nat.le_refl.
  - exists s'. split; [exact R|]. rewrite D. vm_compute. reflexivity.
Defined.

(** X16. Create on a well-formed journal.  When the journal is empty (no
    magic in the header) or holds the header and the committed
    transactions [txs], and the journal region has room for one more
    transaction (16420 bytes), a create that logs its transaction leaves a
    well-formed journal: the header, the transactions [txs] untouched, and
    after them the new transaction, the four block images of the creation
    closed by a Commit record, with bytes-used at its end. *)
Theorem create_appends_well_formed_tx :
  forall file_name now s s1 txs,
    create_journal file_name now s = Ok true s1 ->
    journal_pre (disk s) txs ->
    log_end sizeof_journal_header txs + tx_bytes <= journal_size ->
    journal_ok (disk s1) (txs ++ [create_tx (disk s) file_name now]).
Proof.
  intros file_name now s s1 txs H Hpre Hroom.
  apply (create_journal_log file_name now s s1 txs H Hpre Hroom).
Qed.

Lemma create_appends_well_formed_tx_witness :
  journal_ok
    (disk (run (create_journal "b" 1002)
               (run (create_journal "a" 1001) (boot blank))))
    ([create_tx blank "a" 1001]
     ++ [create_tx (disk (run (create_journal "a" 1001) (boot blank)))
                   "b" 1002]).
Proof.
  apply (create_appends_well_formed_tx "b" 1002
           (run (create_journal "a" 1001) (boot blank))
           (run (create_journal "b" 1002)
                (run (create_journal "a" 1001) (boot blank)))
           [create_tx blank "a" 1001]).
  - apply (ok_run Bool.eqb). vm_compute. reflexivity.
  - right. evaluated.
  - evaluated.
Defined.

(** X17. Create stays inside the journal while there is room.  Under the
    conditions of X16 (a well-formed or empty journal with room for one
    more transaction), a create that logs its transaction changes no block
    outside the journal region: every such block the image held reads as
    before, the bitmaps, the inode table and the root directory
    included. *)
Theorem create_keeps_real_blocks :
  forall file_name now s s1 txs block_no,
    create_journal file_name now s = Ok true s1 ->
    journal_pre (disk s) txs ->
    log_end sizeof_journal_header txs + tx_bytes <= journal_size ->
    block_no < JOURNAL_BLOCK_IDX
    \/ JOURNAL_BLOCK_IDX + JOURNAL_BLOCKS <= block_no ->
    (block_no + 1) * BLOCK_SIZE <= len (disk s) ->
    block (disk s1) block_no = block (disk s) block_no
    /\ (block_no + 1) * BLOCK_SIZE <= len (disk s1).
Proof.
  intros file_name now s s1 txs block_no H Hpre Hroom Hout Hfit.
  apply (create_journal_log file_name now s s1 txs H Hpre Hroom);
    assumption.
Qed.

Lemma create_keeps_real_blocks_witness :
  block (disk (run (create_journal "notes" 1000) (boot crowded)))
        INODE_BMAP_IDX
  = block (disk (boot crowded)) INODE_BMAP_IDX
  /\ (INODE_BMAP_IDX + 1) * BLOCK_SIZE
     <= len (disk (run (create_journal "notes" 1000) (boot crowded))).
Proof.
  apply (create_keeps_real_blocks "notes" 1000 (boot crowded)
           (run (create_journal "notes" 1000) (boot crowded)) []
           INODE_BMAP_IDX).
  - apply (ok_run Bool.eqb). vm_compute. reflexivity.
  - left. split; [vm_compute; discriminate | reflexivity].
  - evaluated.
  - right. evaluated.
  - evaluated.
Defined.

(** ** What a block holds after install *)

Lemma block_replay recs : forall f block_no,
  Forall (fun r : Z * bytes => List.length (snd r) = Z.to_nat BLOCK_SIZE)
         recs ->
  (block_no + 1) * BLOCK_SIZE <= len f ->
  block (replay f recs) block_no
  = match last_image recs block_no with
    | Some img => img
    | None => block f block_no
    end.
Proof.
  induction recs as [|[target img] rest IH]; intros f block_no F L.
  - reflexivity.
  - inversion F as [|r l Hr Hrest]; subst. cbn [snd] in Hr.
    change (replay f ((target, img) :: rest))
      with (replay (file_write f (target * BLOCK_SIZE) img) rest).
    rewrite IH; [|exact Hrest|rewrite len_file_write; lia].
    cbn [last_image]. destruct (last_image rest block_no); [reflexivity|].
    destruct (Z.eqb_spec target block_no) as [->|N].
    + apply block_write_same. exact Hr.
    + apply block_write_other; [exact L|]. rewrite Hr. layout. lia.
Qed.

Lemma tx_at_lengths f recs : forall off,
  tx_at f off recs ->
  Forall (fun r : Z * bytes => List.length (snd r) = Z.to_nat BLOCK_SIZE)
         recs.
Proof.
  induction recs as [|[target img] rest IH]; intros off H; constructor.
  - apply H.
  - apply (IH (off + sizeof_data_record)). apply H.
Qed.

Lemma log_at_lengths f txs : forall off,
  log_at f off txs ->
  Forall (fun r : Z * bytes => List.length (snd r) = Z.to_nat BLOCK_SIZE)
         (List.concat txs).
Proof.
  induction txs as [|tx rest IH]; intros off H; cbn [List.concat].
  - constructor.
  - destruct H as [Ht Hr]. apply Forall_app. split.
    + apply (tx_at_lengths f tx off Ht).
    + apply (IH _ Hr).
Qed.

(** X22. What a block holds after an uncapped install of a well-formed
    journal: a block outside the journal region holds the image of the last
    Data record journaled for it, and is as it was when no record names
    it.  Of two transactions that log the same block, the later one
    wins. *)
Theorem install_last_image_wins :
  forall m txs fuel s block_no,
    journal_ok (disk s) txs -> txs <> [] ->
    Forall (fun tx => (List.length tx <= m)%nat) txs ->
    (List.length txs + m + 2 <= fuel)%nat ->
    block_no < JOURNAL_BLOCK_IDX
    \/ JOURNAL_BLOCK_IDX + JOURNAL_BLOCKS <= block_no ->
    (block_no + 1) * BLOCK_SIZE <= len (disk s) ->
    exists s',
      install_journal fuel (-1) s = Ok (Z.of_nat (List.length txs)) s'
      /\ block (disk s') block_no
         = match last_image (List.concat txs) block_no with
           | Some img => img
           | None => block (disk s) block_no
           end.
Proof.
  intros m txs fuel s block_no Hj Hne Hm Hf Hout Hfit.
  destruct (install_journal_log m txs fuel (-1) s Hj Hne Hm Hf)
    as (s' & R & D & _).
  change (applied (-1) (List.length txs)) with (List.length txs) in R, D.
  rewrite firstn_all in D.
  exists s'. split; [exact R|]. rewrite D.
  assert (Lr : (block_no + 1) * BLOCK_SIZE
               <= len (replay (disk s) (List.concat txs))).
  { clear - Hfit. revert Hfit. generalize (disk s).
    induction (List.concat txs) as [|r rest IH]; intros f Hfit;
      [exact Hfit|].
    apply IH. rewrite len_file_write. lia. }
  rewrite block_write_other;
    [|exact Lr|cbn [encode_jh le32 List.length app]; layout; lia].
  apply block_replay; [|exact Hfit].
  destruct Hj as (_ & Hlog & _). apply (log_at_lengths _ _ _ Hlog).
Qed.

Lemma install_last_image_wins_witness :
  exists s',
    install_journal 8 (-1)
      (run (create_journal "b" 1002)
           (run (create_journal "a" 1001) (boot blank)))
    = Ok 2 s'
    /\ name_field (block (disk s') DATA_START_IDX) 0 = truncated_padded "b".
Proof.
  destruct (install_last_image_wins 4
              ([create_tx blank "a" 1001]
               ++ [create_tx (disk (run (create_journal "a" 1001)
                                        (boot blank))) "b" 1002])
              8
              (run (create_journal "b" 1002)
                   (run (create_journal "a" 1001) (boot blank)))
              DATA_START_IDX)
    as (s' & R & B).
  - evaluated.
  - discriminate.
  - repeat constructor.
  - apply Nat.le_refl.
  - right. evaluated.
  - evaluated.
  - exists s'. split; [exact R|]. clear R. rewrite B. vm_compute. reflexivity.
Defined.

(** ** Install on a journal whose records tile the used region *)

Lemma decode_rh_firstn (r : bytes) :
  (4 <= List.length r)%nat -> decode_rh (firstn 4 r) = decode_rh r.
Proof.
  intros H. destruct r as [|a [|b [|c [|d r]]]]; cbn [List.length] in H;
    try lia.
  reflexivity.
Qed.

Lemma past_app done rest :
  past (done ++ rest) = past done + Z.of_nat (List.length (List.concat rest)).
Proof.
  unfold past. rewrite concat_app, length_app. lia.
Qed.

Lemma past_snoc done r :
  past (done ++ [r]) = past done + Z.of_nat (List.length r).
Proof.
  rewrite past_app. cbn [List.concat]. rewrite app_nil_r. reflexivity.
Qed.

Lemma past_cons_le done r rest :
  past (done ++ [r]) <= past (done ++ r :: rest).
Proof.
  rewrite past_snoc, past_app. cbn [List.concat]. rewrite length_app. lia.
Qed.

(** The file holds each record where the tiling puts it. *)
Lemma record_at f done r rest :
  holds f (JOURNAL_BLOCK_IDX * BLOCK_SIZE + sizeof_journal_header)
        (List.concat (done ++ r :: rest)) ->
  holds f (JOURNAL_BLOCK_IDX * BLOCK_SIZE + past done) r.
Proof.
  intros H. rewrite concat_app in H. cbn [List.concat] in H.
  apply holds_app in H as [_ H]. apply holds_app in H as [H _].
  unfold past.
  replace (JOURNAL_BLOCK_IDX * BLOCK_SIZE
           + (sizeof_journal_header
              + Z.of_nat (List.length (List.concat done))))
    with (JOURNAL_BLOCK_IDX * BLOCK_SIZE + sizeof_journal_header
          + Z.of_nat (List.length (List.concat done))) by lia.
  exact H.
Qed.

Lemma header_at f off (r : bytes) :
  holds f off r -> sizeof_rec_header <= Z.of_nat (List.length r) ->
  holds f off (firstn 4 r).
Proof.
  intros H L. rewrite <- (firstn_skipn 4 r) in H.
  apply holds_app in H. apply H.
Qed.

(** The scan on a record the file holds. *)
Lemma scan_tx_record fuel used off s r :
  off < used ->
  holds (disk s) (JOURNAL_BLOCK_IDX * BLOCK_SIZE + off) r ->
  sizeof_rec_header <= Z.of_nat (List.length r) ->
  scan_tx (S fuel) used off s
  = (if rec_type r =? REC_COMMIT then ret (true, u32 (off + rec_size r))
     else scan_tx fuel used (u32 (off + rec_size r)))
      {| disk := disk s;
         log := log s ++ [Pread (JOURNAL_BLOCK_IDX * BLOCK_SIZE + off)
                                sizeof_rec_header] |}.
Proof.
  intros Hu Hh L. rewrite scan_tx_S.
  apply Z.ltb_lt in Hu. rewrite Hu. unfold journal_read.
  assert (L4 : (4 <= List.length r)%nat) by (unfold sizeof_rec_header in L; lia).
  rewrite (bind_eq_Ok _ _ _ _ _
             (pread_holds s _ _ sizeof_rec_header (header_at _ _ _ Hh L)
                ltac:(rewrite firstn_length_le by exact L4; reflexivity))).
  rewrite decode_rh_firstn by exact L4. reflexivity.
Qed.

(** The applying loop on a record the file holds that is not a Data
    record. *)
Lemma apply_tx_other fuel tx_off off s r :
  off < tx_off ->
  holds (disk s) (JOURNAL_BLOCK_IDX * BLOCK_SIZE + off) r ->
  sizeof_rec_header <= Z.of_nat (List.length r) ->
  rec_type r <> REC_DATA ->
  apply_tx (S fuel) tx_off off s
  = apply_tx fuel tx_off (u32 (off + rec_size r))
      {| disk := disk s;
         log := log s ++ [Pread (JOURNAL_BLOCK_IDX * BLOCK_SIZE + off)
                                sizeof_rec_header] |}.
Proof.
  intros Hu Hh L Hd. rewrite apply_tx_S.
  apply Z.ltb_lt in Hu. rewrite Hu. unfold journal_read.
  assert (L4 : (4 <= List.length r)%nat) by (unfold sizeof_rec_header in L; lia).
  rewrite (bind_eq_Ok _ _ _ _ _
             (pread_holds s _ _ sizeof_rec_header (header_at _ _ _ Hh L)
                ltac:(rewrite firstn_length_le by exact L4; reflexivity))).
  rewrite decode_rh_firstn by exact L4.
  apply Z.eqb_neq in Hd. unfold rec_type in Hd. rewrite Hd. reflexivity.
Qed.

(** The applying loop on a Data record the file holds: the record is read
    whole and its block is written. *)
Lemma apply_tx_whole fuel tx_off off s r :
  off < tx_off ->
  holds (disk s) (JOURNAL_BLOCK_IDX * BLOCK_SIZE + off) r ->
  Z.of_nat (List.length r) = sizeof_data_record ->
  rec_type r = REC_DATA -> rec_size r = sizeof_data_record ->
  apply_tx (S fuel) tx_off off s
  = apply_tx fuel tx_off (u32 (off + rec_size r))
      {| disk := file_write (disk s) (dr_block_no r * BLOCK_SIZE)
                            (firstn (Z.to_nat BLOCK_SIZE) (dr_data r));
         log := log s
                ++ [Pread (JOURNAL_BLOCK_IDX * BLOCK_SIZE + off)
                          sizeof_rec_header;
                    Pread (JOURNAL_BLOCK_IDX * BLOCK_SIZE + off)
                          sizeof_data_record;
                    Pwrite (dr_block_no r * BLOCK_SIZE)
                           (firstn (Z.to_nat BLOCK_SIZE) (dr_data r))] |}.
Proof.
  intros Hu Hh L Ht Hs. rewrite apply_tx_S.
  apply Z.ltb_lt in Hu. rewrite Hu. unfold journal_read.
  assert (L4 : (4 <= List.length r)%nat)
    by (unfold sizeof_data_record in L; lia).
  assert (Lh : sizeof_rec_header <= Z.of_nat (List.length r))
    by (rewrite L; layout; lia).
  rewrite (bind_eq_Ok _ _ _ _ _
             (pread_holds s _ _ sizeof_rec_header (header_at _ _ _ Hh Lh)
                ltac:(rewrite firstn_length_le by exact L4; reflexivity))).
  rewrite decode_rh_firstn by exact L4.
  unfold rec_type, rec_size in Ht, Hs. rewrite Ht, Hs, !Z.eqb_refl.
  unfold bind at 1 2.
  rewrite (pread_holds
             {| disk := disk s;
                log := log s ++ [Pread (JOURNAL_BLOCK_IDX * BLOCK_SIZE + off)
                                       sizeof_rec_header] |}
             _ _ sizeof_data_record Hh (eq_sym L)).
  rewrite write_block_Ok. cbn [disk log]. rewrite <- !app_assoc.
  unfold rec_size. rewrite Hs. reflexivity.
Qed.

Lemma tail_unread_cat U l1 l2 :
  tail_unread U l1 = true -> tail_unread U l2 = true ->
  tail_unread U (l1 ++ l2) = true.
Proof.
  unfold tail_unread. intros H1 H2. rewrite forallb_app, H1, H2. reflexivity.
Qed.

Lemma read_ok_below U off size :
  off + size <= Z.max U sizeof_journal_header ->
  read_ok U (Pread (JOURNAL_BLOCK_IDX * BLOCK_SIZE + off) size) = true.
Proof.
  intros H. cbn [read_ok]. apply orb_true_iff. left. apply Z.leb_le. lia.
Qed.

Section Tiled.

(** The records of the journal, and the length of the image. *)
Variables (recs : list bytes) (n : Z).

Hypothesis Hwhole : Forall (whole_record n) recs.
Hypothesis Hfit : past recs <= JOURNAL_BLOCKS * BLOCK_SIZE.

Lemma whole_in done r rest :
  recs = done ++ r :: rest -> whole_record n r.
Proof.
  intros E. rewrite Forall_forall in Hwhole. apply Hwhole.
  rewrite E. apply in_elt.
Qed.

Lemma past_bounds done r rest :
  recs = done ++ r :: rest ->
  sizeof_journal_header <= past done
  /\ past done + sizeof_rec_header <= past (done ++ [r])
  /\ past (done ++ [r]) = past done + rec_size r
  /\ past (done ++ [r]) <= past recs.
Proof.
  intros E. destruct (whole_in _ _ _ E) as (L & L4 & _).
  pose proof (past_cons_le done r rest) as P. rewrite <- E in P.
  rewrite past_snoc in *. unfold past at 1. lia.
Qed.

Lemma scan_tx_tiled rest : forall fuel done s,
  recs = done ++ rest -> (List.length rest < fuel)%nat ->
  intact recs n s ->
  exists b tx_off l,
    scan_tx fuel (past recs) (past done) s
    = Ok (b, tx_off) {| disk := disk s; log := log s ++ l |}
    /\ tail_unread (past recs) l = true
    /\ (b = true ->
        exists mid rest',
          rest = mid ++ rest' /\ mid <> [] /\ tx_off = past (done ++ mid)).
Proof.
  induction rest as [|r rest IH]; intros fuel done s E F I.
  - destruct fuel as [|fuel]; [cbn in F; lia|].
    rewrite scan_tx_S. rewrite app_nil_r in E. subst done.
    rewrite Z.ltb_irrefl. exists false, (past recs), [].
    rewrite app_nil_r. destruct s. repeat split. discriminate.
  - destruct fuel as [|fuel]; [cbn in F; lia|].
    destruct (past_bounds _ _ _ E) as (P0 & P4 & Ps & Pr).
    destruct (whole_in _ _ _ E) as (L & L4 & _).
    assert (Hr : holds (disk s) (JOURNAL_BLOCK_IDX * BLOCK_SIZE + past done) r).
    { apply (record_at _ done r rest). destruct I as [Ih _].
      rewrite E in Ih. exact Ih. }
    rewrite (scan_tx_record fuel _ _ s r) by (try assumption; layout; lia).
    assert (Ru : u32 (past done + rec_size r) = past (done ++ [r])).
    { rewrite <- Ps. apply u32_small. layout. lia. }
    rewrite Ru.
    assert (Rk : read_ok (past recs)
                   (Pread (JOURNAL_BLOCK_IDX * BLOCK_SIZE + past done)
                          sizeof_rec_header) = true)
      by (apply read_ok_below; layout; lia).
    destruct (rec_type r =? REC_COMMIT).
    + exists true, (past (done ++ [r])), [Pread (JOURNAL_BLOCK_IDX * BLOCK_SIZE + past done)
                    sizeof_rec_header].
      split; [reflexivity|]. split; [cbn [tail_unread forallb]; rewrite Rk; reflexivity|].
      intros _. exists [r], rest. repeat split. discriminate.
    + destruct (IH fuel (done ++ [r])
                  {| disk := disk s;
                     log := log s
                            ++ [Pread (JOURNAL_BLOCK_IDX * BLOCK_SIZE
                                       + past done) sizeof_rec_header] |})
        as (b & tx_off & l & R & T & C).
      * rewrite <- app_assoc. exact E.
      * cbn [List.length] in F. lia.
      * exact I.
      * exists b, tx_off, (Pread (JOURNAL_BLOCK_IDX * BLOCK_SIZE + past done)
                    sizeof_rec_header :: l).
        split; [|split].
        -- rewrite R. cbn [disk log]. rewrite <- app_assoc. reflexivity.
        -- cbn [tail_unread forallb]. rewrite Rk. exact T.
        -- intros Hb. destruct (C Hb) as (mid & rest' & E1 & _ & E2).
           exists (r :: mid), rest'. rewrite E1. repeat split.
           ++ discriminate.
           ++ rewrite E2, <- app_assoc. reflexivity.
Qed.

Lemma intact_write s r :
  intact recs n s -> whole_record n r -> rec_type r = REC_DATA ->
  intact recs n {| disk := file_write (disk s) (dr_block_no r * BLOCK_SIZE)
                               (firstn (Z.to_nat BLOCK_SIZE) (dr_data r));
            log := log s |}.
Proof.
  intros [Ih Il] (L & _ & D) Ht. destruct (D Ht) as (Hs & Hb & Hn).
  assert (Lf : List.length (firstn (Z.to_nat BLOCK_SIZE) (dr_data r))
               = Z.to_nat BLOCK_SIZE).
  { apply firstn_length_le. unfold dr_data. rewrite length_skipn.
    rewrite Hs in L. layout. lia. }
  split; cbn [disk].
  - apply holds_write_other; [exact Ih|]. rewrite Lf.
    unfold past in Hfit. layout. lia.
  - rewrite len_file_write, Lf, Il. layout. lia.
Qed.

Lemma apply_tx_tiled mid : forall fuel done rest s,
  recs = done ++ mid ++ rest -> (List.length mid < fuel)%nat ->
  intact recs n s ->
  exists s' l,
    apply_tx fuel (past (done ++ mid)) (past done) s = Ok tt s'
    /\ intact recs n s' /\ log s' = log s ++ l
    /\ tail_unread (past recs) l = true.
Proof.
  induction mid as [|r mid IH]; intros fuel done rest s E F I.
  - destruct fuel as [|fuel]; [cbn in F; lia|].
    rewrite apply_tx_S, app_nil_r, Z.ltb_irrefl.
    exists s, []. rewrite app_nil_r. auto.
  - destruct fuel as [|fuel]; [cbn in F; lia|].
    assert (E' : recs = done ++ r :: (mid ++ rest)) by exact E.
    destruct (past_bounds _ _ _ E') as (P0 & P4 & Ps & Pr).
    pose proof (whole_in _ _ _ E') as W. destruct W as (L & L4 & D).
    assert (Hr : holds (disk s) (JOURNAL_BLOCK_IDX * BLOCK_SIZE + past done) r).
    { apply (record_at _ done r (mid ++ rest)). destruct I as [Ih _].
      rewrite E' in Ih. exact Ih. }
    assert (Lt : past done < past (done ++ r :: mid)).
    { rewrite (past_app done (r :: mid)). cbn [List.concat].
      rewrite length_app. layout. lia. }
    assert (Ru : u32 (past done + rec_size r) = past (done ++ [r])).
    { rewrite <- Ps. apply u32_small. layout. lia. }
    assert (Rk : read_ok (past recs)
                   (Pread (JOURNAL_BLOCK_IDX * BLOCK_SIZE + past done)
                          sizeof_rec_header) = true)
      by (apply read_ok_below; layout; lia).
    assert (Ea : done ++ r :: mid = (done ++ [r]) ++ mid)
      by (rewrite <- app_assoc; reflexivity).
    destruct (Z.eq_dec (rec_type r) REC_DATA) as [Ht|Ht].
    + destruct (D Ht) as (Hs & Hb & Hn).
      rewrite (apply_tx_whole fuel _ _ s r) by (try assumption; layout; lia).
      rewrite Ru, Ea.
      destruct (IH fuel (done ++ [r]) rest
                  {| disk := file_write (disk s) (dr_block_no r * BLOCK_SIZE)
                                (firstn (Z.to_nat BLOCK_SIZE) (dr_data r));
                     log := log s
                            ++ [Pread (JOURNAL_BLOCK_IDX * BLOCK_SIZE
                                       + past done) sizeof_rec_header;
                                Pread (JOURNAL_BLOCK_IDX * BLOCK_SIZE
                                       + past done) sizeof_data_record;
                                Pwrite (dr_block_no r * BLOCK_SIZE)
                                  (firstn (Z.to_nat BLOCK_SIZE)
                                          (dr_data r))] |})
        as (s' & l & R & I' & Lg & T).
      * rewrite <- !app_assoc. exact E'.
      * cbn [List.length] in F. lia.
      * apply (intact_write s r I (conj L (conj L4 D)) Ht).
      * exists s', (Pread (JOURNAL_BLOCK_IDX * BLOCK_SIZE + past done)
                          sizeof_rec_header
                    :: Pread (JOURNAL_BLOCK_IDX * BLOCK_SIZE + past done)
                             sizeof_data_record
                    :: Pwrite (dr_block_no r * BLOCK_SIZE)
                              (firstn (Z.to_nat BLOCK_SIZE) (dr_data r))
                    :: l).
        split; [exact R|]. split; [exact I'|]. split.
        -- rewrite Lg. cbn [log]. rewrite <- app_assoc. reflexivity.
        -- cbn [tail_unread forallb]. rewrite Rk.
           rewrite read_ok_below by lia. exact T.
    + rewrite (apply_tx_other fuel _ _ s r) by (try assumption; layout; lia).
      rewrite Ru, Ea.
      destruct (IH fuel (done ++ [r]) rest
                  {| disk := disk s;
                     log := log s
                            ++ [Pread (JOURNAL_BLOCK_IDX * BLOCK_SIZE
                                       + past done) sizeof_rec_header] |})
        as (s' & l & R & I' & Lg & T).
      * rewrite <- !app_assoc. exact E'.
      * cbn [List.length] in F. lia.
      * exact I.
      * exists s', (Pread (JOURNAL_BLOCK_IDX * BLOCK_SIZE + past done)
                          sizeof_rec_header :: l).
        split; [exact R|]. split; [exact I'|]. split.
        -- rewrite Lg. cbn [log]. rewrite <- app_assoc. reflexivity.
        -- cbn [tail_unread forallb]. rewrite Rk. exact T.
Qed.

Lemma install_loop_tiled fuel : forall max_commits done rest committed s,
  recs = done ++ rest -> (List.length rest < fuel)%nat ->
  intact recs n s ->
  exists c s' l,
    install_loop fuel max_commits (past recs) (past done) committed s
    = Ok c s'
    /\ intact recs n s' /\ log s' = log s ++ l
    /\ tail_unread (past recs) l = true.
Proof.
  induction fuel as [|fuel IH]; intros max_commits done rest committed s E F I.
  - lia.
  - rewrite install_loop_S.
    destruct ((past done <? past recs)
              && ((max_commits <? 0)
                  || (to_int committed <? max_commits))).
    2:{ exists committed, s, []. rewrite app_nil_r. auto. }
    destruct (scan_tx_tiled rest (S fuel) done s E F I)
      as (b & tx_off & l1 & Sc & T1 & C).
    rewrite (bind_eq_Ok _ _ _ _ _ Sc). cbn [fst snd].
    destruct b; cbn [negb].
    2:{ eexists committed, _, l1. split; [reflexivity|].
        split; [exact I|]. auto. }
    destruct (C eq_refl) as (mid & rest' & E1 & Hne & ->).
    assert (Lm : (List.length mid <= List.length rest)%nat)
      by (rewrite E1, length_app; lia).
    assert (Lp : (0 < List.length mid)%nat)
      by (destruct mid; [congruence | cbn; lia]).
    destruct (apply_tx_tiled mid (S fuel) done rest'
                {| disk := disk s; log := log s ++ l1 |})
      as (s2 & l2 & Ap & I2 & Lg2 & T2).
    { rewrite E, E1. reflexivity. }
    { lia. }
    { exact I. }
    rewrite (bind_eq_Ok _ _ _ _ _ Ap).
    destruct (IH max_commits (done ++ mid) rest' (u32 (committed + 1)) s2)
      as (c & s3 & l3 & R & I3 & Lg3 & T3).
    { rewrite E, E1. apply app_assoc. }
    { rewrite E1, length_app in F. lia. }
    { exact I2. }
    exists c, s3, (l1 ++ l2 ++ l3). split; [exact R|]. split; [exact I3|].
    split.
    + rewrite Lg3, Lg2. cbn [log]. rewrite <- !app_assoc. reflexivity.
    + apply tail_unread_cat; [exact T1|]. apply tail_unread_cat; assumption.
Qed.

End Tiled.

(** Install on a tiled journal returns, and none of its reads takes a byte
    past bytes-used. *)
Lemma install_journal_tiled recs fuel max_commits s :
  tiled (disk s) recs -> (List.length recs < fuel)%nat ->
  exists c s' l,
    install_journal fuel max_commits s = Ok c s'
    /\ log s' = log s ++ l
    /\ tail_unread (past recs) l = true.
Proof.
  intros (Hh & Hold & Hw & Hfit) F.
  assert (Hlen : JOURNAL_BLOCK_IDX * BLOCK_SIZE + 0 + sizeof_journal_header
                 <= len (disk s)).
  { destruct Hold as (_ & Hl & _). lia. }
  unfold install_journal, journal_read.
  rewrite (bind_eq_Ok _ _ _ _ _
             (pread_fits sizeof_journal_header
                (JOURNAL_BLOCK_IDX * BLOCK_SIZE + 0) s Hlen)).
  rewrite header_read, Hh. cbn [magic nbytes_used].
  rewrite Z.eqb_refl. cbn [negb orb].
  assert (Rk : read_ok (past recs)
                 (Pread (JOURNAL_BLOCK_IDX * BLOCK_SIZE + 0)
                        sizeof_journal_header) = true)
    by (apply read_ok_below; layout; lia).
  destruct (past recs <=? sizeof_journal_header).
  - eexists 0, _, [_]. split; [reflexivity|]. split; [reflexivity|].
    cbn [tail_unread forallb]. rewrite Rk. reflexivity.
  - destruct (install_loop_tiled recs (len (disk s)) Hw Hfit fuel max_commits
                [] recs 0
                {| disk := disk s;
                   log := log s ++ [Pread (JOURNAL_BLOCK_IDX * BLOCK_SIZE + 0)
                                          sizeof_journal_header] |})
      as (c & s1 & l & R & _ & Lg & T).
    + reflexivity.
    + exact F.
    + split; [exact Hold | reflexivity].
    + change (past []) with sizeof_journal_header in R.
      rewrite (bind_eq_Ok _ _ _ _ _ R).
      eexists c, _, (Pread _ _ :: l ++ [Pwrite _ _]).
      split; [reflexivity|]. split.
      * cbn [log]. rewrite Lg. cbn [log]. rewrite <- !app_assoc. reflexivity.
      * cbn [tail_unread forallb]. rewrite Rk. cbn [andb].
        apply tail_unread_cat; [exact T | reflexivity].
Qed.

(** ** The journals create writes are tiled *)

Lemma holds_cat f off a b :
  holds f off a -> holds f (off + Z.of_nat (List.length a)) b ->
  holds f off (a ++ b).
Proof.
  intros (H0 & _ & Ra) (_ & Lb & Rb). split; [exact H0|].
  rewrite length_app. split; [lia|].
  rewrite file_read_cat, Ra, Rb. reflexivity.
Qed.

Lemma whole_data_record n block_no img :
  0 <= block_no < 4294967296 ->
  List.length img = Z.to_nat BLOCK_SIZE ->
  0 <= block_no < JOURNAL_BLOCK_IDX
  \/ JOURNAL_BLOCK_IDX + JOURNAL_BLOCKS <= block_no ->
  (block_no + 1) * BLOCK_SIZE <= n ->
  whole_record n (data_record block_no img).
Proof.
  intros Hb L Ho Hn.
  assert (Es : rec_size (data_record block_no img) = sizeof_data_record)
    by reflexivity.
  split; [rewrite Es; apply length_data_record; exact L|].
  split; [rewrite Es; layout; lia|]. intros _.
  rewrite dr_block_no_data_record by exact Hb. auto.
Qed.

Lemma whole_commit_record n : whole_record n commit_record.
Proof.
  split; [reflexivity|]. split; [vm_compute; discriminate|].
  intros Q. vm_compute in Q. discriminate Q.
Qed.

Lemma tx_at_records f n tx : forall off,
  0 <= off -> tx_at f off tx ->
  Forall (fun r : Z * bytes => (fst r + 1) * BLOCK_SIZE <= n) tx ->
  holds f (JOURNAL_BLOCK_IDX * BLOCK_SIZE + off)
        (List.concat (tx_records tx))
  /\ off + Z.of_nat (List.length (List.concat (tx_records tx)))
     = tx_end off tx
  /\ Forall (whole_record n) (tx_records tx).
Proof.
  induction tx as [|[block_no img] tx IH]; intros off H0 H B;
    unfold tx_records; cbn [map app List.concat].
  - rewrite app_nil_r. split; [exact H|].
    split; [rewrite tx_end_nil; reflexivity|].
    constructor; [apply whole_commit_record | constructor].
  - destruct H as (Hd & L & Hb & Ht). inversion B as [|r l Br Bt]; subst.
    cbn [fst snd] in *.
    destruct (IH (off + sizeof_data_record) ltac:(layout; lia) Ht Bt)
      as (Ih & Il & Iw).
    pose proof (length_data_record block_no img L) as Ld.
    split; [|split].
    + apply holds_cat; [exact Hd|]. rewrite Ld.
      replace (JOURNAL_BLOCK_IDX * BLOCK_SIZE + off + sizeof_data_record)
        with (JOURNAL_BLOCK_IDX * BLOCK_SIZE + (off + sizeof_data_record))
        by lia.
      exact Ih.
    + rewrite length_app, <- (tx_end_cons off (block_no, img) tx), <- Il.
      unfold tx_records. lia.
    + constructor; [|exact Iw].
      apply whole_data_record; try assumption; [layout; lia | right; lia].
Qed.

Lemma log_at_records f n txs : forall off,
  0 <= off -> JOURNAL_BLOCK_IDX * BLOCK_SIZE + off <= len f ->
  log_at f off txs ->
  Forall (fun r : Z * bytes => (fst r + 1) * BLOCK_SIZE <= n)
         (List.concat txs) ->
  holds f (JOURNAL_BLOCK_IDX * BLOCK_SIZE + off)
        (List.concat (log_records txs))
  /\ off + Z.of_nat (List.length (List.concat (log_records txs)))
     = log_end off txs
  /\ Forall (whole_record n) (log_records txs).
Proof.
  induction txs as [|tx txs IH]; intros off H0 Hl H B;
    unfold log_records; cbn [map List.concat].
  - split; [|split; [cbn; lia | constructor]].
    split; [layout; lia|]. split; [cbn [List.length]; lia | reflexivity].
  - destruct H as [Ht Hr]. cbn [List.concat] in B.
    apply Forall_app in B as [Bt Br].
    destruct (tx_at_records f n tx off H0 Ht Bt) as (Th & Tl & Tw).
    assert (Ge : off <= tx_end off tx)
      by (pose proof (tx_end_gt off tx); layout; lia).
    destruct (IH (tx_end off tx) ltac:(lia)
                ltac:(destruct Th as (_ & Q & _); lia) Hr Br)
      as (Ih & Il & Iw).
    rewrite concat_app. split; [|split].
    + apply holds_cat; [exact Th|].
      replace (JOURNAL_BLOCK_IDX * BLOCK_SIZE + off
               + Z.of_nat (List.length (List.concat (tx_records tx))))
        with (JOURNAL_BLOCK_IDX * BLOCK_SIZE + tx_end off tx) by lia.
      exact Ih.
    + rewrite length_app, log_end_cons, <- Il. unfold log_records. lia.
    + apply Forall_app. split; [exact Tw | exact Iw].
Qed.

(** A well-formed journal, as create leaves it, is tiled by its records
    when the blocks it names are blocks of the image. *)
Lemma journal_ok_tiled f txs :
  journal_ok f txs ->
  Forall (fun r : Z * bytes => (fst r + 1) * BLOCK_SIZE <= len f)
         (List.concat txs) ->
  tiled f (log_records txs).
Proof.
  intros Hj B. pose proof (journal_ok_header f txs Hj) as Hh.
  destruct Hj as ((_ & Hl & _) & Hlog & Hend).
  destruct (log_at_records f (len f) txs sizeof_journal_header
              ltac:(layout; lia)
              ltac:(cbn [encode_jh le32 List.length app] in Hl; layout; lia)
              Hlog B)
    as (Ih & Il & Iw).
  assert (P : past (log_records txs) = log_end sizeof_journal_header txs)
    by (unfold past; exact Il).
  split; [rewrite P; exact Hh|]. split; [exact Ih|]. split; [exact Iw|].
  rewrite P. exact Hend.
Qed.

(** C4, as the code has it.  Take an image whose journal is tiled by whole
    records up to bytes-used: any records, committed or not, each Data
    record naming a block of the image outside the journal region.  Take a
    second image that agrees with it everywhere but in the journal's tail,
    the bytes of the journal region from bytes-used on, where it may hold
    anything.  Then install returns on both with the same count; no read
    of the run takes a byte of the tail; the two runs issue the same reads
    and writes; and they leave the same journal header and the same
    content in every block outside the journal region.  (When bytes-used
    cuts a record in two, the code does read past it.) *)
Theorem install_ignores_tail :
  forall recs fuel max_commits f1 f2,
    tiled f1 recs ->
    agree (nbytes_used (header f1)) f1 f2 ->
    (List.length recs < fuel)%nat ->
    exists c s1 s2,
      install_journal fuel max_commits (boot f1) = Ok c s1
      /\ install_journal fuel max_commits (boot f2) = Ok c s2
      /\ tail_unread (nbytes_used (header f1)) (log s1) = true
      /\ log s2 = log s1
      /\ header (disk s2) = header (disk s1)
      /\ forall block_no,
          block_no < JOURNAL_BLOCK_IDX
          \/ JOURNAL_BLOCK_IDX + JOURNAL_BLOCKS <= block_no ->
          (block_no + 1) * BLOCK_SIZE <= len (disk s1) ->
          block (disk s2) block_no = block (disk s1) block_no.
Proof.
  intros recs fuel max_commits f1 f2 Ht Ag F.
  destruct (install_journal_tiled recs fuel max_commits (boot f1) Ht F)
    as (c & s1 & l & R1 & Lg & T).
  assert (U : nbytes_used (header f1) = past recs)
    by (destruct Ht as [-> _]; reflexivity).
  rewrite U in *. cbn [boot log app] in Lg. rewrite <- Lg in T.
  destruct (install_agrees_unless_tail_read fuel max_commits f1 f2 c s1)
    as (s2 & R2 & Lg2 & Hd & Hb).
  - rewrite U. exact Ag.
  - exact R1.
  - rewrite U. exact T.
  - exists c, s1, s2. auto 7.
Qed.

Lemma install_ignores_tail_witness :
  let f1 := disk (run (create_journal "a" 1001) (boot blank)) in
  let f2 := file_write f1 (4096 + 16428) [1; 2; 3] in
  exists c s1 s2,
    install_journal 6 (-1) (boot f1) = Ok c s1
    /\ install_journal 6 (-1) (boot f2) = Ok c s2
    /\ tail_unread (nbytes_used (header f1)) (log s1) = true
    /\ log s2 = log s1
    /\ header (disk s2) = header (disk s1)
    /\ forall block_no,
        block_no < JOURNAL_BLOCK_IDX
        \/ JOURNAL_BLOCK_IDX + JOURNAL_BLOCKS <= block_no ->
        (block_no + 1) * BLOCK_SIZE <= len (disk s1) ->
        block (disk s2) block_no = block (disk s1) block_no.
Proof.
  intros f1 f2.
  apply (install_ignores_tail
           (log_records [create_tx blank "a" 1001]) 6 (-1) f1 f2).
  - apply journal_ok_tiled; [evaluated|].
    repeat constructor; vm_compute; discriminate.
  - apply agree_tail_write; vm_compute; discriminate.
  - apply Nat.lt_succ_diag_r.
Defined.

(** ** The bytes of the transaction a create appends *)

(** The bytes of a Data record: type [REC_DATA] and size 4104 = 8 + 256 * 16
    in the header, the block number, the image. *)
Lemma data_record_bytes block_no img :
  0 <= block_no < 256 -> List.length img = Z.to_nat BLOCK_SIZE ->
  data_record block_no img
  = [REC_DATA; 0; 8; 16] ++ [block_no; 0; 0; 0] ++ img.
Proof.
  intros Hb L. destruct (data_record_whole block_no img L) as [E _].
  rewrite E. unfold le32. rewrite (Z.mod_small block_no 256) by lia.
  rewrite !Z.div_small by lia. reflexivity.
Qed.

(** The header on disk after the header write. *)
Lemma header_after_write f jh :
  0 <= magic jh < 4294967296 -> 0 <= nbytes_used jh < 4294967296 ->
  header (file_write f (JOURNAL_BLOCK_IDX * BLOCK_SIZE + 0) (encode_jh jh))
  = jh.
Proof.
  intros Hm Hu. unfold header. rewrite Z.add_0_r.
  change sizeof_journal_header
    with (Z.of_nat (List.length (encode_jh jh))).
  rewrite file_read_write_same. apply decode_encode_jh; assumption.
Qed.

Lemma u32_range x : 0 <= u32 x < 4294967296.
Proof. unfold u32. apply Z.mod_pos_bound. lia. Qed.

(** The byte [set_bitmap] changes, and the bytes it leaves. *)
Lemma get_set_bitmap bitmap index :
  0 <= index -> index / 8 < Z.of_nat (List.length bitmap) ->
  get (set_bitmap bitmap index) (index / 8)
  = Z.lor (get bitmap (index / 8)) (2 ^ (index mod 8))
  /\ forall j, 0 <= j -> j <> index / 8 ->
       get (set_bitmap bitmap index) j = get bitmap j.
Proof.
  intros Hi Hl. unfold set_bitmap.
  assert (H8 : 0 <= index / 8) by (apply Z.div_pos; lia).
  split.
  - rewrite get_set by lia. rewrite Z.eqb_refl.
    replace (index / 8 <? Z.of_nat (List.length bitmap)) with true
      by (symmetry; apply Z.ltb_lt; exact Hl).
    cbn [andb]. rewrite u8_bit by (apply Z.mod_pos_bound; lia). reflexivity.
  - intros j Hj N. rewrite get_set by lia.
    destruct (Z.eqb_spec j (index / 8)); [contradiction | reflexivity].
Qed.

(** The name bytes [strncpy] stores in the new entry: the name, then NUL
    ([get] past the end of the name is 0). *)
Lemma get_add_dirent_name root_data slot inode_idx file_name k :
  Z.of_nat (List.length root_data) = BLOCK_SIZE ->
  0 <= slot < dirent_slots -> 0 <= k < 27 ->
  get (add_dirent root_data slot inode_idx file_name)
      (slot * sizeof_dirent + dirent_name + k)
  = get (c_str file_name) k.
Proof.
  intros L Hs Hk. change dirent_slots with 128 in Hs. unfold add_dirent.
  rewrite get_strncpy
    by (rewrite ?length_put32; unfold dirent_name; layout; lia).
  replace ((slot * sizeof_dirent + dirent_name
            <=? slot * sizeof_dirent + dirent_name + k)
           && (slot * sizeof_dirent + dirent_name + k
               <? slot * sizeof_dirent + dirent_name + Z.of_nat 27))
    with true.
  - f_equal. lia.
  - symmetry. apply andb_true_iff.
    split; [apply Z.leb_le | apply Z.ltb_lt]; lia.
Qed.

(** The inode table block create logs: the new inode initialised, the
    size of entry 0 grown, the rest as it was. *)
Lemma new_inode_block ino_blk inode_idx now slot :
  Z.of_nat (List.length ino_blk) = BLOCK_SIZE ->
  0 <= slot < dirent_slots ->
  let img := grow_root (init_inode ino_blk inode_idx now) slot in
  let ino := (inode_idx mod (BLOCK_SIZE / INODE_SIZE)) * sizeof_inode in
  rd16 img (ino + inode_type) = 1
  /\ rd16 img (ino + inode_links) = 1
  /\ rd32 img (ino + inode_ctime) = now mod 2 ^ 32
  /\ rd32 img (ino + inode_mtime) = now mod 2 ^ 32
  /\ (forall k, inode_size + 4 <= k < inode_ctime
                \/ inode_mtime + 4 <= k < sizeof_inode ->
                get img (ino + k) = 0)
  /\ rd32 img inode_size
     = Z.max (if ino =? 0 then 0 else rd32 ino_blk inode_size)
             ((slot + 1) * sizeof_dirent)
  /\ (ino <> 0 -> rd32 img (ino + inode_size) = 0)
  /\ (forall j, 0 <= j -> j < ino \/ ino + sizeof_inode <= j ->
                j < inode_size \/ inode_size + 4 <= j ->
                get img j = get ino_blk j).
Proof.
  intros L Hs. cbv zeta. change dirent_slots with 128 in Hs.
  set (B := init_inode ino_blk inode_idx now).
  assert (LB : Z.of_nat (List.length B) = BLOCK_SIZE)
    by (unfold B; rewrite length_init_inode; exact L).
  destruct (grow_root_size B slot ltac:(rewrite LB; layout; lia))
    as [Gs Gf].
  destruct (init_inode_fields ino_blk inode_idx now L)
    as (F1 & F2 & F3 & F4 & F5 & F6 & F7).
  fold B in F1, F2, F3, F4, F5, F6, F7.
  pose proof (new_ino_range inode_idx) as [R0 R1].
  assert (Rm : exists m, 0 <= m < 32
                 /\ inode_idx mod (BLOCK_SIZE / INODE_SIZE) * sizeof_inode
                    = m * 128).
  { exists (inode_idx mod 32). split; [apply Z.mod_pos_bound; lia|].
    reflexivity. }
  destruct Rm as (m & Hm & Em).
  set (ino := inode_idx mod (BLOCK_SIZE / INODE_SIZE) * sizeof_inode) in *.
  assert (Un : u32 ((slot + 1) * sizeof_dirent) = (slot + 1) * sizeof_dirent)
    by (apply u32_small; layout; lia).
  unfold inode_type, inode_links, inode_size, inode_ctime, inode_mtime in *.
  change (2 ^ 32) with 4294967296. fold (u32 now).
  split; [|split; [|split; [|split; [|split; [|split; [|split]]]]]].
  - rewrite <- F1. apply rd16_outside. intros k Hk. apply Gf; lia.
  - rewrite <- F2. apply rd16_outside. intros k Hk. apply Gf; lia.
  - rewrite <- F4. apply rd32_outside. intros k Hk. apply Gf; lia.
  - rewrite <- F5. apply rd32_outside. intros k Hk. apply Gf; lia.
  - intros k Hk. rewrite Gf by lia.
    destruct Hk as [Hk|Hk]; [apply F6 | apply F7]; layout; lia.
  - rewrite Gs, Un. f_equal.
    destruct (Z.eqb_spec ino 0) as [E0|N0].
    + rewrite E0 in F3. exact F3.
    + apply rd32_outside. intros k Hk.
      apply get_init_inode_out; [exact L | lia | left; fold ino; lia].
  - intros N0. rewrite <- F3. apply rd32_outside. intros k Hk.
    apply Gf; lia.
  - intros j Hj Ho Hz. rewrite Gf by lia.
    apply get_init_inode_out; [exact L | exact Hj | exact Ho].
Qed.

(** C7. A create that logs its transaction issues exactly six writes, all
    to the journal and in this order.  First the four Data records, back
    to back from the header's bytes-used on (from the header size when the
    header had no magic): each is the record header (type [REC_DATA], size
    4104), the block number and the whole 4096-byte image of the block
    after the in-memory mutation, for the inode bitmap, the data bitmap,
    the root directory block and the inode table block.  The images, byte
    for byte: the inode bitmap with the bit of the new inode set in its
    byte and every other byte as on disk; the data bitmap as on disk; the
    root directory block with the inode number and the name (27 bytes,
    NUL-padded) in the new entry and every byte outside that entry as on
    disk; the inode table block with the new inode initialised, the size
    of entry 0 grown, and every other byte as on disk.  Then the Commit
    record (type [REC_COMMIT], size 4).  And last the journal header: the
    magic, and as bytes-used the offset past the Commit record, which is
    then what the header on disk says. *)
Theorem create_appends_transaction :
  forall file_name now s s',
    create_journal file_name now s = Ok true s' ->
    let d := disk s in
    let ibmap := block d INODE_BMAP_IDX in
    let dbmap := block d DATA_BMAP_IDX in
    let root_data := block d DATA_START_IDX in
    let inode_idx := free_inode ibmap in
    let slot := free_dirent root_data in
    let iblk_no := INODE_START_IDX + inode_idx / (BLOCK_SIZE / INODE_SIZE) in
    let ino_blk := block d iblk_no in
    let ibmap' := set_bitmap ibmap inode_idx in
    let root_data' := add_dirent root_data slot inode_idx file_name in
    let ino_blk' := grow_root (init_inode ino_blk inode_idx now) slot in
    let entry := slot * sizeof_dirent in
    let ino := (inode_idx mod (BLOCK_SIZE / INODE_SIZE)) * sizeof_inode in
    let off0 := if magic (header d) =? JOURNAL_MAGIC
                then nbytes_used (header d) else sizeof_journal_header in
    let off1 := (off0 + 4104) mod 2 ^ 32 in
    let off2 := (off1 + 4104) mod 2 ^ 32 in
    let off3 := (off2 + 4104) mod 2 ^ 32 in
    let off4 := (off3 + 4104) mod 2 ^ 32 in
    let off5 := (off4 + 4) mod 2 ^ 32 in
    let J := JOURNAL_BLOCK_IDX * BLOCK_SIZE in
    writes (log s')
    = writes (log s)
      ++ [Pwrite (J + off0)
            ([REC_DATA; 0; 8; 16] ++ [INODE_BMAP_IDX; 0; 0; 0] ++ ibmap');
          Pwrite (J + off1)
            ([REC_DATA; 0; 8; 16] ++ [DATA_BMAP_IDX; 0; 0; 0] ++ dbmap);
          Pwrite (J + off2)
            ([REC_DATA; 0; 8; 16] ++ [DATA_START_IDX; 0; 0; 0]
             ++ root_data');
          Pwrite (J + off3)
            ([REC_DATA; 0; 8; 16] ++ [iblk_no; 0; 0; 0] ++ ino_blk');
          Pwrite (J + off4) [REC_COMMIT; 0; 4; 0];
          Pwrite (J + 0)
            [76; 78; 82; 74;
             off5 mod 256; (off5 / 256) mod 256; (off5 / 65536) mod 256;
             (off5 / 16777216) mod 256]]
    /\ header (disk s') = {| magic := JOURNAL_MAGIC; nbytes_used := off5 |}
    /\ Forall (fun img => List.length img = Z.to_nat BLOCK_SIZE)
              [ibmap'; dbmap; root_data'; ino_blk']
    /\ (get ibmap' (inode_idx / 8)
        = Z.lor (get ibmap (inode_idx / 8)) (2 ^ (inode_idx mod 8))
        /\ forall j, 0 <= j -> j <> inode_idx / 8 ->
             get ibmap' j = get ibmap j)
    /\ (rd32 root_data' (entry + dirent_inode) = inode_idx
        /\ (forall k, 0 <= k < 27 ->
              get root_data' (entry + dirent_name + k)
              = get (c_str file_name) k)
        /\ forall j, 0 <= j -> j < entry \/ entry + 31 <= j ->
             get root_data' j = get root_data j)
    /\ (rd16 ino_blk' (ino + inode_type) = 1
        /\ rd16 ino_blk' (ino + inode_links) = 1
        /\ rd32 ino_blk' (ino + inode_ctime) = now mod 2 ^ 32
        /\ rd32 ino_blk' (ino + inode_mtime) = now mod 2 ^ 32
        /\ (forall k, inode_size + 4 <= k < inode_ctime
                      \/ inode_mtime + 4 <= k < sizeof_inode ->
                      get ino_blk' (ino + k) = 0)
        /\ rd32 ino_blk' inode_size
           = Z.max (if ino =? 0 then 0 else rd32 ino_blk inode_size)
                   ((slot + 1) * sizeof_dirent)
        /\ (ino <> 0 -> rd32 ino_blk' (ino + inode_size) = 0)
        /\ (forall j, 0 <= j -> j < ino \/ ino + sizeof_inode <= j ->
                      j < inode_size \/ inode_size + 4 <= j ->
                      get ino_blk' j = get ino_blk j)).
Proof.
  intros file_name now s s' H. cbv zeta.
  apply create_journal_Ok in H as (Hidx & Hslot & Hd & L).
  pose proof (free_inode_range _ Hidx) as Ri.
  pose proof (free_dirent_range _ Hslot) as Rs.
  pose proof (iblk_no_range _ Ri) as Rb.
  set (ibmap := block (disk s) INODE_BMAP_IDX) in *.
  set (root_data := block (disk s) DATA_START_IDX) in *.
  set (inode_idx := free_inode ibmap) in *.
  set (slot := free_dirent root_data) in *.
  set (iblk_no := INODE_START_IDX + inode_idx / (BLOCK_SIZE / INODE_SIZE))
    in *.
  set (ino_blk := block (disk s) iblk_no) in *.
  assert (L1 : List.length (set_bitmap ibmap inode_idx)
               = Z.to_nat BLOCK_SIZE)
    by (rewrite length_set_bitmap; apply length_block).
  assert (L2 : List.length (block (disk s) DATA_BMAP_IDX)
               = Z.to_nat BLOCK_SIZE) by apply length_block.
  assert (L3 : List.length (add_dirent root_data slot inode_idx file_name)
               = Z.to_nat BLOCK_SIZE)
    by (rewrite length_add_dirent; apply length_block).
  assert (L4 : List.length
                 (grow_root (init_inode ino_blk inode_idx now) slot)
               = Z.to_nat BLOCK_SIZE)
    by (rewrite length_grow_root, length_init_inode; apply length_block).
  assert (E0 : nbytes_used (init_jh (header (disk s)))
               = if magic (header (disk s)) =? JOURNAL_MAGIC
                 then nbytes_used (header (disk s))
                 else sizeof_journal_header).
  { unfold init_jh.
    destruct (magic (header (disk s)) =? JOURNAL_MAGIC); reflexivity. }
  rewrite E0 in Hd, L.
  set (off0 := if magic (header (disk s)) =? JOURNAL_MAGIC
               then nbytes_used (header (disk s))
               else sizeof_journal_header) in *.
  change (2 ^ 32) with 4294967296.
  change ((off0 + 4104) mod 4294967296)
    with (u32 (off0 + sizeof_data_record)).
  set (off1 := u32 (off0 + sizeof_data_record)) in *.
  change ((off1 + 4104) mod 4294967296)
    with (u32 (off1 + sizeof_data_record)).
  set (off2 := u32 (off1 + sizeof_data_record)) in *.
  change ((off2 + 4104) mod 4294967296)
    with (u32 (off2 + sizeof_data_record)).
  set (off3 := u32 (off2 + sizeof_data_record)) in *.
  change ((off3 + 4104) mod 4294967296)
    with (u32 (off3 + sizeof_data_record)).
  set (off4 := u32 (off3 + sizeof_data_record)) in *.
  change ((off4 + 4) mod 4294967296)
    with (u32 (off4 + sizeof_commit_record)).
  set (off5 := u32 (off4 + sizeof_commit_record)) in *.
  split; [|split; [|split; [|split; [|split]]]].
  - rewrite L, !writes_app.
    rewrite !data_record_bytes by (assumption || (layout; lia)).
    reflexivity.
  - rewrite Hd. cbn [fold_left apply_write].
    apply header_after_write; cbn [magic nbytes_used];
      [vm_compute; split; [discriminate | reflexivity] | apply u32_range].
  - repeat constructor; assumption.
  - apply get_set_bitmap; [lia|].
    unfold ibmap. rewrite length_block.
    change max_inodes with 64 in Ri.
    assert (inode_idx / 8 < 8) by (apply Z.div_lt_upper_bound; lia).
    layout. lia.
  - assert (Lr : Z.of_nat (List.length root_data) = BLOCK_SIZE)
      by (unfold root_data; rewrite length_block; reflexivity).
    split; [|split].
    + apply rd32_add_dirent; try assumption.
      change max_inodes with 64 in Ri. lia.
    + intros k Hk. apply get_add_dirent_name; assumption.
    + intros j Hj Ho. apply get_add_dirent_out; assumption.
  - apply new_inode_block; [|exact Rs].
    unfold ino_blk. rewrite length_block. reflexivity.
Qed.

Lemma create_appends_transaction_witness :
  exists s',
    create_journal "a.txt" 1000 (boot blank) = Ok true s'
    /\ List.length (writes (log s')) = 6%nat
    /\ nth 4 (writes (log s')) (Pread 0 0)
       = Pwrite (4096 + 16424) [2; 0; 4; 0]
    /\ nth 5 (writes (log s')) (Pread 0 0)
       = Pwrite 4096 [76; 78; 82; 74; 44; 64; 0; 0]
    /\ header (disk s')
       = {| magic := JOURNAL_MAGIC; nbytes_used := 16428 |}.
Proof.
  exists (run (create_journal "a.txt" 1000) (boot blank)).
  assert (H : create_journal "a.txt" 1000 (boot blank)
              = Ok true (run (create_journal "a.txt" 1000) (boot blank))).
  { apply (ok_run Bool.eqb). vm_compute. reflexivity. }
  split; [exact H|].
  destruct (create_appends_transaction _ _ _ _ H) as (W & Hd & _).
  rewrite W, Hd. repeat split; vm_compute; reflexivity.
Defined.
